(** * Reminder scheduling engine of obsidian-ntfy-reminders (src/main.new.js)

    A shallow embedding of the stamp parser, the sender gate, the timer
    registry and the scheduler, and the properties of them that the
    specification states; then the vault scan, the role changes, the
    debounce of rescans and the helpers of the suggestions and the picker,
    with the properties that the code itself shows.

    Modelling conventions.
    - A JavaScript string is the list of its UTF-16 code units ([list N]);
      offsets and lengths therefore agree with the source.
    - A regular expression literal of the source is a term of [re], run by a
      backtracking matcher with the ECMAScript priorities (greedy
      quantifiers, ordered alternation, leftmost match).
    - A moment is its epoch value in milliseconds ([Z]); the local zone is a
      fixed-offset zone (UTC), so a day is 86400000 ms.  Daylight-saving
      shifts are outside the model.
    - Numbers are exact integers (JavaScript doubles are exact below 2^53).
    - One synchronous run reads the clock once: the instant [now] is a
      parameter of every operation that reads the clock.
    - The maps [timerHandles] and [fileTimers] are [gmap]s; the armed
      timeouts of the host window are a [gmap] from handle to the data the
      callback closes over. *)

From stdpp Require Import gmap list strings.
From Stdlib Require Import ZArith NArith Lia Sorted.

(** ** JavaScript strings as lists of UTF-16 code units *)

Module Js.

Definition lit (s : string) : list N :=
  (fun a => N.of_nat (Ascii.nat_of_ascii a)) <$> String.list_ascii_of_string s.

Definition inRange (lo hi c : N) : bool := (N.leb lo c && N.leb c hi)%bool.

(** [\d] *)
Definition isDigit (c : N) : bool := inRange 48 57 c.

(** [\w] (no [u] flag: ASCII letters, digits and underscore) *)
Definition isWord (c : N) : bool :=
  (inRange 48 57 c || inRange 65 90 c || inRange 97 122 c || N.eqb c 95)%bool.

(** [\s], which is also the set that [String.prototype.trim] strips *)
Definition isSpace (c : N) : bool :=
  (inRange 9 13 c || N.eqb c 32 || N.eqb c 160 || N.eqb c 5760
   || inRange 8192 8202 c || N.eqb c 8232 || N.eqb c 8233 || N.eqb c 8239
   || N.eqb c 8287 || N.eqb c 12288 || N.eqb c 65279)%bool.

Fixpoint trimStart (s : list N) : list N :=
  match s with
  | c :: s' => if isSpace c then trimStart s' else s
  | [] => []
  end.

Definition trimEnd (s : list N) : list N := rev (trimStart (rev s)).

Definition trim (s : list N) : list N := trimEnd (trimStart s).

(** [r] occurs in [s] as a contiguous run of code units. *)
Definition occursIn (r s : list N) : Prop := ∃ pre post, s = pre ++ r ++ post.

(** [r] occurs in [s], begins with a unit that is not white space, and
    either ends with one or is followed by one: trimming [s], or text put
    around [s], cannot cut into it. *)
Definition kept (r s : list N) : Prop :=
  ∃ pre post, s = pre ++ r ++ post
    ∧ (∃ c r', r = c :: r' ∧ isSpace c = false)
    ∧ ((∃ c, last r = Some c ∧ isSpace c = false)
       ∨ (∃ c post', post = c :: post' ∧ isSpace c = false)).

(** [toLowerCase] on the ASCII range; code units outside it are kept (the
    Unicode case mapping of the host is not modelled). *)
Definition lowerUnit (c : N) : N := if inRange 65 90 c then (c + 32)%N else c.
Definition toLowerCase (s : list N) : list N := lowerUnit <$> s.

Fixpoint startsWith (s p : list N) : bool :=
  match p, s with
  | [], _ => true
  | a :: p', b :: s' => (N.eqb a b && startsWith s' p')%bool
  | _ :: _, [] => false
  end.

Fixpoint includes (s p : list N) : bool :=
  (startsWith s p ||
   match s with
   | _ :: s' => includes s' p
   | [] => false
   end)%bool.

(** [s.split(sep)] for a one-unit separator *)
Fixpoint splitOn (sep : N) (s : list N) : list (list N) :=
  match s with
  | [] => [[]]
  | c :: s' =>
      if N.eqb c sep then [] :: splitOn sep s'
      else match splitOn sep s' with
           | w :: ws => (c :: w) :: ws
           | [] => [[c]]
           end
  end.

(** [text.split(/\r?\n/)] *)
Fixpoint splitLines (s : list N) : list (list N) :=
  match s with
  | [] => [[]]
  | 13%N :: 10%N :: s' => [] :: splitLines s'
  | c :: s' =>
      if N.eqb c 10 then [] :: splitLines s'
      else match splitLines s' with
           | w :: ws => (c :: w) :: ws
           | [] => [[c]]
           end
  end.

(** The value of a run of decimal digits, most significant first. *)
Definition digitsValue (s : list N) : Z :=
  fold_left (fun acc c => 10 * acc + (Z.of_N c - 48))%Z s 0%Z.

Fixpoint takeDigits (s : list N) : list N :=
  match s with
  | c :: s' => if isDigit c then c :: takeDigits s' else []
  | [] => []
  end.

(** [parseInt(s, 10)]: leading white space, an optional sign, then the
    longest run of digits; [None] is NaN. *)
Definition parseInt (s : list N) : option Z :=
  let t := trimStart s in
  let '(sign, u) :=
    match t with
    | 45%N :: u => ((-1)%Z, u)
    | 43%N :: u => (1%Z, u)
    | _ => (1%Z, t)
    end in
  match takeDigits u with
  | [] => None
  | ds => Some (sign * digitsValue ds)%Z
  end.

(** Decimal rendering of a number inside a template literal. *)
Fixpoint digitsRev (fuel : nat) (n : N) : list N :=
  match fuel with
  | O => []
  | S f =>
      (48 + n mod 10)%N ::
      (if N.eqb (n / 10) 0 then [] else digitsRev f (n / 10)%N)
  end.

Definition showN (n : N) : list N := rev (digitsRev (S (N.to_nat (N.log2 n))) n).

Definition showZ (z : Z) : list N :=
  match z with
  | Z0 => showN 0
  | Zpos p => showN (Npos p)
  | Zneg p => 45%N :: showN (Npos p)
  end.

End Js.

(** ** Regular expressions

    The fragment of ECMAScript regular expressions that the source uses,
    and a continuation-passing backtracking matcher for it.  A quantified
    atom of the source is always a character class, hence [Many]. *)

Module Regex.

Inductive re : Type :=
| Eps
| Cls (p : N → bool)          (* one code unit of a class *)
| Seq (a b : re)
| Alt (a b : re)              (* a|b, left alternative first *)
| Opt (a : re)                (* a?, greedy *)
| Many (p : N → bool)         (* [class]*, greedy *)
| Grp (i : nat) (a : re)      (* capture group number i *)
| WordB                       (* \b *)
| Bol                         (* ^ without the m flag *)
| Eol.                        (* $ without the m flag *)

(** A position in the input: the unit before it, what is left, its index. *)
Record mstate := MState { prev : option N; rest : list N; pos : nat }.

Definition caps := list (nat * list N).

Fixpoint group (i : nat) (cs : caps) : option (list N) :=
  match cs with
  | (j, w) :: cs' => if Nat.eqb j i then Some w else group i cs'
  | [] => None
  end.

Definition isWordAt (o : option N) : bool :=
  match o with Some c => Js.isWord c | None => false end.

Definition atBoundary (st : mstate) : bool :=
  xorb (isWordAt (prev st)) (isWordAt (head (rest st))).

Fixpoint many {R} (p : N → bool) (pv : option N) (s : list N) (i : nat)
    (k : mstate → option R) : option R :=
  match s with
  | c :: s' =>
      if p c then
        match many p (Some c) s' (S i) k with
        | Some r => Some r
        | None => k (MState pv s i)
        end
      else k (MState pv s i)
  | [] => k (MState pv s i)
  end.

Fixpoint run {R} (r : re) (st : mstate) (cs : caps)
    (k : mstate → caps → option R) : option R :=
  match r with
  | Eps => k st cs
  | Cls p =>
      match rest st with
      | c :: s' => if p c then k (MState (Some c) s' (S (pos st))) cs else None
      | [] => None
      end
  | Seq a b => run a st cs (fun st' cs' => run b st' cs' k)
  | Alt a b =>
      match run a st cs k with
      | Some r => Some r
      | None => run b st cs k
      end
  | Opt a =>
      match run a st cs k with
      | Some r => Some r
      | None => k st cs
      end
  | Many p => many p (prev st) (rest st) (pos st) (fun st' => k st' cs)
  | Grp i a =>
      run a st cs
        (fun st' cs' => k st' ((i, take (pos st' - pos st) (rest st)) :: cs'))
  | WordB => if atBoundary st then k st cs else None
  | Bol => if Nat.eqb (pos st) 0 then k st cs else None
  | Eol => match rest st with [] => k st cs | _ :: _ => None end
  end.

(** One successful match: where it starts and ends, and its groups. *)
Record rmatch := RMatch { index : nat; mend : nat; groups : caps }.

Definition matchAt (r : re) (st : mstate) : option rmatch :=
  run r st [] (fun st' cs => Some (RMatch (pos st) (pos st') cs)).

(** [re.exec] without the g flag: the leftmost match. *)
Fixpoint searchFrom (r : re) (pv : option N) (s : list N) (i : nat)
    : option rmatch :=
  match matchAt r (MState pv s i) with
  | Some m => Some m
  | None =>
      match s with
      | c :: s' => searchFrom r (Some c) s' (S i)
      | [] => None
      end
  end.

Definition exec (r : re) (s : list N) : option rmatch := searchFrom r None s 0.

Definition test (r : re) (s : list N) : bool :=
  match exec r s with Some _ => true | None => false end.

(** [s.matchAll(re)] with the g flag: after a match the search resumes at
    its end ([skip] counts the units still inside the last match). *)
Fixpoint scanAll (r : re) (pv : option N) (s : list N) (i skip : nat)
    {struct s} : list rmatch :=
  match skip with
  | S n =>
      match s with
      | c :: s' => scanAll r (Some c) s' (S i) n
      | [] => []
      end
  | O =>
      match matchAt r (MState pv s i) with
      | Some m =>
          m :: match s with
               | c :: s' => scanAll r (Some c) s' (S i) (mend m - i - 1)
               | [] => []
               end
      | None =>
          match s with
          | c :: s' => scanAll r (Some c) s' (S i) 0
          | [] => []
          end
      end
  end.

Definition matchAll (r : re) (s : list N) : list rmatch := scanAll r None s 0 0.

(** What a successful run of [r] from [st] to [st'] looks like: the
    declarative reading of the matcher, without its priorities. *)
Fixpoint span (r : re) (st : mstate) (cs : caps) (st' : mstate) (cs' : caps)
    : Prop :=
  match r with
  | Eps => st' = st ∧ cs' = cs
  | Cls p =>
      ∃ c s', rest st = c :: s' ∧ p c = true
              ∧ st' = MState (Some c) s' (S (pos st)) ∧ cs' = cs
  | Seq a b => ∃ st1 cs1, span a st cs st1 cs1 ∧ span b st1 cs1 st' cs'
  | Alt a b => span a st cs st' cs' ∨ span b st cs st' cs'
  | Opt a => span a st cs st' cs' ∨ (st' = st ∧ cs' = cs)
  | Many p =>
      ∃ w, Forall (fun c => p c = true) w
           ∧ rest st = w ++ rest st'
           ∧ pos st' = pos st + length w
           ∧ prev st' = from_option Some (prev st) (last w)
           ∧ cs' = cs
  | Grp i a =>
      ∃ cs1, span a st cs st' cs1
             ∧ cs' = (i, take (pos st' - pos st) (rest st)) :: cs1
  | WordB => atBoundary st = true ∧ st' = st ∧ cs' = cs
  | Bol => pos st = 0 ∧ st' = st ∧ cs' = cs
  | Eol => rest st = [] ∧ st' = st ∧ cs' = cs
  end.

(** Expressions without capture groups. *)
Fixpoint nocap (r : re) : bool :=
  match r with
  | Seq a b | Alt a b => nocap a && nocap b
  | Opt a => nocap a
  | Grp _ _ => false
  | _ => true
  end.

(** The matcher state at index [j] of [line]. *)
Definition stateAt (line : list N) (j : nat) : mstate :=
  MState (last (take j line)) (drop j line) j.

(** Matches in the order of the text, each starting no earlier than [lo],
    none overlapping the one before it. *)
Fixpoint chained (lo : nat) (ms : list rmatch) : Prop :=
  match ms with
  | [] => True
  | m :: ms' => lo ≤ index m ∧ chained (Nat.max (mend m) (S (index m))) ms'
  end.

(** Building blocks for the literals of the source. *)
Definition seqs (rs : list re) : re := foldr Seq Eps rs.
Definition alts (rs : list re) : re :=
  match rs with
  | [] => Eps
  | r :: rs' => fold_left Alt rs' r
  end.
Definition unit (c : N) : re := Cls (N.eqb c).
Definition unitI (c : N) : re :=
  Cls (fun x => N.eqb (Js.lowerUnit x) (Js.lowerUnit c)).
Definition str (s : string) : re := seqs (unit <$> Js.lit s).
Definition strI (s : string) : re := seqs (unitI <$> Js.lit s).
Definition digit : re := Cls Js.isDigit.
Definition digits1 : re := Seq digit (Many Js.isDigit).      (* \d+ *)
Definition spaces : re := Many Js.isSpace.                   (* \s* *)
Definition spaces1 : re := Seq (Cls Js.isSpace) spaces.      (* \s+ *)

End Regex.

(** ** Moments

    The part of the moment library that the engine calls, on epoch
    milliseconds in a fixed-offset zone. *)

Module Moment.
Local Open Scope Z_scope.

Inductive unit : Type := Minutes | Hours | Days | Weeks.

Definition unitMs (u : unit) : Z :=
  match u with
  | Minutes => 60000
  | Hours => 3600000
  | Days => 86400000
  | Weeks => 604800000
  end.

Definition isLeap (y : Z) : bool :=
  ((y mod 4 =? 0) && (negb (y mod 100 =? 0) || (y mod 400 =? 0)))%bool.

Definition daysInMonth (y m : Z) : Z :=
  match m with
  | 1 | 3 | 5 | 7 | 8 | 10 | 12 => 31
  | 4 | 6 | 9 | 11 => 30
  | 2 => if isLeap y then 29 else 28
  | _ => 0
  end.

(** Days between 1970-01-01 and the civil date (proleptic Gregorian). *)
Definition daysFromCivil (y m d : Z) : Z :=
  let y' := if m <=? 2 then y - 1 else y in
  let era := y' / 400 in
  let yoe := y' - era * 400 in
  let mp := if 2 <? m then m - 3 else m + 9 in
  let doy := (153 * mp + 2) / 5 + d - 1 in
  let doe := yoe * 365 + yoe / 4 - yoe / 100 + doy in
  era * 146097 + doe - 719468.

Definition validDate (y m d : Z) : bool :=
  ((1 <=? m) && (m <=? 12) && (1 <=? d) && (d <=? daysInMonth y m))%bool.

Definition validTime (hh mm : Z) : bool :=
  ((0 <=? hh) && (hh <=? 23) && (0 <=? mm) && (mm <=? 59))%bool.

Definition epochMs (y m d hh mm : Z) : Z :=
  ((daysFromCivil y m d * 24 + hh) * 60 + mm) * 60000.

(** [moment(text, "YYYY-MM-DD HH:mm", true)] for the fields written in
    [text]; [None] is a moment whose [isValid()] is false. *)
Definition strict (y m d hh mm : Z) : option Z :=
  if (validDate y m d && validTime hh mm)%bool
  then Some (epochMs y m d hh mm) else None.

(** [t.add(n, u)] *)
Definition add (t n : Z) (u : unit) : Z := t + n * unitMs u.

(** [a.diff(b, u)]: whole units, truncated toward zero *)
Definition diff (a b : Z) (u : unit) : Z := Z.quot (a - b) (unitMs u).

(** [a.isAfter(b)] *)
Definition isAfter (a b : Z) : bool := b <? a.

(** [t.unix()] *)
Definition unix (t : Z) : Z := t / 1000.

(** [t.isValid()] after arithmetic: inside the range of a Date *)
Definition isValid (t : Z) : bool := Z.abs t <=? 8640000000000000.

End Moment.

(** ** Stamp parser *)

Module Stamp.
Import Regex.

Record recurrence := Recurrence { every : Z; unit : Moment.unit }.

Record occurrence := Occurrence {
  when : Z;
  context : list N;
  raw : list N;
  offset : nat;
  recur : option recurrence
}.

(** The clock glyph U+23F0. *)
Definition clock : N := 9200%N.

(** [/⏰\s*(\d{4}-\d{2}-\d{2})\s+(\d{1,2})(?::([0-5]\d))?\s*(am|pm)?\b/ig] *)
Definition tsRe : re :=
  seqs [ Regex.unit clock; spaces;
         Grp 1 (seqs [digit; digit; digit; digit; str "-";
                      digit; digit; str "-"; digit; digit]);
         spaces1;
         Grp 2 (Seq digit (Opt digit));
         Opt (Seq (str ":") (Grp 3 (Seq (Cls (Js.inRange 48 53)) digit)));
         spaces;
         Opt (Grp 4 (Alt (strI "am") (strI "pm")));
         WordB ].

(** [(minutes?|minute|min|m|hours?|hour|hr|h|days?|day|d|weeks?|week|w)]
    under the i flag, without its parentheses *)
Definition unitAlts : re :=
  alts [ Seq (strI "minute") (Opt (strI "s")); strI "minute";
         strI "min"; strI "m";
         Seq (strI "hour") (Opt (strI "s")); strI "hour";
         strI "hr"; strI "h";
         Seq (strI "day") (Opt (strI "s")); strI "day";
         strI "d";
         Seq (strI "week") (Opt (strI "s")); strI "week";
         strI "w" ].

(** [/^\s*every\s+(\d+)\s*(minutes?|minute|min|m|hours?|hour|hr|h|days?|day|d|weeks?|week|w)\b/i] *)
Definition recurRe : re :=
  seqs [ Bol; spaces; strI "every"; spaces1; Grp 1 digits1; spaces;
         Grp 2 unitAlts; WordB ].

(** [/(^m(in(ute)?s?)?$)|^mins?$|^m$/] *)
Definition minutesRe : re :=
  alts [ seqs [Bol; str "m";
               Opt (seqs [str "in"; Opt (str "ute"); Opt (str "s")]); Eol];
         seqs [Bol; str "min"; Opt (str "s"); Eol];
         seqs [Bol; str "m"; Eol] ].

(** [/^h(ours?)?$|^hrs?$|^h$/] *)
Definition hoursRe : re :=
  alts [ seqs [Bol; str "h"; Opt (Seq (str "our") (Opt (str "s"))); Eol];
         seqs [Bol; str "hr"; Opt (str "s"); Eol];
         seqs [Bol; str "h"; Eol] ].

(** [/^d(ays?)?$|^d$/] *)
Definition daysRe : re :=
  alts [ seqs [Bol; str "d"; Opt (Seq (str "ay") (Opt (str "s"))); Eol];
         seqs [Bol; str "d"; Eol] ].

(** [/^w(eeks?)?$|^w$/] *)
Definition weeksRe : re :=
  alts [ seqs [Bol; str "w"; Opt (Seq (str "eek") (Opt (str "s"))); Eol];
         seqs [Bol; str "w"; Eol] ].

Definition normalizeUnit (tok : list N) : option Moment.unit :=
  if test minutesRe tok then Some Moment.Minutes
  else if test hoursRe tok then Some Moment.Hours
  else if test daysRe tok then Some Moment.Days
  else if test weeksRe tok then Some Moment.Weeks
  else None.

(** [s.slice(a, b)] for [0 <= a] *)
Definition slice (s : list N) (a b : nat) : list N := take (b - a) (drop a s).

Inductive meridiem : Type := AM | PM.

(** [m[4] ? m[4].toLowerCase() : null], read as the indicator it spells *)
Definition meridiemOf (g : option (list N)) : option meridiem :=
  match g with
  | Some w =>
      if bool_decide (Js.toLowerCase w = Js.lit "pm") then Some PM
      else if bool_decide (Js.toLowerCase w = Js.lit "am") then Some AM
      else None
  | None => None
  end.

(** [if (ap) { if (ap === "pm" && hh < 12) hh += 12;
               if (ap === "am" && hh === 12) hh = 0; }] *)
Definition resolveHour (ap : option meridiem) (hh : Z) : Z :=
  match ap with
  | Some PM => if (hh <? 12)%Z then (hh + 12)%Z else hh
  | Some AM => if (hh =? 12)%Z then 0%Z else hh
  | None => hh
  end.

(** The fields of a [YYYY-MM-DD] capture. *)
Definition dateFields (dateStr : list N) : Z * Z * Z :=
  (Js.digitsValue (slice dateStr 0 4),
   Js.digitsValue (slice dateStr 5 7),
   Js.digitsValue (slice dateStr 8 10)).

(** The date and the 24-hour time that a match spells: year, month, day,
    resolved hour, minute. *)
Definition stampFields (m : rmatch) : option (Z * Z * Z * Z * Z) :=
  match group 1 (groups m), group 2 (groups m) with
  | Some dateStr, Some hs =>
      match Js.parseInt hs with
      | Some hh0 =>
          let mm := match group 3 (groups m) with
                    | Some ms => default 0%Z (Js.parseInt ms)
                    | None => 0%Z
                    end in
          let hh := resolveHour (meridiemOf (group 4 (groups m))) hh0 in
          let '(y, mo, d) := dateFields dateStr in
          Some (y, mo, d, hh, mm)
      | None => None
      end
  | _, _ => None
  end.

(** The resolved instant of a match, or [None] where the loop body
    executes [continue]. *)
Definition stampWhen (m : rmatch) : option Z :=
  match stampFields m with
  | Some (y, mo, d, hh, mm) =>
      if ((23 <? hh)%Z || (59 <? mm)%Z)%bool then None
      else Moment.strict y mo d hh mm
  | None => None
  end.

(** The recurrence suffix found in [tail]: the recurrence and the length
    of the text it consumed. *)
Definition recurOf (tail : list N) : option (recurrence * nat) :=
  match exec recurRe tail with
  | Some rm =>
      match group 1 (groups rm), group 2 (groups rm) with
      | Some ns, Some us =>
          let every := Z.max 1 (default 0%Z (Js.parseInt ns)) in
          match normalizeUnit (Js.toLowerCase us) with
          | Some u =>
              if (0 <? every)%Z
              then Some (Recurrence every u, mend rm - index rm)
              else None
          | None => None
          end
      | _, _ => None
      end
  | None => None
  end.

(** [(before + (before && after ? " " : "") + after).trim()] *)
Definition joinContext (before after : list N) : list N :=
  Js.trim (before ++
           (match before, after with
            | _ :: _, _ :: _ => [32%N]
            | _, _ => []
            end) ++ after).

(** The two fragments joined the way the specification words it: by a
    single space when both are non-empty. *)
Definition joined (before after : list N) : list N :=
  match before, after with
  | [], _ => after
  | _, [] => before
  | _, _ => before ++ [32%N] ++ after
  end.

(** One iteration of the loop over [all]. *)
Definition parseStamp (line : list N) (m : rmatch) (nextStart : nat)
    : option occurrence :=
  let start := index m in
  let end_ := mend m in
  match stampWhen m with
  | Some w =>
      let tail := slice line end_ nextStart in
      let rc := recurOf tail in
      let end2 := match rc with Some (_, n) => end_ + n | None => end_ end in
      let before := Js.trim (slice line 0 start) in
      let after := Js.trim (drop end2 line) in
      Some (Occurrence w (joinContext before after) (slice line start end_)
              start (fst <$> rc))
  | None => None
  end.

(** [all[k + 1]?.index ?? line.length], for the matches after [all[k]] *)
Definition nextStartOf (line : list N) (more : list rmatch) : nat :=
  match more with
  | m' :: _ => index m'
  | [] => length line
  end.

Fixpoint parseMatches (line : list N) (all : list rmatch) : list occurrence :=
  match all with
  | [] => []
  | m :: more =>
      match parseStamp line m (nextStartOf line more) with
      | Some o => o :: parseMatches line more
      | None => parseMatches line more
      end
  end.

Definition parseClockEmojiAll (line : list N) : list occurrence :=
  parseMatches line (matchAll tsRe line).


(** [advanceToFuture(when, recur, now)]; [None] is the [null] result. *)
Definition advanceToFuture (when : Z) (r : recurrence) (now : Z) : option Z :=
  if (every r =? 0)%Z then None
  else if negb (Moment.isAfter when now) then
    let diff := Moment.diff now when (unit r) in
    if (0 <=? diff)%Z then
      let steps := (diff / every r + 1)%Z in
      Some (Moment.add when (steps * every r) (unit r))
    else Some when
  else Some when.

(** [detectPriority(line)] *)
Definition detectPriority (line : list N) : Z :=
  if Js.includes line [55357; 56634]%N then 5%Z
  else if Js.includes line [9195%N] then 4%Z
  else if Js.includes line [55357; 56636]%N then 3%Z
  else if Js.includes line [55357; 56637]%N then 2%Z
  else if Js.includes line [9196%N] then 1%Z
  else 3%Z.

End Stamp.

(** ** Sender gate *)

Module Sender.
Import Regex.
Local Open Scope Z_scope.

Record settings := Settings {
  senderHostnames : list N;
  senderIPsCidrs : list N;
  dismissStatusChars : list N
}.

Record identity := Identity { hostname : list N; ipv4 : list (list N) }.

(** The 32-bit integer operators of JavaScript, on [Z]. *)
Definition toUint32 (z : Z) : Z := z mod 2 ^ 32.
Definition toInt32 (z : Z) : Z :=
  let u := z mod 2 ^ 32 in if u <? 2 ^ 31 then u else u - 2 ^ 32.
Definition shl (a n : Z) : Z := toInt32 (toInt32 a * 2 ^ (n mod 32)).  (* a << n *)
Definition ushr (a n : Z) : Z := toUint32 a / 2 ^ (n mod 32).          (* a >>> n *)
Definition band (a b : Z) : Z := Z.land (toInt32 a) (toInt32 b).       (* a & b *)
Definition bnot (a : Z) : Z := Z.lnot (toInt32 a).                     (* ~a *)

Inductive rule : Type :=
| Cidr (ipInt mask bits : Z)
| Exact (ipInt : Z) (ip : list N)
| Prefix (prefix : list N).

Definition nonEmpty (s : list N) : bool :=
  match s with [] => false | _ :: _ => true end.

(** [s.split(",").map(x => x.trim()).filter(Boolean)] *)
Definition parseList (s : list N) : list (list N) :=
  List.filter nonEmpty (Js.trim <$> Js.splitOn 44 s).

(** [clampInt(n, lo, hi)] *)
Definition clampInt (n : list N) (lo hi : Z) : Z :=
  match Js.parseInt n with
  | None => lo
  | Some x => Z.max lo (Z.min hi x)
  end.

Definition dot : re := str ".".

(** [/^(\d+)\.(\d+)\.(\d+)\.(\d+)$/] *)
Definition quadRe : re :=
  seqs [Bol; Grp 1 digits1; dot; Grp 2 digits1; dot; Grp 3 digits1; dot;
        Grp 4 digits1; Eol].

Definition ipv4ToInt (ip : list N) : option Z :=
  match exec quadRe ip with
  | Some m =>
      match group 1 (groups m), group 2 (groups m),
            group 3 (groups m), group 4 (groups m) with
      | Some s0, Some s1, Some s2, Some s3 =>
          let a0 := Js.digitsValue s0 in
          let a1 := Js.digitsValue s1 in
          let a2 := Js.digitsValue s2 in
          let a3 := Js.digitsValue s3 in
          if forallb (fun n => negb ((n <? 0) || (255 <? n))) [a0; a1; a2; a3]
          then Some (ushr (shl a0 24) 0 + shl a1 16 + shl a2 8 + a3)
          else None
      | _, _, _, _ => None
      end
  | None => None
  end.

(** [/^\d+\.\d+\.\d+\.\d+\/\d+$/] *)
Definition cidrRe : re :=
  seqs [Bol; digits1; dot; digits1; dot; digits1; dot; digits1; str "/";
        digits1; Eol].
(** [/^\d+\.\d+\.\d+\.\d+$/] *)
Definition exactRe : re :=
  seqs [Bol; digits1; dot; digits1; dot; digits1; dot; digits1; Eol].
(** [/^\d+\.\d+\.\d+\.$/], [/^\d+\.\d+\.$/], [/^\d+\.$/] *)
Definition dotted3Re : re :=
  seqs [Bol; digits1; dot; digits1; dot; digits1; dot; Eol].
Definition dotted2Re : re := seqs [Bol; digits1; dot; digits1; dot; Eol].
Definition dotted1Re : re := seqs [Bol; digits1; dot; Eol].
(** [/^\d+\.\d+\.\d+$/], [/^\d+\.\d+$/], [/^\d+$/] *)
Definition bare3Re : re := seqs [Bol; digits1; dot; digits1; dot; digits1; Eol].
Definition bare2Re : re := seqs [Bol; digits1; dot; digits1; Eol].
Definition bare1Re : re := seqs [Bol; digits1; Eol].

(** [bits === 0 ? 0 : (~0 >>> (32 - bits)) << (32 - bits)] *)
Definition maskOf (bits : Z) : Z :=
  if bits =? 0 then 0 else shl (ushr (bnot 0) (32 - bits)) (32 - bits).

(** The rules that one entry of the list contributes. *)
Definition parseIPRule (raw : list N) : list rule :=
  if test cidrRe raw then
    match Js.splitOn 47 raw with
    | ip :: bitsStr :: _ =>
        let bits := clampInt bitsStr 0 32 in
        match ipv4ToInt ip with
        | Some ipInt => [Cidr ipInt (maskOf bits) bits]
        | None => []
        end
    | _ => []
    end
  else if test exactRe raw then
    match ipv4ToInt raw with
    | Some ipInt => [Exact ipInt raw]
    | None => []
    end
  else if (test dotted3Re raw || test dotted2Re raw || test dotted1Re raw)%bool
  then [Prefix raw]
  else if test bare3Re raw then [Prefix (raw ++ Js.lit ".")]
  else if test bare2Re raw then [Prefix (raw ++ Js.lit ".")]
  else if test bare1Re raw then [Prefix (raw ++ Js.lit ".")]
  else [].

Definition parseIPRules (s : list N) : list rule :=
  concat (parseIPRule <$> parseList s).

Definition ipMatchesRule (ip : list N) (r : rule) : bool :=
  if negb (nonEmpty ip) then false
  else match r with
       | Prefix p => Js.startsWith ip p
       | Exact ipInt _ =>
           match ipv4ToInt ip with
           | Some int => int =? ipInt
           | None => false
           end
       | Cidr ipInt mask _ =>
           match ipv4ToInt ip with
           | Some int => band int mask =? band ipInt mask
           | None => false
           end
       end.



Definition hostMatch (hostList : list (list N)) (idn : identity) : bool :=
  let hn := Js.toLowerCase (hostname idn) in
  existsb (fun h => bool_decide (Js.toLowerCase h = hn)) hostList.

Definition ipMatch (ipRules : list rule) (idn : identity) : bool :=
  existsb (fun ip => existsb (ipMatchesRule ip) ipRules) (ipv4 idn).

Definition computeIsSender (s : settings) (idn : identity) : bool :=
  let hostList := parseList (senderHostnames s) in
  let ipRules := parseIPRules (senderIPsCidrs s) in
  match hostList, ipRules with
  | [], [] => true
  | _, _ => (hostMatch hostList idn || ipMatch ipRules idn)%bool
  end.

End Sender.

(** ** Timer registry and scheduler *)

Module Scheduler.
Import Regex Stamp.
Local Open Scope Z_scope.

Definition MAX_TIMEOUT_MS : Z := 0x7fffffff.

(** What a fire callback closes over. *)
Record closure := Closure {
  c_filePath : list N;
  c_lineIndex : nat;
  c_when : Z;
  c_prio : Z;
  c_context : list N;
  c_offset : nat;
  c_recur : option recurrence
}.

#[global] Instance unit_eq_dec : EqDecision Moment.unit.
Proof. solve_decision. Defined.
#[global] Instance recurrence_eq_dec : EqDecision recurrence.
Proof. solve_decision. Defined.
#[global] Instance closure_eq_dec : EqDecision closure.
Proof. solve_decision. Defined.

(** [this.recentInsert] *)
Record recent := Recent { r_time : Z; r_filePath : list N; r_lineIndex : nat }.

(** What the plugin does to the outside, in order. *)
Inductive event : Type :=
| LogSchedule (id : list N) (ms : Z)
| LogSkipFarFuture (filePath : list N) (lineIndex : nat) (when : Z)
| LogSkipFire
| LogFiring (filePath : list N) (lineIndex : nat)
| LogSkipDismissed (filePath : list N) (lineIndex : nat)
| LogSkipPast (raw : list N)
| LogClearedFile (filePath : list N)
| LogClearedAll
| NoticeReminderSet
| Post (body : list N) (prio : Z).

(** The plugin object and the timeouts armed in the window. *)
Record plugin := Plugin {
  timerHandles : gmap (list N) positive;
  fileTimers : gmap (list N) (gset (list N));
  isSender : bool;
  recentInsert : option recent;
  armed : gmap positive closure;
  nextHandle : positive;
  inflight : list closure;
  trace : list event
}.

Definition initial (sender : bool) : plugin :=
  Plugin ∅ ∅ sender None ∅ 1%positive [] [].

Definition emit (e : event) (st : plugin) : plugin :=
  Plugin (timerHandles st) (fileTimers st) (isSender st) (recentInsert st)
         (armed st) (nextHandle st) (inflight st) (trace st ++ [e]).

Definition setSender (b : bool) (st : plugin) : plugin :=
  Plugin (timerHandles st) (fileTimers st) b (recentInsert st)
         (armed st) (nextHandle st) (inflight st) (trace st).

Definition setRecentInsert (ri : option recent) (st : plugin) : plugin :=
  Plugin (timerHandles st) (fileTimers st) (isSender st) ri
         (armed st) (nextHandle st) (inflight st) (trace st).

(** [`${filePath}#${lineIndex}#${when.unix()}#${offset}`] *)
Definition timerId (filePath : list N) (lineIndex : nat) (when : Z)
    (offset : nat) : list N :=
  filePath ++ [35%N] ++ Js.showN (N.of_nat lineIndex) ++ [35%N]
    ++ Js.showZ (Moment.unix when) ++ [35%N] ++ Js.showN (N.of_nat offset).

Definition closureId (c : closure) : list N :=
  timerId (c_filePath c) (c_lineIndex c) (c_when c) (c_offset c).

(** The tail of [scheduleOneReminder]: the toast of a fresh insert. *)
Definition noteScheduled (now : Z) (filePath : list N) (lineIndex : nat)
    (st : plugin) : plugin :=
  match recentInsert st with
  | Some ri =>
      if (bool_decide (r_filePath ri = filePath)
          && bool_decide (r_lineIndex ri = lineIndex)
          && (now - r_time ri <? 30000))%bool
      then Plugin (timerHandles st) (fileTimers st) (isSender st) None
                  (armed st) (nextHandle st) (inflight st)
                  (trace st ++ [NoticeReminderSet])
      else st
  | None => st
  end.

(** [this.timerHandles.set(id, handle)] and the two lines after it, with
    the [window.setTimeout] that produced [handle]. *)
Definition register (id : list N) (c : closure) (ms : Z) (st : plugin)
    : plugin :=
  let handle := nextHandle st in
  Plugin (<[id := handle]> (timerHandles st))
         (<[c_filePath c :=
              {[id]} ∪ default ∅ (fileTimers st !! c_filePath c)]>
            (fileTimers st))
         (isSender st) (recentInsert st)
         (<[handle := c]> (armed st)) (Pos.succ handle) (inflight st)
         (trace st ++ [LogSchedule id ms]).

Definition scheduleOneReminder (now : Z) (filePath : list N)
    (lineIndex : nat) (when prio : Z) (context : list N) (offset : nat)
    (recur : option recurrence) (st : plugin) : plugin :=
  let id := timerId filePath lineIndex when offset in
  if bool_decide (is_Some (timerHandles st !! id)) then st
  else
    let ms := when - now in
    if ms <=? 0 then st
    else if MAX_TIMEOUT_MS <? ms
    then emit (LogSkipFarFuture filePath lineIndex when) st
    else
      noteScheduled now filePath lineIndex
        (register id
           (Closure filePath lineIndex when prio context offset recur) ms st).

(** [if (h) window.clearTimeout(h); this.timerHandles.delete(id)] *)
Definition cancelId (id : list N) (st : plugin) : plugin :=
  Plugin (delete id (timerHandles st)) (fileTimers st) (isSender st)
         (recentInsert st)
         (match timerHandles st !! id with
          | Some h => delete h (armed st)
          | None => armed st
          end)
         (nextHandle st) (inflight st) (trace st).

Definition setFileTimers (ft : gmap (list N) (gset (list N))) (st : plugin)
    : plugin :=
  Plugin (timerHandles st) ft (isSender st) (recentInsert st)
         (armed st) (nextHandle st) (inflight st) (trace st).

Definition clearTimersForFile (filePath : list N) (st : plugin) : plugin :=
  match fileTimers st !! filePath with
  | None => st
  | Some ids =>
      emit (LogClearedFile filePath)
        (setFileTimers (delete filePath (fileTimers st))
           (set_fold cancelId st ids))
  end.

(** [ids] without the cancelled ones; the entry goes when nothing is left. *)
Definition shrinkEntry (filePath : list N) (ids : gset (list N))
    (ft : gmap (list N) (gset (list N))) : gmap (list N) (gset (list N)) :=
  if bool_decide (size ids = 0%nat) then delete filePath ft
  else <[filePath := ids]> ft.

Definition linePrefix (filePath : list N) (lineIndex : nat) : list N :=
  filePath ++ [35%N] ++ Js.showN (N.of_nat lineIndex) ++ [35%N].

Definition clearTimersForLine (filePath : list N) (lineIndex : nat)
    (st : plugin) : plugin :=
  match fileTimers st !! filePath with
  | None => st
  | Some ids =>
      let hit :=
        filter (fun id => Js.startsWith id (linePrefix filePath lineIndex)
                          = true) ids in
      setFileTimers (shrinkEntry filePath (ids ∖ hit) (fileTimers st))
        (set_fold cancelId st hit)
  end.

Definition clearAllTimers (st : plugin) : plugin :=
  Plugin ∅ ∅ (isSender st) (recentInsert st)
         (map_fold (fun _ h a => delete h a) (armed st) (timerHandles st))
         (nextHandle st) (inflight st) (trace st ++ [LogClearedAll]).

(** [sendNtfy(context, prio)]: the request that leaves the process. *)
Definition sendNtfy (text : list N) (prio : Z) (st : plugin) : plugin :=
  emit (Post (Js.trim text) prio) st.

(** The timeout with handle [h] expires: the callback runs up to its
    [await]. *)
Definition fireBegin (h : positive) (st : plugin) : plugin :=
  match armed st !! h with
  | None => st
  | Some c =>
      let st1 :=
        Plugin (timerHandles st) (fileTimers st) (isSender st)
               (recentInsert st) (delete h (armed st)) (nextHandle st)
               (c :: inflight st) (trace st) in
      if isSender st1
      then sendNtfy (c_context c) (c_prio c)
             (emit (LogFiring (c_filePath c) (c_lineIndex c)) st1)
      else emit LogSkipFire st1
  end.

(** [let next = when.clone().add(e, u);
     while (!next.isAfter(now)) next.add(e, u);] with the number of
    iterations bounded by [fuel]; [None] when the bound is reached. *)
Fixpoint chainLoop (fuel : nat) (next : Z) (r : recurrence) (now : Z)
    : option Z :=
  if Moment.isAfter next now then Some next
  else match fuel with
       | O => None
       | S f => chainLoop f (Moment.add next (every r) (unit r)) r now
       end.

Definition chainNext (when : Z) (r : recurrence) (now : Z) : option Z :=
  chainLoop (Z.to_nat ((now - when) / (every r * Moment.unitMs (unit r))))
    (Moment.add when (every r) (unit r)) r now.

(** The first half of the [finally] block: the fired id leaves both
    indices. *)
Definition afterRemoval (c : closure) (st : plugin) : plugin :=
  Plugin (delete (closureId c) (timerHandles st))
         (match fileTimers st !! c_filePath c with
          | Some set =>
              shrinkEntry (c_filePath c) (set ∖ {[closureId c]}) (fileTimers st)
          | None => fileTimers st
          end)
         (isSender st) (recentInsert st) (armed st) (nextHandle st)
         (inflight st) (trace st).

(** The [finally] block of the callback. *)
Definition fireFinally (now : Z) (c : closure) (st : plugin) : plugin :=
  let st1 := afterRemoval c st in
  match c_recur c with
  | Some r =>
      if isSender st1 then
        match chainNext (c_when c) r now with
        | Some next =>
            scheduleOneReminder now (c_filePath c) (c_lineIndex c) next
              (c_prio c) (c_context c) (c_offset c) (Some r) st1
        | None => st1
        end
      else st1
  | None => st1
  end.

Fixpoint removeFirst (c : closure) (l : list closure) : list closure :=
  match l with
  | [] => []
  | x :: l' => if decide (x = c) then l' else x :: removeFirst c l'
  end.

(** The callback resumes after its [await] and runs to its end. *)
Definition fireEnd (now : Z) (c : closure) (st : plugin) : plugin :=
  fireFinally now c
    (Plugin (timerHandles st) (fileTimers st) (isSender st) (recentInsert st)
            (armed st) (nextHandle st) (removeFirst c (inflight st))
            (trace st)).

(** A timeout expires and its callback runs without interleaving. *)
Definition fire (now : Z) (h : positive) (st : plugin) : plugin :=
  match armed st !! h with
  | None => st
  | Some c => fireEnd now c (fireBegin h st)
  end.

(** [/^\s*[-*]\s*\[([^\]])\]/] *)
Definition statusRe : re :=
  seqs [ Bol; spaces; Cls (fun c => (N.eqb c 45 || N.eqb c 42)%bool); spaces;
         str "["; Grp 1 (Cls (fun c => negb (N.eqb c 93))); str "]" ].

Definition getTaskStatusChar (line : list N) : option (list N) :=
  match exec statusRe line with
  | Some m => group 1 (groups m)
  | None => None
  end.

Definition shouldDismissStatus (statusChar dismissCharsSetting : list N)
    : bool :=
  if negb (Sender.nonEmpty dismissCharsSetting) then false
  else
    existsb (fun c => bool_decide ([c] = Js.toLowerCase statusChar))
      (Js.toLowerCase dismissCharsSetting).

(** What the inner loop decides for one occurrence: schedule it at an
    instant, or [continue], silently or after logging a past one-shot. *)
Inductive due : Type := Due (w : Z) | Skip | SkipPast.

Definition firstWhen (now : Z) (p : occurrence) : due :=
  if negb (Moment.isValid (when p)) then Skip
  else match recur p with
       | Some r =>
           match advanceToFuture (when p) r now with
           | Some w => if Moment.isValid w then Due w else Skip
           | None => Skip
           end
       | None =>
           if Moment.isAfter (when p) now then Due (when p) else SkipPast
       end.

(** The body of the inner loop, for one occurrence of line [i]. *)
Definition scheduleMatch (now : Z) (filePath line : list N) (i : nat)
    (prio : Z) (editedLineIndex : option nat) (acc : plugin * bool)
    (p : occurrence) : plugin * bool :=
  let '(st, flag) := acc in
  match firstWhen now p with
  | Due w =>
      (scheduleOneReminder now filePath i w prio
         (if Sender.nonEmpty (context p) then context p else line)
         (offset p) (recur p) st,
       if (bool_decide (editedLineIndex = Some i) && Moment.isAfter w now)%bool
       then true else flag)
  | Skip => (st, flag)
  | SkipPast => (emit (LogSkipPast (raw p)) st, flag)
  end.

(** The body of the outer loop, for line [i]. *)
Definition scheduleLine (now : Z) (dismiss filePath : list N)
    (editedLineIndex : option nat) (acc : plugin * bool)
    (il : nat * list N) : plugin * bool :=
  let '(i, line) := il in
  let '(st, flag) := acc in
  let dismissed :=
    match getTaskStatusChar line with
    | Some status => shouldDismissStatus status dismiss
    | None => false
    end in
  if dismissed then (emit (LogSkipDismissed filePath i) st, flag)
  else
    match parseClockEmojiAll line with
    | [] => (st, flag)
    | matches =>
        fold_left
          (scheduleMatch now filePath line i (detectPriority line)
             editedLineIndex)
          matches (clearTimersForLine filePath i st, flag)
    end.

Definition scheduleFromFileNoClear (now : Z) (dismiss filePath text : list N)
    (editedLineIndex : option nat) (st : plugin) : plugin :=
  if negb (isSender st) then st
  else
    let '(st', flag) :=
      fold_left (scheduleLine now dismiss filePath editedLineIndex)
        (imap pair (Js.splitLines text)) (st, false) in
    match editedLineIndex with
    | Some _ =>
        if flag then
          match recentInsert st' with
          | None => emit NoticeReminderSet st'
          | Some _ => st'
          end
        else st'
    | None => st'
    end.

Definition scheduleFileFresh (now : Z) (dismiss filePath text : list N)
    (editedLineIndex : option nat) (st : plugin) : plugin :=
  if negb (isSender st) then clearTimersForFile filePath st
  else scheduleFromFileNoClear now dismiss filePath text editedLineIndex
         (clearTimersForFile filePath st).

(** One turn of the event loop that touches the registry. *)
Inductive step : plugin → plugin → Prop :=
| StepSchedule now filePath lineIndex when prio context offset recur st :
    step st (scheduleOneReminder now filePath lineIndex when prio context
               offset recur st)
| StepClearLine filePath lineIndex st :
    step st (clearTimersForLine filePath lineIndex st)
| StepClearFile filePath st :
    step st (clearTimersForFile filePath st)
| StepClearAll st :
    step st (clearAllTimers st)
| StepFireBegin h st :
    step st (fireBegin h st)
| StepFireEnd now c st :
    c ∈ inflight st → step st (fireEnd now c st)
| StepRescanBody now dismiss filePath text hint st :
    step st (scheduleFromFileNoClear now dismiss filePath text hint st)
| StepRescan now dismiss filePath text hint st :
    step st (scheduleFileFresh now dismiss filePath text hint st)
| StepRole b st :
    step st (setSender b st)
| StepRecentInsert ri st :
    step st (setRecentInsert ri st).

Definition reachable (st : plugin) : Prop :=
  ∃ sender, rtc step (initial sender) st.

(** Every id filed under a path is registered and was built from that
    path. *)
Definition keyed (st : plugin) : Prop :=
  ∀ p ids id, fileTimers st !! p = Some ids → id ∈ ids →
    is_Some (timerHandles st !! id) ∧ ∃ l w o, id = timerId p l w o.

(** Every registered id is filed under some path. *)
Definition covered (st : plugin) : Prop :=
  ∀ id, is_Some (timerHandles st !! id) →
    ∃ p ids, fileTimers st !! p = Some ids ∧ id ∈ ids.

(** Handles in use were handed out by the window before [nextHandle]. *)
Definition allocated (st : plugin) : Prop :=
  (∀ id h, timerHandles st !! id = Some h → (h < nextHandle st)%positive)
  ∧ (∀ h c, armed st !! h = Some c → (h < nextHandle st)%positive).

Definition wellFormed (st : plugin) : Prop :=
  keyed st ∧ covered st ∧ allocated st.


(** The two indices name the same ids. *)
Definition consistent (st : plugin) : Prop :=
  ∀ id, (∃ p ids, fileTimers st !! p = Some ids ∧ id ∈ ids)
        ↔ is_Some (timerHandles st !! id).

End Scheduler.

(** ** Concrete data for the examples *)

Module Examples.
Import Regex Stamp Sender Scheduler.
Local Open Scope Z_scope.

Definition exPath : list N := Js.lit "n.md".
Definition exDismiss : list N := Js.lit "x/-".

(** Two lines, a one-shot stamp on line 0 and a daily one on line 1. *)
Definition exText : list N :=
  Js.lit "a " ++ [clock] ++ Js.lit " 2025-09-01 9:00" ++ [10%N]
    ++ Js.lit "b " ++ [clock] ++ Js.lit " 2025-09-01 10:00 every 1 day".

(** 2025-09-01 08:00 *)
Definition exNow : Z := Moment.epochMs 2025 9 1 8 0.

(** The plugin after a first full scan of the document. *)
Definition exScanned : plugin :=
  scheduleFileFresh exNow exDismiss exPath exText None (initial true).

(** The id of the timer of line 1. *)
Definition exIdLine1 : list N := Js.lit "n.md#1#1756720800#2".

Definition exDaily : recurrence := Recurrence 1 Moment.Days.

(** What the timer of line 1 closes over. *)
Definition exClosure : closure :=
  Closure exPath 1 (Moment.epochMs 2025 9 1 10 0) 3 (Js.lit "b") 2
    (Some exDaily).


(** A line with two stamps, the first with a recurrence suffix. *)
Definition exLine : list N :=
  Js.lit "a " ++ [clock] ++ Js.lit " 2025-09-01 9:00 every 0 days b "
    ++ [clock] ++ Js.lit " 2025-09-02 10:00 c".

Definition exOccurrence : occurrence :=
  Occurrence (Moment.epochMs 2025 9 1 9 0)
    (Js.lit "a b " ++ [clock] ++ Js.lit " 2025-09-02 10:00 c")
    ([clock] ++ Js.lit " 2025-09-01 9:00 ") 2 (Some exDaily).

End Examples.

(** ** The rest of the plugin: vault scans, role changes, the debounce of
    rescans and the helpers of the date picker *)

Module Lifecycle.
Import Regex Stamp Sender Scheduler.
Local Open Scope Z_scope.

(** How many times the toast "Reminder set" was shown. *)
Definition toasts (tr : list event) : nat :=
  length (List.filter
            (fun e => match e with NoticeReminderSet => true | _ => false end)
            tr).


(** The toast that ends [scanVault]. *)
Inductive vaultNotice : Type := NoticeSilent | NoticeScanned.

(** [scanVault()]: each file comes with the clock reading of the turn in
    which its text arrives. *)
Definition scanVault (dismiss : list N) (files : list (Z * list N * list N))
    (st : plugin) : plugin * vaultNotice :=
  if negb (isSender st) then (clearAllTimers st, NoticeSilent)
  else
    (fold_left
       (fun s f => scheduleFileFresh f.1.1 dismiss f.1.2 f.2 None s) files st,
     NoticeScanned).

(** [recomputeSenderRole()] *)
Definition recomputeSenderRole (s : settings) (idn : identity)
    (files : list (Z * list N * list N)) (st : plugin) : plugin :=
  let prev := isSender st in
  let st1 := setSender (computeIsSender s idn) st in
  if (prev && negb (isSender st1))%bool then clearAllTimers st1
  else if (negb prev && isSender st1)%bool
  then (scanVault (dismissStatusChars s) files st1).1
  else st1.

(** [onunload()], as far as the reminder timers go. *)
Definition onunload (st : plugin) : plugin :=
  Plugin ∅ ∅ (isSender st) (recentInsert st)
         (map_fold (fun _ h a => delete h a) (armed st) (timerHandles st))
         (nextHandle st) (inflight st) (trace st).

(** The verdict of the check that [noteRecentInsert] arms: does the line
    hold a reminder that is still to come? *)
Definition lineActive (now : Z) (line : list N) : bool :=
  existsb
    (fun p =>
       if negb (Moment.isValid (when p)) then false
       else match recur p with
            | Some r =>
                match advanceToFuture (when p) r now with
                | Some w => (Moment.isValid w && Moment.isAfter w now)%bool
                | None => false
                end
            | None => Moment.isAfter (when p) now
            end)
    (parseClockEmojiAll line).

(** One turn of the event loop in which a fire callback is not interleaved
    with other turns. *)
Inductive turn : plugin → plugin → Prop :=
| TurnSchedule now filePath lineIndex when prio context offset recur st :
    turn st (scheduleOneReminder now filePath lineIndex when prio context
               offset recur st)
| TurnClearLine filePath lineIndex st :
    turn st (clearTimersForLine filePath lineIndex st)
| TurnClearFile filePath st :
    turn st (clearTimersForFile filePath st)
| TurnClearAll st :
    turn st (clearAllTimers st)
| TurnFire now h st :
    turn st (fire now h st)
| TurnRescanBody now dismiss filePath text hint st :
    turn st (scheduleFromFileNoClear now dismiss filePath text hint st)
| TurnRescan now dismiss filePath text hint st :
    turn st (scheduleFileFresh now dismiss filePath text hint st)
| TurnScanVault dismiss files st :
    turn st (scanVault dismiss files st).1
| TurnRecompute s idn files st :
    turn st (recomputeSenderRole s idn files st)
| TurnRole b st :
    turn st (setSender b st)
| TurnRecentInsert ri st :
    turn st (setRecentInsert ri st).

Definition attainable (st : plugin) : Prop :=
  ∃ sender, rtc turn (initial sender) st.

(** The registry and the window agree: a registered id has its timeout
    armed under its handle, and every armed timeout is the one registered
    for its id. *)
Definition synced (st : plugin) : Prop :=
  (∀ id h, timerHandles st !! id = Some h →
     ∃ c, armed st !! h = Some c ∧ closureId c = id)
  ∧ (∀ h c, armed st !! h = Some c → timerHandles st !! closureId c = Some h).


(** The invariant of the turns: the two indices are well formed and agree
    with the window. *)
Definition inStep (st : plugin) : Prop := wellFormed st ∧ synced st.

(** Two states have the same timers of the document [p]: the same set of
    ids is filed under [p], and the same ids of [p] are registered. *)
Definition sameTimers (p : list N) (st1 st2 : plugin) : Prop :=
  fileTimers st1 !! p = fileTimers st2 !! p
  ∧ ∀ l w o, is_Some (timerHandles st1 !! timerId p l w o)
             ↔ is_Some (timerHandles st2 !! timerId p l w o).

End Lifecycle.

Module Debounce.

(** An entry of [this.pendingRescans]. *)
Record pending := Pending { p_handle : positive; p_lineIndex : option nat }.

(** [this.pendingRescans] and the debounce timeouts armed in the window. *)
Record rescans := Rescans {
  pendingRescans : gmap (list N) pending;
  armedRescans : gmap positive (list N * option nat);
  nextRescan : positive
}.

Definition noRescans : rescans := Rescans ∅ ∅ 1%positive.

(** [queueReschedule(file)]; [editedLineIndex] is the cursor line when the
    file is the active one. *)
Definition queueReschedule (isSender : bool) (path : list N)
    (editedLineIndex : option nat) (d : rescans) : rescans :=
  if negb isSender then d
  else
    let armed1 :=
      match pendingRescans d !! path with
      | Some prev => delete (p_handle prev) (armedRescans d)
      | None => armedRescans d
      end in
    let handle := nextRescan d in
    Rescans (<[path := Pending handle editedLineIndex]> (pendingRescans d))
            (<[handle := (path, editedLineIndex)]> armed1)
            (Pos.succ handle).

(** The debounce timeout [h] expires: the entry is forgotten and the rescan
    to run is returned. *)
Definition rescanDue (h : positive) (d : rescans)
    : option (list N * option nat) * rescans :=
  match armedRescans d !! h with
  | None => (None, d)
  | Some (path, hint) =>
      (Some (path, hint),
       Rescans (delete path (pendingRescans d)) (delete h (armedRescans d))
               (nextRescan d))
  end.

Inductive op : Type :=
| Edit (isSender : bool) (path : list N) (editedLineIndex : option nat)
| Expire (h : positive).

Definition applyOp (d : rescans) (o : op) : rescans :=
  match o with
  | Edit b path hint => queueReschedule b path hint d
  | Expire h => (rescanDue h d).2
  end.

(** Each armed debounce timeout is the pending entry of its document, and
    the other way round. *)
Definition paired (d : rescans) : Prop :=
  ∀ h path hint,
    armedRescans d !! h = Some (path, hint)
    ↔ pendingRescans d !! path = Some (Pending h hint).

End Debounce.

Module Ui.
Import Regex.
Local Open Scope Z_scope.

(** [digitSubsequence(hay, needle)]: the index [j] of the source is the
    part of [needle] that is still to find. *)
Fixpoint digitSubsequence (hay needle : list N) : bool :=
  match needle with
  | [] => true
  | b :: needle' =>
      match hay with
      | [] => false
      | a :: hay' =>
          if N.eqb a b then digitSubsequence hay' needle'
          else digitSubsequence hay' needle
      end
  end.

Definition dayMs : Z := 86400000.

(** [t.second(0).millisecond(0)] *)
Definition startOfMinute (t : Z) : Z := t - t mod 60000.

(** [t.isoWeekday()]: 1 is Monday, 7 is Sunday (1970-01-01 was a
    Thursday). *)
Definition isoWeekday (t : Z) : Z := (t / dayMs + 3) mod 7 + 1.

(** [nextWeekday(base, isoWd, forceNext)] *)
Definition nextWeekday (base isoWd : Z) (forceNext : bool) : Z :=
  let dt := startOfMinute base in
  let todayIso := isoWeekday base in
  let delta := isoWd - todayIso in
  let delta :=
    if ((delta <? 0) || forceNext || (delta =? 0))%bool then delta + 7
    else delta in
  Moment.add dt delta Moment.Days.

(** [todayAt(base, hh, mm)] *)
Definition todayAt (base hh mm : Z) : Z :=
  let dt := base - base mod dayMs + hh * 3600000 + mm * 60000 in
  if dt <? base then Moment.add dt 1 Moment.Days else dt.

(** The expression of [onTrigger]: an at sign, a captured run of units
    that are no at sign, and the end of the text. *)
Definition atRe : re :=
  seqs [Regex.unit 64; Grp 1 (Many (fun c => negb (N.eqb c 64))); Eol].

(** [formatDateInsert(m)], on the rendering [d] of the date of [m] by
    [m.format("YYYY-MM-DD")]. *)
Definition formatDateInsert (d : list N) : list N :=
  [Stamp.clock; 32%N] ++ d ++ [32%N].

(** The text that [insertAndClose] and [selectSuggestion] put into the
    line: the stamp of the date and a placeholder for the time. *)
Definition insertText (needsSpace : bool) (d : list N) : list N :=
  (if needsSpace then [32%N] else []) ++ formatDateInsert d
    ++ Js.lit "hh:mm AM".

(** The shape of a rendered date: four digits, two digits and two digits
    with dashes between them. *)
Definition dateShaped (d : list N) : Prop :=
  ∃ a b c e f g h i,
    d = [a; b; c; e; 45%N; f; g; 45%N; h; i]
    ∧ Forall (fun x => Js.isDigit x = true) [a; b; c; e; f; g; h; i].

(** [onTrigger(cursor, editor)] on the text of the cursor's line and the
    cursor's column: the start and the end of the span to replace, and the
    query. *)
Definition onTrigger (line : list N) (ch : nat)
    : option (nat * nat * list N) :=
  let upto := take ch line in
  match exec atRe upto with
  | None => None
  | Some m =>
      Some ((ch - (mend m - index m))%nat, ch,
            default [] (group 1 (groups m)))
  end.

End Ui.

(** The unit tokens that [normalizeUnit] maps to each unit. *)
Definition unitTokens (u : Moment.unit) : list (list N) :=
  match u with
  | Moment.Minutes =>
      Js.lit <$> ["m"; "min"; "mins"; "minute"; "minutes"]%string
  | Moment.Hours => Js.lit <$> ["h"; "hour"; "hours"; "hr"; "hrs"]%string
  | Moment.Days => Js.lit <$> ["d"; "day"; "days"]%string
  | Moment.Weeks => Js.lit <$> ["w"; "week"; "weeks"]%string
  end.

(** The text [s] is a run of decimal digits that spells the octet [v]. *)
Definition octet (s : list N) (v : Z) : Prop :=
  s ≠ [] ∧ Forall (fun c => Js.isDigit c = true) s
  ∧ Js.digitsValue s = v ∧ (v ≤ 255)%Z.

(** The text [ip] is a dotted quad with the value [n]. *)
Definition dottedQuad (ip : list N) (n : Z) : Prop :=
  ∃ s0 s1 s2 s3 v0 v1 v2 v3,
    ip = s0 ++ [46%N] ++ s1 ++ [46%N] ++ s2 ++ [46%N] ++ s3
    ∧ octet s0 v0 ∧ octet s1 v1 ∧ octet s2 v2 ∧ octet s3 v3
    ∧ n = (v0 * 2 ^ 24 + v1 * 2 ^ 16 + v2 * 2 ^ 8 + v3)%Z.

(** A task line: white space, a list marker, white space, and a checkbox
    holding the status unit [c]. *)
Definition taskLine (line : list N) (c : N) : Prop :=
  ∃ ws1 b ws2 more,
    line = ws1 ++ [b] ++ ws2 ++ [91%N; c; 93%N] ++ more
    ∧ Forall (fun x => Js.isSpace x = true) ws1
    ∧ Forall (fun x => Js.isSpace x = true) ws2
    ∧ (b = 45%N ∨ b = 42%N) ∧ c ≠ 93%N.

(** * Properties *)

Import Js Regex Stamp Sender Scheduler.

(** ** Registration *)

Section Registration.
Local Open Scope Z_scope.

Lemma schedule_present now filePath lineIndex when prio context offset recur st :
  is_Some (timerHandles st !! timerId filePath lineIndex when offset) →
  scheduleOneReminder now filePath lineIndex when prio context offset recur st
  = st.
Proof.
  intros Hin. unfold scheduleOneReminder.
  by rewrite bool_decide_eq_true_2.
Qed.

Lemma timerId_unix filePath lineIndex when when' offset :
  Moment.unix when' = Moment.unix when →
  timerId filePath lineIndex when' offset = timerId filePath lineIndex when offset.
Proof. unfold timerId. by intros ->. Qed.

Lemma noteScheduled_registry now filePath lineIndex st :
  timerHandles (noteScheduled now filePath lineIndex st) = timerHandles st
  ∧ fileTimers (noteScheduled now filePath lineIndex st) = fileTimers st
  ∧ armed (noteScheduled now filePath lineIndex st) = armed st
  ∧ nextHandle (noteScheduled now filePath lineIndex st) = nextHandle st
  ∧ isSender (noteScheduled now filePath lineIndex st) = isSender st
  ∧ inflight (noteScheduled now filePath lineIndex st) = inflight st.
Proof.
  unfold noteScheduled. destruct (recentInsert st) as [ri|]; [|done].
  by case_match.
Qed.

Lemma schedule_fresh now filePath lineIndex when prio context offset recur st :
  timerHandles st !! timerId filePath lineIndex when offset = None →
  0 < when - now → when - now ≤ MAX_TIMEOUT_MS →
  scheduleOneReminder now filePath lineIndex when prio context offset recur st
  = noteScheduled now filePath lineIndex
      (register (timerId filePath lineIndex when offset)
         (Closure filePath lineIndex when prio context offset recur)
         (when - now) st).
Proof.
  intros Hnone Hpos Hmax. unfold scheduleOneReminder.
  rewrite bool_decide_eq_false_2; [|rewrite Hnone; by inversion 1].
  destruct (Z.leb_spec (when - now) 0); [lia|].
  destruct (Z.ltb_spec MAX_TIMEOUT_MS (when - now)); [lia|done].
Qed.

(** C7. Scheduling an id that is already among the live timers returns the
    plugin unchanged: no timeout is armed, no handle is allocated and
    neither index changes.  Hence a second registration under the same
    composite key (path, line, epoch second, offset), whatever its other
    arguments and whatever the clock, leaves the one timer of the first. *)
Theorem schedule_twice_noop
    now now' filePath lineIndex when when' prio prio' context context'
    offset recur recur' st :
  let id := timerId filePath lineIndex when offset in
  let st1 := scheduleOneReminder now filePath lineIndex when prio context
               offset recur st in
  (is_Some (timerHandles st !! id) → st1 = st)
  ∧ (Moment.unix when' = Moment.unix when →
     is_Some (timerHandles st1 !! id) →
     scheduleOneReminder now' filePath lineIndex when' prio' context' offset
       recur' st1 = st1).
Proof.
  intros id st1. split.
  - apply schedule_present.
  - intros Hu Hin. apply schedule_present.
    by rewrite (timerId_unix _ _ _ _ _ Hu).
Qed.

(** C9. For an id that is not registered yet, registration is refused in
    exactly two cases.  A delay of at most zero returns the plugin
    unchanged; a delay above [MAX_TIMEOUT_MS] = 0x7fffffff returns it
    unchanged but for one log entry, and nothing is raised.  In every other
    case the id is registered under a fresh handle in both indices and one
    timeout is armed. *)
Theorem schedule_rejected_iff
    now filePath lineIndex when prio context offset recur st :
  let id := timerId filePath lineIndex when offset in
  let ms := when - now in
  let st' := scheduleOneReminder now filePath lineIndex when prio context
               offset recur st in
  timerHandles st !! id = None →
  MAX_TIMEOUT_MS = 2147483647
  ∧ (ms ≤ 0 → st' = st)
  ∧ (MAX_TIMEOUT_MS < ms →
     st' = emit (LogSkipFarFuture filePath lineIndex when) st)
  ∧ (0 < ms ≤ MAX_TIMEOUT_MS →
     timerHandles st' !! id = Some (nextHandle st)
     ∧ (∃ ids, fileTimers st' !! filePath = Some ids ∧ id ∈ ids)
     ∧ armed st' !! nextHandle st
       = Some (Closure filePath lineIndex when prio context offset recur)
     ∧ nextHandle st' = Pos.succ (nextHandle st)).
Proof.
  intros id ms st' Hnone. subst id ms st'. split; [done|].
  split; [|split].
  - intros Hms. unfold scheduleOneReminder.
    rewrite bool_decide_eq_false_2; [|rewrite Hnone; by inversion 1].
    by destruct (Z.leb_spec (when - now) 0); [|lia].
  - intros Hms. unfold scheduleOneReminder.
    rewrite bool_decide_eq_false_2; [|rewrite Hnone; by inversion 1].
    assert (0 < MAX_TIMEOUT_MS) by done.
    destruct (Z.leb_spec (when - now) 0); [lia|].
    by destruct (Z.ltb_spec MAX_TIMEOUT_MS (when - now)); [|lia].
  - intros [Hpos Hmax]. rewrite schedule_fresh by done.
    match goal with
    | |- context [noteScheduled ?a ?b ?c ?d] =>
        destruct (noteScheduled_registry a b c d) as (-> & -> & -> & -> & _)
    end.
    cbn. rewrite !lookup_insert_eq. split_and!; try done.
    eexists. split; [done|]. set_solver.
Qed.

End Registration.

(** ** Recurrence arithmetic *)

Section Recurrence.
Local Open Scope Z_scope.









End Recurrence.

(** ** The fire handler *)

Section Fire.
Local Open Scope Z_scope.

Lemma removeFirst_head c l : removeFirst c (c :: l) = l.
Proof. cbn. by rewrite decide_True. Qed.





End Fire.

(** ** Timer ids *)

Section Ids.

Lemma digitsRev_no_hash fuel n : 35%N ∉ digitsRev fuel n.
Proof.
  revert n. induction fuel as [|f IH]; intros n; cbn [digitsRev]; [set_solver|].
  intros [Heq|Hin]%elem_of_cons.
  - pose proof (N.le_add_r 48 (n mod 10)). lia.
  - destruct (N.eqb (n / 10) 0); [set_solver|]. by apply IH in Hin.
Qed.

Lemma showN_no_hash n : 35%N ∉ showN n.
Proof.
  unfold showN. rewrite list_elem_of_In, <-in_rev, <-list_elem_of_In.
  apply digitsRev_no_hash.
Qed.

Lemma showZ_no_hash z : 35%N ∉ showZ z.
Proof.
  destruct z; cbn [showZ]; try apply showN_no_hash.
  intros [?|?]%elem_of_cons; [done|]. by eapply showN_no_hash.
Qed.

Lemma split_hash (a b x y : list N) :
  a ++ 35%N :: x = b ++ 35%N :: y → 35%N ∉ x → 35%N ∉ y → a = b ∧ x = y.
Proof.
  revert b. induction a as [|c a IH]; intros [|c' b] Heq Hx Hy; simplify_eq/=.
  - done.
  - exfalso. apply Hx. rewrite elem_of_app, elem_of_cons. auto.
  - exfalso. apply Hy. rewrite elem_of_app, elem_of_cons. auto.
  - destruct (IH b) as [Ha Hb]; [done..|]. by subst.
Qed.

(** The path is determined by the id although a path may contain [#]. *)
Lemma timerId_path_inj p l w o p' l' w' o' :
  timerId p l w o = timerId p' l' w' o' → p = p'.
Proof.
  unfold timerId. intros Heq.
  assert ((p ++ [35%N] ++ showN (N.of_nat l) ++ [35%N]
             ++ showZ (Moment.unix w)) ++ 35%N :: showN (N.of_nat o)
          = (p' ++ [35%N] ++ showN (N.of_nat l') ++ [35%N]
               ++ showZ (Moment.unix w')) ++ 35%N :: showN (N.of_nat o'))
    as H1 by (by rewrite <-!app_assoc).
  apply split_hash in H1 as [H1 _]; [|apply showN_no_hash..].
  assert ((p ++ [35%N] ++ showN (N.of_nat l)) ++ 35%N :: showZ (Moment.unix w)
          = (p' ++ [35%N] ++ showN (N.of_nat l'))
              ++ 35%N :: showZ (Moment.unix w'))
    as H2 by (by rewrite <-!app_assoc).
  apply split_hash in H2 as [H2 _]; [|apply showZ_no_hash..].
  by apply split_hash in H2 as [H2 _]; [|apply showN_no_hash..].
Qed.

End Ids.

(** ** Registry invariants *)

Section Registry.

(** Cancelling a set of ids: what the loop leaves behind. *)
Lemma cancel_fold (X : gset (list N)) (st : plugin) :
  let st' := set_fold cancelId st X in
  (∀ id, timerHandles st' !! id
         = if decide (id ∈ X) then None else timerHandles st !! id)
  ∧ fileTimers st' = fileTimers st
  ∧ isSender st' = isSender st
  ∧ recentInsert st' = recentInsert st
  ∧ nextHandle st' = nextHandle st
  ∧ inflight st' = inflight st
  ∧ trace st' = trace st
  ∧ (∀ h c, armed st' !! h = Some c → armed st !! h = Some c)
  ∧ (∀ id h, id ∈ X → timerHandles st !! id = Some h → armed st' !! h = None).
Proof.
  cbv zeta. revert X.
  apply (set_fold_ind_L
    (fun (r : plugin) (Y : gset (list N)) =>
       (∀ id, timerHandles r !! id
              = if decide (id ∈ Y) then None else timerHandles st !! id)
       ∧ fileTimers r = fileTimers st
       ∧ isSender r = isSender st
       ∧ recentInsert r = recentInsert st
       ∧ nextHandle r = nextHandle st
       ∧ inflight r = inflight st
       ∧ trace r = trace st
       ∧ (∀ h c, armed r !! h = Some c → armed st !! h = Some c)
       ∧ (∀ id h, id ∈ Y → timerHandles st !! id = Some h
                  → armed r !! h = None))).
  - by split_and!.
  - intros x Y r Hx (HT & HF & HS & HR & HN & HI & HL & HA & HC).
    unfold cancelId. cbn. split_and!; try done.
    + intros id. destruct (decide (id = x)) as [->|Hne].
      * rewrite lookup_delete_eq. by rewrite decide_True by set_solver.
      * rewrite lookup_delete_ne by done. rewrite HT.
        destruct (decide (id ∈ Y)).
        -- rewrite decide_True; [done|]. apply elem_of_union. by right.
        -- rewrite decide_False; [done|].
           rewrite elem_of_union, elem_of_singleton. by intros [?|?].
    + intros h c. destruct (timerHandles r !! x) as [hx|]; [|by apply HA].
      intros [_ H]%lookup_delete_Some. by apply HA.
    + intros id h Hin Hh. specialize (HT x).
      rewrite decide_False in HT by done.
      apply elem_of_union in Hin as [->%elem_of_singleton|Hin].
      * rewrite HT, Hh. apply lookup_delete_eq.
      * specialize (HC id h Hin Hh).
        destruct (timerHandles r !! x); [|done].
        rewrite lookup_delete_None. by right.
Qed.

(** The invariants speak of four fields only. *)
Lemma wellFormed_same st st' :
  timerHandles st' = timerHandles st → fileTimers st' = fileTimers st →
  armed st' = armed st → nextHandle st' = nextHandle st →
  wellFormed st → wellFormed st'.
Proof.
  intros HT HF HA HN (HK & HC & HL1 & HL2).
  unfold wellFormed, keyed, covered, allocated.
  rewrite HT, HF, HA, HN. done.
Qed.

Lemma wellFormed_initial b : wellFormed (initial b).
Proof.
  unfold wellFormed, keyed, covered, allocated, initial. cbn.
  split_and!; intros *; rewrite lookup_empty; first [done | by intros [? ?]].
Qed.

Lemma wellFormed_emit e st : wellFormed st → wellFormed (emit e st).
Proof. by apply wellFormed_same. Qed.

Lemma wellFormed_noteScheduled now p l st :
  wellFormed st → wellFormed (noteScheduled now p l st).
Proof.
  destruct (noteScheduled_registry now p l st) as (? & ? & ? & ? & _).
  by apply wellFormed_same.
Qed.

Lemma wellFormed_register p l w prio ctx o r ms st :
  timerHandles st !! timerId p l w o = None →
  wellFormed st →
  wellFormed (register (timerId p l w o) (Closure p l w prio ctx o r) ms st).
Proof.
  intros Hnone (HK & HC & HL1 & HL2).
  unfold wellFormed, keyed, covered, allocated, register. cbn.
  split_and!.
  - intros q ids id Hq Hin. destruct (decide (q = p)) as [->|Hne].
    + rewrite lookup_insert_eq in Hq. simplify_eq.
      apply elem_of_union in Hin as [->%elem_of_singleton|Hin].
      * rewrite lookup_insert_eq. eauto.
      * destruct (fileTimers st !! p) as [ids|] eqn:Hp; cbn in Hin;
          [|set_solver].
        destruct (HK p ids id Hp Hin) as [Hs Hform]. split; [|done].
        rewrite lookup_insert_ne; [done|]. intros <-.
        rewrite Hnone in Hs. by destruct Hs.
    + rewrite lookup_insert_ne in Hq by done.
      destruct (HK q ids id Hq Hin) as [Hs Hform]. split; [|done].
      rewrite lookup_insert_ne; [done|]. intros <-.
      rewrite Hnone in Hs. by destruct Hs.
  - intros id Hs. destruct (decide (id = timerId p l w o)) as [->|Hne].
    + eexists p, _. rewrite lookup_insert_eq. split; [done|]. set_solver.
    + rewrite lookup_insert_ne in Hs by done.
      destruct (HC id Hs) as (q & ids & Hq & Hin).
      destruct (decide (q = p)) as [->|Hqp].
      * eexists p, _. rewrite lookup_insert_eq. split; [done|].
        rewrite Hq. cbn. set_solver.
      * exists q, ids. by rewrite lookup_insert_ne.
  - intros id h. destruct (decide (id = timerId p l w o)) as [->|Hne].
    + rewrite lookup_insert_eq. intros [= <-]. lia.
    + rewrite lookup_insert_ne by done. intros Hh%HL1. lia.
  - intros h c. destruct (decide (h = nextHandle st)) as [->|Hne].
    + intros _. lia.
    + rewrite lookup_insert_ne by done. intros Hh%HL2. lia.
Qed.

Lemma wellFormed_schedule now p l w prio ctx o r st :
  wellFormed st → wellFormed (scheduleOneReminder now p l w prio ctx o r st).
Proof.
  intros Hwf. unfold scheduleOneReminder.
  case_bool_decide as Hin; [done|].
  destruct (Z.leb (w - now) 0); [done|].
  destruct (Z.ltb MAX_TIMEOUT_MS (w - now)); [by apply wellFormed_emit|].
  apply wellFormed_noteScheduled, wellFormed_register; [|done].
  destruct (timerHandles st !! timerId p l w o) eqn:E; [|done].
  destruct Hin. eauto.
Qed.

(** Removing a subset [X] of the ids filed under [p], from both indices. *)
Lemma wellFormed_remove (p : list N) (ids X : gset (list N)) (st st' : plugin) :
  wellFormed st →
  fileTimers st !! p = Some ids → X ⊆ ids →
  (∀ id, timerHandles st' !! id
         = if decide (id ∈ X) then None else timerHandles st !! id) →
  fileTimers st' = shrinkEntry p (ids ∖ X) (fileTimers st) →
  (∀ h c, armed st' !! h = Some c → armed st !! h = Some c) →
  nextHandle st' = nextHandle st →
  wellFormed st'.
Proof.
  intros (HK & HC & HL1 & HL2) Hp HX HT HF HA HN.
  unfold wellFormed, keyed, covered, allocated. rewrite HF, HN.
  assert (∀ q ids' id, q ≠ p → fileTimers st !! q = Some ids' → id ∈ ids' →
                        id ∉ X) as Hother.
  { intros q ids' id Hne Hq Hin HinX.
    destruct (HK q ids' id Hq Hin) as [_ (l & w & o & ->)].
    destruct (HK p ids _ Hp (HX _ HinX)) as [_ (l' & w' & o' & Heq)].
    apply timerId_path_inj in Heq. done. }
  split_and!.
  - intros q ids' id Hq Hin. destruct (decide (q = p)) as [->|Hne].
    + unfold shrinkEntry in Hq. case_bool_decide.
      * by rewrite lookup_delete_eq in Hq.
      * rewrite lookup_insert_eq in Hq. simplify_eq.
        apply elem_of_difference in Hin as [Hin HnX].
        rewrite HT, decide_False by done. by apply (HK p ids).
    + assert (fileTimers st !! q = Some ids') as Hq'.
      { unfold shrinkEntry in Hq. case_bool_decide.
        - by rewrite lookup_delete_ne in Hq.
        - by rewrite lookup_insert_ne in Hq. }
      rewrite HT, decide_False by (by eapply Hother). by apply (HK q ids').
  - intros id Hs. rewrite HT in Hs. destruct (decide (id ∈ X)) as [|HnX].
    { by destruct Hs. }
    destruct (HC id Hs) as (q & ids' & Hq & Hin).
    destruct (decide (q = p)) as [->|Hne].
    + simplify_eq. exists p, (ids ∖ X). split; [|set_solver].
      unfold shrinkEntry. rewrite bool_decide_eq_false_2.
      * apply lookup_insert_eq.
      * intros Hsz%size_empty_inv. set_solver.
    + exists q, ids'. split; [|done]. unfold shrinkEntry.
      case_bool_decide.
      * by rewrite lookup_delete_ne.
      * by rewrite lookup_insert_ne.
  - intros id h. rewrite HT. destruct (decide (id ∈ X)); [done|]. apply HL1.
  - intros h c Hh%HA. by eapply HL2.
Qed.

Lemma wellFormed_clearLine p l st :
  wellFormed st → wellFormed (clearTimersForLine p l st).
Proof.
  intros Hwf. unfold clearTimersForLine.
  destruct (fileTimers st !! p) as [ids|] eqn:Hp; [|done].
  set (hit := filter _ ids).
  destruct (cancel_fold hit st) as (HT & HF & _ & _ & HN & _ & _ & HA & _).
  eapply (wellFormed_remove p ids hit st); try done.
  - subst hit. intros id [_ ?]%elem_of_filter. done.
Qed.

Lemma shrinkEntry_empty (p : list N) (ids : gset (list N))
    (ft : gmap (list N) (gset (list N))) :
  shrinkEntry p (ids ∖ ids) ft = delete p ft.
Proof.
  unfold shrinkEntry. rewrite difference_diag_L.
  by rewrite bool_decide_eq_true_2 by apply size_empty.
Qed.

Lemma wellFormed_clearFile p st :
  wellFormed st → wellFormed (clearTimersForFile p st).
Proof.
  intros Hwf. unfold clearTimersForFile.
  destruct (fileTimers st !! p) as [ids|] eqn:Hp; [|done].
  destruct (cancel_fold ids st) as (HT & HF & _ & _ & HN & _ & _ & HA & _).
  apply wellFormed_emit.
  eapply (wellFormed_remove p ids ids st); try done.
  cbn. by rewrite shrinkEntry_empty.
Qed.

Lemma clearAll_armed (th : gmap (list N) positive) (a : gmap positive closure) :
  ∀ h c, map_fold (fun _ h a => delete h a) a th !! h = Some c → a !! h = Some c.
Proof.
  revert th. apply (map_fold_weak_ind
    (fun (r : gmap positive closure) (m : gmap (list N) positive) =>
       ∀ h c, r !! h = Some c → a !! h = Some c)); [done|].
  intros id hx m r _ IH h c [_ H]%lookup_delete_Some. by apply IH.
Qed.

Lemma wellFormed_clearAll st : wellFormed st → wellFormed (clearAllTimers st).
Proof.
  intros (HK & HC & HL1 & HL2).
  unfold wellFormed, keyed, covered, allocated, clearAllTimers. cbn.
  split_and!; intros *; rewrite ?lookup_empty; try done.
  intros Hh%clearAll_armed. by eapply HL2.
Qed.

Lemma wellFormed_fireBegin h st : wellFormed st → wellFormed (fireBegin h st).
Proof.
  intros Hwf. unfold fireBegin. destruct (armed st !! h) as [c|]; [|done].
  destruct Hwf as (HK & HC & HL1 & HL2).
  assert (wellFormed
            (Plugin (timerHandles st) (fileTimers st) (isSender st)
               (recentInsert st) (delete h (armed st)) (nextHandle st)
               (c :: inflight st) (trace st))) as Hwf'.
  { unfold wellFormed, keyed, covered, allocated. cbn. split_and!; try done.
    intros h' c' [_ H]%lookup_delete_Some. by eapply HL2. }
  cbn. destruct (isSender st).
  - unfold sendNtfy. by do 2 apply wellFormed_emit.
  - by apply wellFormed_emit.
Qed.

Lemma wellFormed_afterRemoval c st :
  wellFormed st → wellFormed (afterRemoval c st).
Proof.
  intros Hwf. pose proof Hwf as (HK & HC & HL1 & HL2).
  assert (∀ ids, fileTimers st !! c_filePath c = Some ids →
                 closureId c ∉ ids →
                 timerHandles st !! closureId c = None) as Habsent.
  { intros ids Hp Hnin.
    destruct (timerHandles st !! closureId c) as [h|] eqn:E; [|done].
    destruct (HC (closureId c)) as (q & ids' & Hq & Hin); [eauto|].
    destruct (HK q ids' _ Hq Hin) as [_ (l & w & o & Heq)].
    pose proof Heq as Heq'. unfold closureId in Heq'.
    apply timerId_path_inj in Heq'. subst q. by simplify_eq. }
  destruct (fileTimers st !! c_filePath c) as [ids|] eqn:Hp.
  - destruct (decide (closureId c ∈ ids)) as [Hin|Hnin].
    + eapply (wellFormed_remove (c_filePath c) ids {[closureId c]} st);
        try done.
      * set_solver.
      * intros id. cbn. destruct (decide (id = closureId c)) as [->|Hne].
        -- rewrite lookup_delete_eq. by rewrite decide_True by set_solver.
        -- rewrite lookup_delete_ne by done.
           by rewrite decide_False by set_solver.
      * cbn. by rewrite Hp.
    + eapply (wellFormed_remove (c_filePath c) ids ∅ st); try done.
      * intros id. cbn. rewrite decide_False by set_solver.
        destruct (decide (id = closureId c)) as [->|Hne].
        -- rewrite lookup_delete_eq. symmetry. by eapply Habsent.
        -- by rewrite lookup_delete_ne.
      * cbn. rewrite Hp. f_equal. apply set_eq. intros z.
        rewrite !elem_of_difference, elem_of_singleton.
        split; (intros [Hz _]; split; [done|]).
        -- apply not_elem_of_empty.
        -- by intros ->.
  - assert (timerHandles st !! closureId c = None) as Hnone.
    { destruct (timerHandles st !! closureId c) as [h|] eqn:E; [|done].
      destruct (HC (closureId c)) as (q & ids' & Hq & Hin); [eauto|].
      destruct (HK q ids' _ Hq Hin) as [_ (l & w & o & Heq)].
      pose proof Heq as Heq'. unfold closureId in Heq'.
    apply timerId_path_inj in Heq'. subst q. by simplify_eq. }
    eapply wellFormed_same; [..|exact Hwf]; cbn; try done.
    + by apply delete_id.
    + by rewrite Hp.
Qed.

Lemma wellFormed_fireFinally now c st :
  wellFormed st → wellFormed (fireFinally now c st).
Proof.
  intros Hwf%(wellFormed_afterRemoval c). unfold fireFinally.
  destruct (c_recur c) as [r|]; [|done].
  destruct (isSender _); [|done].
  destruct (chainNext _ _ _); [|done].
  by apply wellFormed_schedule.
Qed.

Lemma wellFormed_fireEnd now c st :
  wellFormed st → wellFormed (fireEnd now c st).
Proof.
  intros Hwf. unfold fireEnd. apply wellFormed_fireFinally.
  by eapply wellFormed_same; [..|exact Hwf].
Qed.

(** *** The rescan *)

Lemma wellFormed_scheduleMatch now p line i prio hint acc o :
  wellFormed acc.1 →
  wellFormed (scheduleMatch now p line i prio hint acc o).1.
Proof.
  destruct acc as [st flag]. cbn. intros Hwf.
  destruct (firstWhen now o); cbn; [|done|by apply wellFormed_emit].
  by apply wellFormed_schedule.
Qed.

Lemma wellFormed_scheduleMatches now p line i prio hint os acc :
  wellFormed acc.1 →
  wellFormed (fold_left (scheduleMatch now p line i prio hint) os acc).1.
Proof.
  revert acc. induction os as [|o os IH]; intros acc Hwf; cbn; [done|].
  by apply IH, wellFormed_scheduleMatch.
Qed.

Lemma wellFormed_scheduleLine now dismiss p hint acc il :
  wellFormed acc.1 →
  wellFormed (scheduleLine now dismiss p hint acc il).1.
Proof.
  destruct acc as [st flag], il as [i line]. cbn. intros Hwf.
  case_match; [by apply wellFormed_emit|].
  destruct (parseClockEmojiAll line) as [|o os] eqn:E; [done|].
  apply (wellFormed_scheduleMatches now p line i (detectPriority line) hint
           (o :: os) (clearTimersForLine p i st, flag)).
  by apply wellFormed_clearLine.
Qed.

Lemma wellFormed_scheduleLines now dismiss p hint ls acc :
  wellFormed acc.1 →
  wellFormed (fold_left (scheduleLine now dismiss p hint) ls acc).1.
Proof.
  revert acc. induction ls as [|il ls IH]; intros acc Hwf; cbn; [done|].
  by apply IH, wellFormed_scheduleLine.
Qed.

Lemma wellFormed_rescanBody now dismiss p text hint st :
  wellFormed st →
  wellFormed (scheduleFromFileNoClear now dismiss p text hint st).
Proof.
  intros Hwf. unfold scheduleFromFileNoClear.
  destruct (isSender st); [|done]. cbn.
  pose proof (wellFormed_scheduleLines now dismiss p hint
                (imap pair (splitLines text)) (st, false) Hwf) as H.
  destruct (fold_left _ _ _) as [st' flag]. cbn in H.
  destruct hint; [|done]. destruct flag; [|done].
  destruct (recentInsert st'); [done|]. by apply wellFormed_emit.
Qed.

Lemma wellFormed_rescan now dismiss p text hint st :
  wellFormed st →
  wellFormed (scheduleFileFresh now dismiss p text hint st).
Proof.
  intros Hwf. unfold scheduleFileFresh.
  destruct (isSender st); cbn.
  - by apply wellFormed_rescanBody, wellFormed_clearFile.
  - by apply wellFormed_clearFile.
Qed.

Lemma wellFormed_step st st' : step st st' → wellFormed st → wellFormed st'.
Proof.
  intros Hstep Hwf. destruct Hstep.
  - by apply wellFormed_schedule.
  - by apply wellFormed_clearLine.
  - by apply wellFormed_clearFile.
  - by apply wellFormed_clearAll.
  - by apply wellFormed_fireBegin.
  - by apply wellFormed_fireEnd.
  - by apply wellFormed_rescanBody.
  - by apply wellFormed_rescan.
  - by eapply wellFormed_same; [..|exact Hwf].
  - by eapply wellFormed_same; [..|exact Hwf].
Qed.

Lemma wellFormed_reachable st : reachable st → wellFormed st.
Proof.
  intros [b Hrtc]. revert st Hrtc.
  apply (rtc_ind_r (fun st => wellFormed st) (initial b)).
  - apply wellFormed_initial.
  - intros y z _ Hstep IH. by eapply wellFormed_step.
Qed.

(** C8. In every state that the plugin can reach by scheduling, cancelling
    for a line, for a document or for all, firing (in one turn, or with
    other turns between the send and the [finally] block), rescanning and
    changing role, an id is in the set of some path in [fileTimers] exactly
    when it has an entry in [timerHandles]; every one of these operations
    updates both maps in the same turn. *)
Theorem indices_consistent st : reachable st → consistent st.
Proof.
  intros (HK & HC & _)%wellFormed_reachable id. split.
  - intros (p & ids & Hp & Hin). by destruct (HK p ids id Hp Hin).
  - apply HC.
Qed.

End Registry.

(** ** Rescans *)

Section Rescan.













End Rescan.

(** ** The matcher *)

Section Matching.

Lemma last_cons_from (c : N) (w : list N) (pv : option N) :
  from_option Some pv (last (c :: w)) = from_option Some (Some c) (last w).
Proof. destruct w as [|d w]; [done|]. rewrite last_cons. by destruct (last (d :: w)). Qed.

Lemma last_app_from (w1 w2 : list N) (pv : option N) :
  from_option Some pv (last (w1 ++ w2))
  = from_option Some (from_option Some pv (last w1)) (last w2).
Proof.
  revert pv. induction w1 as [|c w1 IH]; intros pv; [done|].
  change ((c :: w1) ++ w2) with (c :: (w1 ++ w2)).
  by rewrite !last_cons_from, IH.
Qed.

Lemma many_sound {R} p pv s i (k : mstate → option R) res :
  many p pv s i k = Some res →
  ∃ st', k st' = Some res
         ∧ ∃ w, Forall (fun c => p c = true) w
                ∧ s = w ++ rest st'
                ∧ pos st' = i + length w
                ∧ prev st' = from_option Some pv (last w).
Proof.
  revert pv i. induction s as [|c s IH]; intros pv i; cbn.
  - intros Hk. eexists. split; [done|]. exists []. cbn.
    split_and!; [done|done|lia|done].
  - destruct (p c) eqn:Hp.
    + destruct (many p (Some c) s (S i) k) as [r|] eqn:Hm.
      * intros [= ->]. apply IH in Hm as (st' & Hk & w & Hw & Hs & Hpos & Hprev).
        exists st'. split; [done|]. exists (c :: w). cbn.
        split_and!; [by constructor|by f_equal|lia|].
        by rewrite last_cons_from.
      * intros Hk. eexists. split; [done|]. exists []. cbn.
        split_and!; [done|done|lia|done].
    + intros Hk. eexists. split; [done|]. exists []. cbn.
      split_and!; [done|done|lia|done].
Qed.

(** Whatever the matcher returns went through a run of the expression. *)
Lemma run_sound {R} r st cs (k : mstate → caps → option R) res :
  run r st cs k = Some res →
  ∃ st' cs', span r st cs st' cs' ∧ k st' cs' = Some res.
Proof.
  revert st cs k. induction r as [|p|a IHa b IHb|a IHa b IHb|a IHa|p|i a IHa| | |];
    intros st cs k; cbn.
  - intros Hk. by exists st, cs.
  - destruct (rest st) as [|c s'] eqn:Hs; [done|].
    destruct (p c) eqn:Hp; [|done]. intros Hk.
    eexists _, _. split; [|done]. by exists c, s'.
  - intros (st1 & cs1 & Ha & Hb)%IHa.
    apply IHb in Hb as (st' & cs' & Hb & Hk).
    exists st', cs'. split; [|done]. by exists st1, cs1.
  - destruct (run a st cs k) as [r|] eqn:Ha.
    + intros [= ->]. apply IHa in Ha as (st' & cs' & Ha & Hk).
      exists st', cs'. split; [by left|done].
    + intros (st' & cs' & Hb & Hk)%IHb.
      exists st', cs'. split; [by right|done].
  - destruct (run a st cs k) as [r|] eqn:Ha.
    + intros [= ->]. apply IHa in Ha as (st' & cs' & Ha & Hk).
      exists st', cs'. split; [by left|done].
    + intros Hk. exists st, cs. split; [by right|done].
  - intros (st' & Hk & w & Hw & Hs & Hpos & Hprev)%many_sound.
    exists st', cs. split; [|done]. by exists w.
  - intros (st' & cs' & Ha & Hk)%IHa.
    eexists st', _. split; [|done]. by exists cs'.
  - destruct (atBoundary st) eqn:Hb; [|done]. intros Hk. by exists st, cs.
  - destruct (Nat.eqb_spec (pos st) 0); [|done]. intros Hk. by exists st, cs.
  - destruct (rest st) eqn:Hs; [|done]. intros Hk. by exists st, cs.
Qed.

(** A run consumes a word of the input. *)
Lemma span_word r st cs st' cs' :
  span r st cs st' cs' →
  ∃ w, rest st = w ++ rest st'
       ∧ pos st' = pos st + length w
       ∧ prev st' = from_option Some (prev st) (last w).
Proof.
  revert st cs st' cs'.
  induction r as [|p|a IHa b IHb|a IHa b IHb|a IHa|p|i a IHa| | |];
    intros st cs st' cs'; cbn.
  - intros [-> ->]. exists []. cbn. split_and!; [done|lia|done].
  - intros (c & s' & Hs & Hp & -> & ->). exists [c]. cbn.
    split_and!; [done|lia|done].
  - intros (st1 & cs1 & (w1 & Hs1 & Hp1 & Hv1)%IHa & (w2 & Hs2 & Hp2 & Hv2)%IHb).
    exists (w1 ++ w2). rewrite length_app, last_app_from, <-app_assoc.
    split_and!; [congruence|lia|congruence].
  - intros [H|H]; eauto.
  - intros [H|[-> ->]]; [eauto|]. exists []. cbn. split_and!; [done|lia|done].
  - intros (w & Hw & Hs & Hpos & Hprev & ->). by exists w.
  - intros (cs1 & H & ->). eauto.
  - intros (_ & -> & ->). exists []. cbn. split_and!; [done|lia|done].
  - intros (_ & -> & ->). exists []. cbn. split_and!; [done|lia|done].
  - intros (_ & -> & ->). exists []. cbn. split_and!; [done|lia|done].
Qed.

Lemma span_seqs_app rs1 rs2 st cs st' cs' :
  span (seqs (rs1 ++ rs2)) st cs st' cs' →
  ∃ st1 cs1, span (seqs rs1) st cs st1 cs1 ∧ span (seqs rs2) st1 cs1 st' cs'.
Proof.
  revert st cs. induction rs1 as [|r rs1 IH]; intros st cs; cbn.
  - intros H. by exists st, cs.
  - intros (st0 & cs0 & Hr & (st1 & cs1 & H1 & H2)%IH).
    exists st1, cs1. split; [|done]. by exists st0, cs0.
Qed.

Lemma matchAt_sound r st m :
  matchAt r st = Some m →
  index m = pos st ∧ ∃ st', mend m = pos st' ∧ span r st [] st' (groups m).
Proof.
  unfold matchAt. intros (st' & cs' & Hspan & [= <-])%run_sound. cbn.
  split; [done|]. by exists st'.
Qed.

Lemma stateAt_next line j c s' :
  drop j line = c :: s' →
  stateAt line (S j) = MState (Some c) s' (S j).
Proof.
  intros Hd. unfold stateAt.
  assert (line !! j = Some c) as Hj.
  { rewrite <-(Nat.add_0_r j), <-lookup_drop, Hd. done. }
  f_equal.
  - rewrite (take_S_r _ _ _ Hj). by rewrite last_snoc.
  - rewrite (drop_S _ _ _ Hj) in Hd. congruence.
Qed.

Lemma searchFrom_eq r pv s i :
  searchFrom r pv s i
  = match matchAt r (MState pv s i) with
    | Some m => Some m
    | None =>
        match s with
        | c :: s' => searchFrom r (Some c) s' (S i)
        | [] => None
        end
    end.
Proof. by destruct s. Qed.

Lemma scanAll_eq r pv s i skip :
  scanAll r pv s i skip
  = match skip with
    | S n =>
        match s with
        | c :: s' => scanAll r (Some c) s' (S i) n
        | [] => []
        end
    | O =>
        match matchAt r (MState pv s i) with
        | Some m =>
            m :: match s with
                 | c :: s' => scanAll r (Some c) s' (S i) (mend m - i - 1)
                 | [] => []
                 end
        | None =>
            match s with
            | c :: s' => scanAll r (Some c) s' (S i) 0
            | [] => []
            end
        end
    end.
Proof. by destruct s. Qed.

Lemma stateAt_eta line j :
  MState (prev (stateAt line j)) (rest (stateAt line j)) j = stateAt line j.
Proof. done. Qed.

Lemma searchFrom_sound r line j m :
  searchFrom r (prev (stateAt line j)) (rest (stateAt line j)) j = Some m →
  matchAt r (stateAt line (index m)) = Some m ∧ j ≤ index m.
Proof.
  remember (rest (stateAt line j)) as s eqn:Hs.
  revert j Hs. induction s as [|c s IH]; intros j Hs;
    rewrite searchFrom_eq;
    (replace (MState (prev (stateAt line j)) _ j) with (stateAt line j)
       by (by rewrite Hs));
    (destruct (matchAt r (stateAt line j)) as [m'|] eqn:Hm;
     [intros [= ->]; destruct (matchAt_sound _ _ _ Hm) as [Hi _]; cbn in Hi;
      rewrite Hi; split; [exact Hm|done] |]).
  - done.
  - intros Hsearch.
    pose proof (stateAt_next line j c s (eq_sym Hs)) as Hnext.
    specialize (IH (S j)). rewrite Hnext in IH.
    destruct (IH eq_refl Hsearch) as [H1 H2]. split; [done|lia].
Qed.

Lemma exec_sound r line m :
  exec r line = Some m → matchAt r (stateAt line (index m)) = Some m.
Proof.
  unfold exec. intros H.
  by apply (searchFrom_sound r line 0) in H as [H _].
Qed.

Lemma scanAll_sound r line j skip :
  let ms := scanAll r (prev (stateAt line j)) (rest (stateAt line j)) j skip in
  chained (j + skip) ms
  ∧ Forall (fun m => matchAt r (stateAt line (index m)) = Some m) ms.
Proof.
  cbv zeta. remember (rest (stateAt line j)) as s eqn:Hs.
  revert j skip Hs. induction s as [|c s IH]; intros j skip Hs;
    rewrite scanAll_eq;
    (replace (MState (prev (stateAt line j)) _ j) with (stateAt line j)
       by (by rewrite Hs)).
  - destruct skip as [|n]; [|done].
    destruct (matchAt r (stateAt line j)) as [m|] eqn:Hm; [|done].
    destruct (matchAt_sound _ _ _ Hm) as [Hi _]. cbn in Hi.
    split; [cbn; lia|]. constructor; [|done]. by rewrite Hi.
  - pose proof (stateAt_next line j c s (eq_sym Hs)) as Hnext.
    assert (∀ k, chained (S j + k)
                   (scanAll r (Some c) s (S j) k)
                 ∧ Forall (fun m => matchAt r (stateAt line (index m)) = Some m)
                     (scanAll r (Some c) s (S j) k)) as IH'.
    { intros k. specialize (IH (S j) k). rewrite Hnext in IH. by apply IH. }
    destruct skip as [|n].
    + destruct (matchAt r (stateAt line j)) as [m|] eqn:Hm.
      * destruct (matchAt_sound _ _ _ Hm) as [Hi _]. cbn in Hi.
        destruct (IH' (mend m - j - 1)) as [Hc Hf].
        split; [|constructor; [by rewrite Hi|done]].
        cbn. split; [lia|].
        replace (Nat.max (mend m) (S (index m))) with (S j + (mend m - j - 1))
          by lia. done.
      * destruct (IH' 0) as [Hc Hf]. split; [|done].
        destruct (scanAll r (Some c) s (S j) 0); [done|].
        cbn in *. destruct Hc. split; [lia|done].
    + destruct (IH' n) as [Hc Hf]. split; [|done].
      by replace (j + S n) with (S j + n) by lia.
Qed.

Lemma matchAll_sound r line :
  chained 0 (matchAll r line)
  ∧ Forall (fun m => matchAt r (stateAt line (index m)) = Some m)
      (matchAll r line).
Proof. apply (scanAll_sound r line 0 0). Qed.

End Matching.

(** ** Trimming *)

Section Trimming.

Lemma isWord_not_space c : isWord c = true → isSpace c = false.
Proof.
  unfold isWord, isSpace, inRange. intros H.
  repeat (apply orb_true_iff in H as [H|H]);
    repeat (apply andb_true_iff in H as [? H]);
    repeat match goal with
           | H : N.leb _ _ = true |- _ => apply N.leb_le in H
           | H : N.eqb _ _ = true |- _ => apply N.eqb_eq in H
           end;
    repeat (apply orb_false_intro); try apply andb_false_iff;
    rewrite ?N.leb_gt, ?N.eqb_neq; first [lia | right; lia | left; lia].
Qed.

Lemma trimStart_app X Y :
  (Exists (fun c => isSpace c = false) X
   ∨ ∃ c Y', Y = c :: Y' ∧ isSpace c = false) →
  ∃ X', trimStart (X ++ Y) = X' ++ Y.
Proof.
  induction X as [|x X IH]; intros H.
  - destruct H as [H|(c & Y' & -> & Hc)]; [by apply Exists_nil in H|].
    exists []. cbn. by rewrite Hc.
  - cbn. destruct (isSpace x) eqn:Hx.
    + apply IH. destruct H as [H|H]; [|by right].
      apply Exists_cons in H as [H|H]; [congruence|by left].
    + by exists (x :: X).
Qed.

Lemma trimStart_kept r s : kept r s → kept r (trimStart s).
Proof.
  intros (pre & post & -> & (c & r' & -> & Hc) & Hend).
  destruct (trimStart_app pre ((c :: r') ++ post)) as [pre' Hpre'].
  { right. by exists c, (r' ++ post). }
  exists pre', post. split; [done|]. split; [by exists c, r'|done].
Qed.

Lemma trimEnd_kept r s : kept r s → kept r (trimEnd s).
Proof.
  intros (pre & post & -> & Hhead & Hend). unfold trimEnd.
  destruct Hend as [(c & Hlast & Hc)|(c & post' & -> & Hc)].
  - destruct (trimStart_app (rev post) (rev r ++ rev pre)) as [X' HX'].
    { right. destruct r as [|d r] using rev_ind; [done|].
      rewrite last_snoc in Hlast. simplify_eq.
      rewrite rev_app_distr. cbn. eauto. }
    rewrite !rev_app_distr, <-app_assoc, HX'.
    rewrite !rev_app_distr, !rev_involutive, <-app_assoc.
    exists pre, (rev X'). split; [done|]. split; [done|]. left. eauto.
  - destruct (trimStart_app (rev post') (rev (r ++ [c]) ++ rev pre))
      as [X' HX'].
    { right. rewrite rev_app_distr. cbn. eauto. }
    replace (pre ++ r ++ c :: post') with (pre ++ (r ++ [c]) ++ post')
      by (by rewrite <-!app_assoc).
    rewrite !rev_app_distr, <-!app_assoc.
    rewrite !rev_app_distr, <-!app_assoc in HX'. rewrite HX'.
    rewrite !rev_app_distr, !rev_involutive. cbn. rewrite <-!app_assoc. cbn.
    exists pre, (c :: rev X'). split; [done|]. split; [done|]. right. eauto.
Qed.

Lemma trimStart_fixed c r : isSpace c = false → trimStart (c :: r) = c :: r.
Proof. intros Hc. cbn. by rewrite Hc. Qed.

Lemma trimStart_split s :
  ∃ x, s = x ++ trimStart s
       ∧ (trimStart s = [] ∨ ∃ c r, trimStart s = c :: r ∧ isSpace c = false).
Proof.
  induction s as [|c s (x & Hx & Hs)]; [exists []; by split; [|left]|].
  cbn. destruct (isSpace c) eqn:Hc.
  - exists (c :: x). split; [by rewrite <-app_comm_cons, <-Hx|done].
  - exists []. split; [done|]. right. by exists c, s.
Qed.

(** A string that begins and ends with a unit that is not white space is
    its own trim. *)
Lemma trim_fixed c r d :
  isSpace c = false → last (c :: r) = Some d → isSpace d = false →
  trim (c :: r) = c :: r.
Proof.
  intros Hc Hl Hd. unfold trim, trimEnd. rewrite (trimStart_fixed c r Hc).
  apply last_Some in Hl as [t Ht]. rewrite Ht.
  rewrite rev_app_distr. cbn. rewrite Hd. cbn.
  by rewrite rev_involutive.
Qed.

(** A trim is empty or begins and ends with a unit that is not white
    space. *)
Lemma trim_shape s :
  trim s = []
  ∨ ∃ c r d, trim s = c :: r ∧ isSpace c = false
             ∧ last (trim s) = Some d ∧ isSpace d = false.
Proof.
  unfold trim, trimEnd.
  destruct (trimStart_split s) as (_ & _ & [->|(c & r & -> & Hc)]);
    [by left|].
  destruct (trimStart_split (rev (c :: r))) as (x & Hx & [Hu|(d & u & Hu & Hd)]).
  - rewrite Hu. by left.
  - right. rewrite Hu. rewrite Hu in Hx.
    apply (f_equal (@rev N)) in Hx.
    rewrite rev_involutive, rev_app_distr in Hx. cbn in Hx.
    rewrite <-app_assoc in Hx. cbn.
    destruct (rev u) as [|e t] eqn:Hrev; cbn in Hx |- *.
    + injection Hx as -> _. exists d, [], d. by split_and!.
    + injection Hx as -> _. exists e, (t ++ [d]), d. split_and!; try done.
      by rewrite app_comm_cons, last_snoc.
Qed.

Lemma trim_idemp s : trim (trim s) = trim s.
Proof.
  destruct (trim_shape s) as [->|(c & r & d & Heq & Hc & Hl & Hd)]; [done|].
  rewrite Heq in Hl |- *. by eapply trim_fixed.
Qed.

(** On trimmed fragments the expression of the source joins by a single
    space when both are non-empty. *)
Lemma joinContext_joined x y :
  joinContext (trim x) (trim y) = joined (trim x) (trim y).
Proof.
  unfold joinContext, joined.
  destruct (trim_shape x) as [->|(c & r & d & Hx & Hc & Hlx & Hd)].
  { cbn. apply trim_idemp. }
  destruct (trim_shape y) as [->|(c' & r' & d' & Hy & Hc' & Hly & Hd')].
  { rewrite Hx in Hlx |- *. cbn. rewrite app_nil_r. by eapply trim_fixed. }
  rewrite Hx, Hy in *. cbn.
  apply (trim_fixed c (r ++ 32%N :: c' :: r') d'); [done| |done].
  rewrite app_comm_cons.
  replace ((c :: r) ++ 32%N :: c' :: r') with (((c :: r) ++ [32%N]) ++ c' :: r')
    by (by rewrite <-app_assoc).
  by rewrite last_app, Hly.
Qed.

Lemma trim_kept r s : kept r s → kept r (trim s).
Proof. intros H. by apply trimEnd_kept, trimStart_kept. Qed.

Lemma kept_app_r r s x : kept r s → kept r (s ++ x).
Proof.
  intros (pre & post & -> & Hhead & Hend).
  exists pre, (post ++ x). split; [by rewrite <-!app_assoc|].
  split; [done|]. destruct Hend as [|(c & post' & -> & Hc)]; [by left|].
  right. by exists c, (post' ++ x).
Qed.

Lemma kept_app_l r s x : kept r s → kept r (x ++ s).
Proof.
  intros (pre & post & -> & Hhead & Hend).
  exists (x ++ pre), post. split; [by rewrite <-!app_assoc|]. done.
Qed.

Lemma kept_occursIn r s : kept r s → occursIn r s.
Proof. intros (pre & post & -> & _). by exists pre, post. Qed.

Lemma joinContext_kept_l r before after :
  kept r before → kept r (joinContext before after).
Proof. intros H. unfold joinContext. by apply trim_kept, kept_app_r. Qed.

Lemma joinContext_kept_r r before after :
  kept r after → kept r (joinContext before after).
Proof.
  intros H. unfold joinContext. by apply trim_kept, kept_app_l, kept_app_l.
Qed.

End Trimming.

(** ** What a stamp match looks like *)

Section StampMatches.

Lemma slice_app (l : list N) a i b :
  a ≤ i → i ≤ b → b ≤ length l →
  slice l a b = slice l a i ++ slice l i b.
Proof.
  intros Hai Hib Hb. unfold slice. rewrite !take_drop_commute.
  replace (a + (b - a)) with b by lia.
  replace (a + (i - a)) with i by lia.
  replace (i + (b - i)) with b by lia.
  rewrite <-(take_drop i (take b l)) at 1.
  rewrite take_take, drop_app, length_take.
  replace (i `min` b) with i by lia.
  replace (a - i `min` length l) with 0 by lia. done.
Qed.

Lemma slice_from_start (l : list N) b : slice l 0 b = take b l.
Proof. unfold slice. by rewrite Nat.sub_0_r. Qed.

Lemma slice_to_end (l : list N) a : slice l a (length l) = drop a l.
Proof. unfold slice. apply take_ge. rewrite length_drop. lia. Qed.

Lemma span_take r st cs st' cs' :
  span r st cs st' cs' →
  pos st ≤ pos st'
  ∧ pos st' - pos st ≤ length (rest st)
  ∧ rest st = take (pos st' - pos st) (rest st) ++ rest st'
  ∧ rest st' = drop (pos st' - pos st) (rest st)
  ∧ prev st'
    = from_option Some (prev st) (last (take (pos st' - pos st) (rest st))).
Proof.
  intros (w & Hs & Hp & Hv)%span_word.
  replace (pos st' - pos st) with (length w) by lia.
  rewrite Hs, take_app_length, drop_app_length, length_app.
  split; [lia|]. split; [lia|done].
Qed.

(** A match of the stamp expression begins with the clock glyph, lies
    inside the line, and ends at a word boundary. *)
Lemma stamp_match_shape line m :
  matchAt tsRe (stateAt line (index m)) = Some m →
  index m < mend m ≤ length line
  ∧ line !! index m = Some clock
  ∧ ((∃ c, last (slice line (index m) (mend m)) = Some c ∧ isWord c = true)
     ∨ (∃ c, line !! mend m = Some c ∧ isWord c = true)).
Proof.
  intros (_ & st' & Hend & Hspan)%matchAt_sound.
  destruct (span_take _ _ _ _ _ Hspan) as (Hle & Hlen & Hrest & Hst' & Hprev).
  cbn [pos rest stateAt] in Hle, Hlen, Hrest, Hst', Hprev.
  rewrite length_drop in Hlen.
  rewrite drop_drop in Hst'.
  replace (index m + (pos st' - index m)) with (pos st') in Hst' by lia.
  (* the first unit *)
  pose proof Hspan as Hfirst. change tsRe with (Seq (Regex.unit clock)
    (seqs [ spaces;
         Grp 1 (seqs [digit; digit; digit; digit; str "-";
                      digit; digit; str "-"; digit; digit]);
         spaces1;
         Grp 2 (Seq digit (Opt digit));
         Opt (Seq (str ":") (Grp 3 (Seq (Cls (inRange 48 53)) digit)));
         spaces;
         Opt (Grp 4 (Alt (strI "am") (strI "pm")));
         WordB ])) in Hfirst.
  destruct Hfirst as (st1 & cs1 & (c & s' & Hc & Heq & -> & ->) & Hrest1).
  apply N.eqb_eq in Heq. subst c.
  apply span_take in Hrest1 as (Hle1 & _). cbn in Hle1, Hc.
  assert (line !! index m = Some clock) as Hclock.
  { rewrite <-(Nat.add_0_r (index m)), <-lookup_drop, Hc. done. }
  assert (index m < length line) by (by eapply lookup_lt_Some).
  (* the boundary at the end *)
  pose proof Hspan as Hlast. change tsRe with (seqs (
       [ Regex.unit clock; spaces;
         Grp 1 (seqs [digit; digit; digit; digit; str "-";
                      digit; digit; str "-"; digit; digit]);
         spaces1;
         Grp 2 (Seq digit (Opt digit));
         Opt (Seq (str ":") (Grp 3 (Seq (Cls (inRange 48 53)) digit)));
         spaces;
         Opt (Grp 4 (Alt (strI "am") (strI "pm")))] ++ [WordB])) in Hlast.
  apply span_seqs_app in Hlast
    as (st2 & cs2 & _ & (st3 & cs3 & (Hb & E3 & _) & (E4 & _))).
  rewrite <-E3, <-E4 in Hb. clear E3 E4.
  assert (mend m ≤ length line) as Hin by lia.
  split; [lia|]. split; [done|].
  unfold atBoundary in Hb. rewrite Hprev in Hb. cbn [prev rest stateAt] in Hb.
  rewrite Hst' in Hb. unfold slice. rewrite Hend.
  assert (head (drop (pos st') line) = line !! pos st') as Hhd.
  { by rewrite head_lookup, lookup_drop, Nat.add_0_r. }
  rewrite Hhd in Hb.
  assert (is_Some (last (take (pos st' - index m) (drop (index m) line))))
    as [d Hd].
  { rewrite last_is_Some. intros Hnil%(f_equal length).
    rewrite length_take, length_drop in Hnil. cbn in Hnil. lia. }
  rewrite Hd in Hb. cbn in Hb.
  destruct (isWord d) eqn:Hwd; [left; eauto|].
  right. destruct (line !! pos st') as [e|]; [|done]. cbn in Hb. eauto.
Qed.

Lemma stamp_match_kept line m :
  matchAt tsRe (stateAt line (index m)) = Some m →
  ∀ a b, a ≤ index m → mend m ≤ b → b ≤ length line →
    (b = mend m → ∀ c, line !! b = Some c → isWord c = false) →
    kept (slice line (index m) (mend m)) (slice line a b).
Proof.
  intros (Hrange & Hclock & Hbound)%stamp_match_shape a b Ha Hb Hlen Hnext.
  exists (slice line a (index m)), (slice line (mend m) b).
  split; [|split].
  - rewrite (slice_app line a (index m) b) by lia.
    by rewrite (slice_app line (index m) (mend m) b) by lia.
  - unfold slice.
    assert (drop (index m) line = clock :: drop (S (index m)) line) as ->
      by (by apply drop_S).
    destruct (mend m - index m) as [|n] eqn:E; [lia|]. cbn. eauto.
  - destruct Hbound as [Hl|(c & Hc & Hw)].
    + left. destruct Hl as (c & Hl & Hw). exists c. split; [done|].
      by apply isWord_not_space.
    + right. destruct (decide (b = mend m)) as [->|Hne].
      { rewrite (Hnext eq_refl c Hc) in Hw. done. }
      unfold slice. rewrite (drop_S _ _ _ Hc).
      destruct (b - mend m) as [|n] eqn:E; [lia|]. cbn.
      eexists c, _. split; [done|]. by apply isWord_not_space.
Qed.

End StampMatches.

(** ** The recurrence suffix *)

Section Suffix.

Lemma span_nocap r st cs st' cs' :
  nocap r = true → span r st cs st' cs' → cs' = cs.
Proof.
  revert st cs st' cs'.
  induction r as [|p|a IHa b IHb|a IHa b IHb|a IHa|p|i a IHa| | |];
    intros st cs st' cs'; cbn; intros Hn.
  - by intros [_ ->].
  - by intros (c & s' & _ & _ & _ & ->).
  - apply andb_true_iff in Hn as [Ha Hb].
    intros (st1 & cs1 & H1 & H2). apply IHa in H1; [|done].
    apply IHb in H2; [|done]. congruence.
  - apply andb_true_iff in Hn as [Ha Hb]. intros [H|H]; eauto.
  - intros [H|[_ ->]]; eauto.
  - by intros (w & _ & _ & _ & _ & ->).
  - done.
  - by intros (_ & _ & ->).
  - by intros (_ & _ & ->).
  - by intros (_ & _ & ->).
Qed.

Lemma span_unitsI l st cs st' cs' :
  span (seqs (unitI <$> l)) st cs st' cs' →
  ∃ w, rest st = w ++ rest st'
       ∧ pos st' = pos st + length w
       ∧ toLowerCase w = toLowerCase l.
Proof.
  revert st cs. induction l as [|c l IH]; intros st cs.
  - intros [-> _]. exists []. cbn. split_and!; [done|lia|done].
  - intros (st1 & cs1 & (x & s' & Hs & Hx & -> & ->) & Hrest).
    apply IH in Hrest as (w & Hw & Hp & Hl). cbn in Hw, Hp.
    apply N.eqb_eq in Hx.
    exists (x :: w). split_and!.
    + by rewrite Hs, Hw.
    + cbn. lia.
    + unfold toLowerCase in *. cbn. by rewrite Hx, Hl.
Qed.

Lemma span_strI s st cs st' cs' :
  span (strI s) st cs st' cs' →
  ∃ w, rest st = w ++ rest st'
       ∧ pos st' = pos st + length w
       ∧ toLowerCase w = toLowerCase (lit s).
Proof. apply span_unitsI. Qed.

Lemma span_strI_s s st cs st' cs' :
  span (Seq (strI s) (Opt (strI "s"))) st cs st' cs' →
  ∃ w, rest st = w ++ rest st'
       ∧ pos st' = pos st + length w
       ∧ (toLowerCase w = toLowerCase (lit s)
          ∨ toLowerCase w = toLowerCase (lit s) ++ lit "s").
Proof.
  intros (st1 & cs1 & (w1 & Hw1 & Hp1 & Hl1)%span_strI & Hopt).
  destruct Hopt as [(w2 & Hw2 & Hp2 & Hl2)%span_strI|[-> _]].
  - exists (w1 ++ w2). rewrite length_app, <-app_assoc.
    split_and!; [congruence|lia|].
    right. unfold toLowerCase in *. by rewrite fmap_app, Hl1, Hl2.
  - exists w1. split_and!; [done|done|by left].
Qed.

(** Whatever the unit alternation matched is a unit that [normalizeUnit]
    knows. *)
Lemma span_unitAlts st cs st' cs' :
  span unitAlts st cs st' cs' →
  ∃ w u, rest st = w ++ rest st'
         ∧ pos st' = pos st + length w
         ∧ normalizeUnit (toLowerCase w) = Some u.
Proof.
  intros H. unfold unitAlts, alts in H. cbn [fold_left] in H.
  repeat (destruct H as [H|H]);
    first [ apply span_strI_s in H as (w & Hw & Hp & [Hl|Hl])
          | apply span_strI in H as (w & Hw & Hp & Hl) ];
    exists w; eexists; (split; [exact Hw|]); (split; [exact Hp|]);
    rewrite Hl; vm_compute; reflexivity.
Qed.

Lemma takeDigits_all w :
  Forall (fun c => isDigit c = true) w → takeDigits w = w.
Proof. induction 1 as [|c w Hc _ IH]; cbn; [done|]. by rewrite Hc, IH. Qed.

Lemma isDigit_cases c :
  isDigit c = true →
  (c = 48 ∨ c = 49 ∨ c = 50 ∨ c = 51 ∨ c = 52 ∨ c = 53 ∨ c = 54
   ∨ c = 55 ∨ c = 56 ∨ c = 57)%N.
Proof.
  unfold isDigit, inRange. intros [H1 H2]%andb_true_iff.
  apply N.leb_le in H1, H2. lia.
Qed.

(** [parseInt] of a run of digits is its value. *)
Lemma parseInt_digits c w :
  isDigit c = true → Forall (fun c => isDigit c = true) w →
  parseInt (c :: w) = Some (digitsValue (c :: w)).
Proof.
  intros Hc Hw. unfold parseInt.
  assert (takeDigits (c :: w) = c :: w) as Htd
    by (apply takeDigits_all; by constructor).
  apply isDigit_cases in Hc.
  destruct Hc as [->|[->|[->|[->|[->|[->|[->|[->|[->| ->]]]]]]]]];
    cbn [trimStart isSpace inRange N.leb N.eqb orb andb];
    (change (trimStart (?c :: w)) with (c :: w) || idtac);
    cbn -[takeDigits digitsValue]; rewrite Htd; f_equal; lia.
Qed.

(** A suffix that the recurrence expression matches is never refused: the
    count is clamped up to 1 and the unit is always recognised. *)
Lemma recurOf_matched tail rm :
  exec recurRe tail = Some rm →
  ∃ ns u, group 1 (groups rm) = Some ns
          ∧ recurOf tail
            = Some (Recurrence (Z.max 1 (digitsValue ns)) u,
                    mend rm - index rm)
          ∧ mend rm - index rm ≤ length tail.
Proof.
  intros Hexec. pose proof (exec_sound _ _ _ Hexec) as Hm.
  apply matchAt_sound in Hm as (_ & st' & Hend & Hspan).
  destruct (span_take _ _ _ _ _ Hspan) as (_ & Hlen & _).
  cbn [pos rest stateAt] in Hlen. rewrite length_drop in Hlen.
  destruct Hspan as (s1 & c1 & (_ & -> & ->) & Hspan).
  destruct Hspan as (s2 & c2 & H2 & Hspan).
  apply span_nocap in H2 as ->; [|done].
  destruct Hspan as (s3 & c3 & H3 & Hspan).
  apply span_nocap in H3 as ->; [|done].
  destruct Hspan as (s4 & c4 & H4 & Hspan).
  apply span_nocap in H4 as ->; [|done].
  destruct Hspan as (s5 & c5 & (c5' & H5 & ->) & Hspan).
  pose proof (span_nocap digits1 _ _ _ _ eq_refl H5) as ->.
  destruct H5 as (s4' & c4' & (d & t & Hd & Hdig & -> & ->) & H5).
  destruct H5 as (w1 & Hw1 & Hr1 & Hp1 & _ & _). cbn in Hr1, Hp1.
  destruct Hspan as (s6 & c6 & H6 & Hspan).
  apply span_nocap in H6 as ->; [|done].
  destruct Hspan as (s7 & c7 & (c7' & H7 & ->) & Hspan).
  pose proof (span_nocap unitAlts _ _ _ _ eq_refl H7) as ->.
  apply span_unitAlts in H7 as (w2 & u & Hr2 & Hp2 & Hu).
  destruct Hspan as (s8 & c8 & (_ & -> & ->) & (-> & Hg)).
  assert (take (pos s5 - pos s4) (rest s4) = d :: w1) as Hcap1.
  { rewrite Hd, Hr1, Hp1.
    replace (_ - pos s4) with (S (length w1)) by lia.
    cbn [take]. by rewrite take_app_length. }
  assert (take (pos s7 - pos s6) (rest s6) = w2) as Hcap2.
  { rewrite Hr2, Hp2.
    replace (_ - pos s6) with (length w2) by lia.
    by rewrite take_app_length. }
  rewrite Hcap1, Hcap2 in Hg.
  exists (d :: w1), u. unfold recurOf. rewrite Hexec, Hg. cbn [group Nat.eqb].
  rewrite (parseInt_digits d w1 Hdig Hw1). cbn [from_option]. unfold id.
  rewrite Hu.
  split; [done|]. split; [|lia].
  destruct (Z.ltb_spec 0 (Z.max 1 (digitsValue (d :: w1)))); [done|lia].
Qed.

Lemma recurOf_bounds tail r n :
  recurOf tail = Some (r, n) → (1 ≤ every r)%Z ∧ n ≤ length tail.
Proof.
  intros H. destruct (exec recurRe tail) as [rm|] eqn:Hexec.
  - destruct (recurOf_matched tail rm Hexec) as (ns & u & _ & Hr & Hn).
    rewrite Hr in H. simplify_eq. cbn. split; [lia|done].
  - unfold recurOf in H. by rewrite Hexec in H.
Qed.

End Suffix.

(** ** The stamp parser *)

Section Parser.

Lemma parseMatches_elem line all o :
  o ∈ parseMatches line all →
  ∃ pre m post, all = pre ++ m :: post
                ∧ parseStamp line m (nextStartOf line post) = Some o.
Proof.
  induction all as [|m more IH]; cbn; [by intros ?%elem_of_nil|].
  destruct (parseStamp line m (nextStartOf line more)) as [o'|] eqn:Hp.
  - intros [->|Hin]%elem_of_cons.
    + by exists [], m, more.
    + destruct (IH Hin) as (pre & m' & post & -> & Hm').
      by exists (m :: pre), m', post.
  - intros Hin. destruct (IH Hin) as (pre & m' & post & -> & Hm').
    by exists (m :: pre), m', post.
Qed.

Lemma chained_lower lo ms m : chained lo ms → m ∈ ms → lo ≤ index m.
Proof.
  revert lo. induction ms as [|m0 ms IH]; intros lo; cbn;
    [by intros _ ?%elem_of_nil|].
  intros [Hlo Hc] [->|Hin]%elem_of_cons; [done|].
  specialize (IH _ Hc Hin). lia.
Qed.

Lemma chained_split lo pre m post :
  chained lo (pre ++ m :: post) →
  (∀ m', m' ∈ pre → mend m' ≤ index m)
  ∧ chained (Nat.max (mend m) (S (index m))) post.
Proof.
  revert lo. induction pre as [|p pre IH]; intros lo; cbn.
  - intros [_ Hc]. split; [by intros ? ?%elem_of_nil|done].
  - intros [_ Hc]. destruct (IH _ Hc) as [Hpre Hpost]. split; [|done].
    intros m' [->|Hin]%elem_of_cons; [|by apply Hpre].
    assert (m ∈ pre ++ m :: post) as Hm
      by (apply elem_of_app; right; apply list_elem_of_here).
    pose proof (chained_lower _ _ _ Hc Hm). lia.
Qed.

Lemma parseStamp_fields line m next o :
  parseStamp line m next = Some o →
  let n := from_option snd 0 (recurOf (slice line (mend m) next)) in
  stampWhen m = Some (when o)
  ∧ offset o = index m
  ∧ raw o = slice line (index m) (mend m)
  ∧ recur o = fst <$> recurOf (slice line (mend m) next)
  ∧ context o = joinContext (trim (slice line 0 (index m)))
                  (trim (drop (mend m + n) line)).
Proof.
  unfold parseStamp. destruct (stampWhen m) as [w|]; [|done].
  intros [= <-]. cbn. split_and!; try done.
  destruct (recurOf _) as [[r k]|]; cbn; [done|]. by rewrite Nat.add_0_r.
Qed.

(** Where an occurrence comes from: its match, the start of the next match
    (or the end of the line), and the ordering of the other matches. *)
Lemma occurrence_origin line o :
  o ∈ parseClockEmojiAll line →
  ∃ m next,
    m ∈ matchAll tsRe line
    ∧ parseStamp line m next = Some o
    ∧ matchAt tsRe (stateAt line (index m)) = Some m
    ∧ mend m ≤ next ≤ length line
    ∧ ∀ m', m' ∈ matchAll tsRe line →
        matchAt tsRe (stateAt line (index m')) = Some m'
        ∧ (index m' = index m ∨ mend m' ≤ index m ∨ next ≤ index m').
Proof.
  intros (pre & m & post & Hall & Hparse)%parseMatches_elem.
  destruct (matchAll_sound tsRe line) as [Hchain Hforall].
  rewrite Forall_forall in Hforall. rewrite Hall in Hchain.
  destruct (chained_split _ _ _ _ Hchain) as [Hpre Hpost].
  assert (m ∈ matchAll tsRe line) as Hm
    by (rewrite Hall; apply elem_of_app; right; apply list_elem_of_here).
  pose proof (Hforall m Hm) as Hmatch.
  destruct (stamp_match_shape line m Hmatch) as (Hrange & _).
  exists m, (nextStartOf line post). split_and!; try done.
  - destruct post as [|m1 post]; cbn; [lia|]. cbn in Hpost. lia.
  - destruct post as [|m1 post]; cbn; [lia|].
    assert (m1 ∈ matchAll tsRe line) as Hm1
      by (rewrite Hall; apply elem_of_app; right;
          apply list_elem_of_further, list_elem_of_here).
    destruct (stamp_match_shape line m1 (Hforall m1 Hm1)) as (? & _). lia.
  - intros m' Hm'. split; [by apply Hforall|].
    rewrite Hall in Hm'.
    apply elem_of_app in Hm' as [Hin|[->|Hin]%elem_of_cons].
    + right. left. by apply Hpre.
    + by left.
    + right. right. destruct post as [|m1 post]; [by apply elem_of_nil in Hin|].
      cbn. cbn in Hpost. destruct Hpost as [H1 Hc].
      apply elem_of_cons in Hin as [->|Hin]; [done|].
      pose proof (chained_lower _ _ _ Hc Hin). lia.
Qed.

(** C5. The context of an occurrence is the line without the span that the
    occurrence consumed, which is its own stamp followed by its own
    recurrence suffix when it has one: the text before the span and the
    text after it are trimmed and joined (by one space when both are
    non-empty).  The text of every other stamp of the line occurs in that
    context unchanged. *)
Theorem context_single_removal line o :
  o ∈ parseClockEmojiAll line →
  ∃ m sfx,
    m ∈ matchAll tsRe line
    ∧ offset o = index m
    ∧ raw o = slice line (index m) (mend m)
    ∧ match recur o with
      | Some r =>
          ∃ next, recurOf (slice line (mend m) next) = Some (r, length sfx)
      | None => sfx = []
      end
    ∧ line = take (index m) line ++ raw o ++ sfx
               ++ drop (mend m + length sfx) line
    ∧ context o = joined (trim (take (index m) line))
                    (trim (drop (mend m + length sfx) line))
    ∧ ∀ m', m' ∈ matchAll tsRe line → index m' ≠ index m →
        occursIn (slice line (index m') (mend m')) (context o).
Proof.
  intros (m & next & Hm & Hparse & Hmatch & Hnext & Hothers)%occurrence_origin.
  destruct (parseStamp_fields _ _ _ _ Hparse) as (_ & Hoff & Hraw & Hrec & Hctx).
  destruct (stamp_match_shape line m Hmatch) as (Hrange & Hclock & _).
  set (tail := slice line (mend m) next) in *.
  set (n := from_option snd 0 (recurOf tail)) in *.
  assert (length tail = next - mend m) as Htail.
  { unfold tail, slice. rewrite length_take, length_drop. lia. }
  assert (n ≤ next - mend m) as Hn.
  { unfold n. destruct (recurOf tail) as [[r k]|] eqn:Hr; cbn; [|lia].
    apply recurOf_bounds in Hr as [_ Hk]. lia. }
  set (sfx := slice line (mend m) (mend m + n)).
  assert (length sfx = n) as Hsfx.
  { unfold sfx, slice. rewrite length_take, length_drop. lia. }
  exists m, sfx. rewrite Hsfx. split_and!; try done.
  - rewrite Hrec. destruct (recurOf tail) as [[r k]|] eqn:Hr; cbn.
    + exists next. by fold tail.
    + apply nil_length_inv. rewrite Hsfx. subst n. by rewrite ?Hr.
  - rewrite Hraw. unfold sfx.
    rewrite <-(slice_to_end line (mend m + n)).
    rewrite <-(slice_app line (mend m) (mend m + n) (length line)) by lia.
    rewrite <-(slice_app line (index m) (mend m) (length line)) by lia.
    rewrite <-(slice_from_start line (index m)).
    rewrite <-(slice_app line 0 (index m) (length line)) by lia.
    rewrite slice_from_start. by rewrite take_ge.
  - by rewrite Hctx, slice_from_start, joinContext_joined.
  - intros m' Hm' Hne. destruct (Hothers m' Hm') as [Hmatch' [?|[Hbefore|Hafter]]];
      [done| |]; rewrite Hctx; apply kept_occursIn.
    + apply joinContext_kept_l, trim_kept.
      apply (stamp_match_kept line m' Hmatch' 0 (index m)); [lia|done|lia|].
      intros _ c Hc. rewrite Hclock in Hc. by simplify_eq.
    + apply joinContext_kept_r, trim_kept.
      rewrite <-slice_to_end.
      destruct (stamp_match_shape line m' Hmatch') as (Hrange' & _).
      apply (stamp_match_kept line m' Hmatch'); [lia|lia|done|].
      intros _ c Hc. apply lookup_lt_Some in Hc. lia.
Qed.



End Parser.

(** ** The sender gate *)

Section Gate.
Local Open Scope Z_scope.

Lemma small_cases (P : Z → Prop) n :
  Forall P (Z.of_nat <$> seq 0 n) → ∀ z, 0 ≤ z < Z.of_nat n → P z.
Proof.
  intros HF z Hz. rewrite Forall_forall in HF. apply HF.
  apply list_elem_of_fmap. exists (Z.to_nat z). split; [lia|].
  apply elem_of_seq. lia.
Qed.

Lemma octet_shifts a :
  0 ≤ a ≤ 255 →
  ushr (shl a 24) 0 = a * 2 ^ 24 ∧ shl a 16 = a * 2 ^ 16 ∧ shl a 8 = a * 2 ^ 8.
Proof.
  intros Ha.
  apply (small_cases
           (fun a => ushr (shl a 24) 0 = a * 2 ^ 24 ∧ shl a 16 = a * 2 ^ 16
                     ∧ shl a 8 = a * 2 ^ 8) 256); [|lia].
  apply Forall_forall. intros x Hx.
  assert (forallb (fun a => (ushr (shl a 24) 0 =? a * 2 ^ 24)
                            && (shl a 16 =? a * 2 ^ 16)
                            && (shl a 8 =? a * 2 ^ 8))%bool
            (Z.of_nat <$> seq 0 256) = true) as Hall by (vm_compute; reflexivity).
  rewrite forallb_forall in Hall. apply list_elem_of_In, Hall in Hx.
  apply andb_true_iff in Hx as [[H1 H2]%andb_true_iff H3].
  by apply Z.eqb_eq in H1, H2, H3.
Qed.






Lemma startsWith_spec s p : startsWith s p = true ↔ ∃ t, s = p ++ t.
Proof.
  revert s. induction p as [|a p IH]; intros s.
  - destruct s; cbn; (split; [intros _; by eexists|done]).
  - destruct s as [|b s]; cbn; [split; [done|by intros [t ?]]|].
    rewrite andb_true_iff, N.eqb_eq, IH. split.
    + intros [-> [t ->]]. by exists t.
    + intros [t [= -> ->]]. split; [done|by exists t].
Qed.

Lemma nonEmpty_spec ip : nonEmpty ip = true ↔ ip ≠ [].
Proof. by destruct ip. Qed.





End Gate.

(** * The theorems at concrete inputs *)

Section Instances.
Import Examples.
Local Open Scope Z_scope.

Lemma exScanned_reachable : reachable exScanned.
Proof.
  exists true. eapply rtc_l; [|apply rtc_refl].
  apply (StepRescan exNow exDismiss exPath exText None).
Defined.








Lemma context_single_removal_witness :
  occursIn ([clock] ++ lit " 2025-09-02 10:00 ") (context exOccurrence).
Proof.
  destruct (context_single_removal exLine exOccurrence)
    as (m & sfx & _ & Hoff & _ & _ & _ & _ & Hothers).
  { vm_compute. apply list_elem_of_here. }
  assert (∃ m', m' ∈ matchAll tsRe exLine
                ∧ index m' = 35%nat ∧ mend m' = 54%nat) as (m' & Hin & Hi & He).
  { eexists. split; [vm_compute; apply list_elem_of_further, list_elem_of_here|].
    done. }
  specialize (Hothers m' Hin). rewrite Hi, He in Hothers.
  apply Hothers. rewrite <-Hoff. vm_compute. lia.
Defined.

Lemma schedule_twice_noop_witness :
  scheduleOneReminder (exNow + 5) exPath 1
    (Moment.epochMs 2025 9 1 10 0 + 999) 5 (lit "other") 2 None exScanned
  = exScanned.
Proof.
  destruct (schedule_twice_noop exNow (exNow + 5) exPath 1%nat
              (Moment.epochMs 2025 9 1 10 0)
              (Moment.epochMs 2025 9 1 10 0 + 999) 3 5 (lit "b")
              (lit "other") 2%nat (Some exDaily) None exScanned)
    as [Hsame Htwice].
  assert (is_Some (timerHandles exScanned
                   !! timerId exPath 1 (Moment.epochMs 2025 9 1 10 0) 2))
    as Hin by (vm_compute; eauto).
  rewrite (Hsame Hin) in Htwice. apply Htwice; [|exact Hin].
  vm_compute. reflexivity.
Defined.

Lemma schedule_rejected_iff_witness :
  scheduleOneReminder exNow exPath 0 (exNow + 2147483648) 3 (lit "a") 2 None
    (initial true)
  = emit (LogSkipFarFuture exPath 0 (exNow + 2147483648)) (initial true).
Proof.
  destruct (schedule_rejected_iff exNow exPath 0%nat (exNow + 2147483648) 3
              (lit "a") 2%nat None (initial true) eq_refl)
    as (_ & _ & Hfar & _).
  apply Hfar. vm_compute. reflexivity.
Defined.

Lemma indices_consistent_witness : consistent exScanned.
Proof. apply indices_consistent, exScanned_reachable. Defined.



(** The examples of the specification. *)
Example spec_example_one_shot :
  (fun o => (when o, recur o, context o))
    <$> parseClockEmojiAll ([clock] ++ lit " 2025-09-01 9:00 AM")
  = [(Moment.epochMs 2025 9 1 9 0, None, [])].
Proof. vm_compute. reflexivity. Qed.

Example spec_example_recurring :
  (fun o => (recur o, context o))
    <$> parseClockEmojiAll
          (lit "Drink water " ++ [clock] ++ lit " 2025-08-16 14:00 every 2 hours")
  = [(Some (Recurrence 2 Moment.Hours), lit "Drink water")].
Proof. vm_compute. reflexivity. Qed.

Example spec_example_every_zero :
  (fun o => (recur o, context o))
    <$> parseClockEmojiAll
          (lit "Drink water " ++ [clock] ++ lit " 2025-08-16 14:00 every 0 hours")
  = [(Some (Recurrence 1 Moment.Hours), lit "Drink water")].
Proof. vm_compute. reflexivity. Qed.

End Instances.

(** * The rest of the plugin *)

Import Lifecycle Debounce Ui.

(** ** The matcher finds a match whenever the expression has a run *)

Section Completeness.

Lemma many_complete {R} p pv s i (k : mstate → option R) w s' :
  s = w ++ s' → Forall (fun c => p c = true) w →
  is_Some (k (MState (from_option Some pv (last w)) s' (i + length w))) →
  is_Some (many p pv s i k).
Proof.
  revert pv s i. induction w as [|c w IH]; intros pv s i -> Hw Hk.
  - cbn in *. rewrite Nat.add_0_r in Hk.
    destruct s' as [|c s']; cbn; [done|].
    destruct (p c); [|done]. by destruct (many p (Some c) s' (S i) k).
  - apply Forall_cons in Hw as [Hc Hw]. cbn. rewrite Hc.
    rewrite last_cons_from in Hk. cbn in Hk.
    replace (i + S (length w)) with (S i + length w) in Hk by lia.
    destruct (IH (Some c) _ (S i) eq_refl Hw Hk) as [r ->]. done.
Qed.

Lemma run_complete {R} r st cs st' cs' (k : mstate → caps → option R) :
  span r st cs st' cs' → is_Some (k st' cs') → is_Some (run r st cs k).
Proof.
  revert st cs st' cs' k.
  induction r as [|p|a IHa b IHb|a IHa b IHb|a IHa|p|i a IHa| | |];
    intros st cs st' cs' k; cbn.
  - by intros [-> ->].
  - intros (c & s' & -> & -> & -> & ->). done.
  - intros (st1 & cs1 & Ha & Hb) Hk.
    eapply IHa; [exact Ha|]. by eapply IHb.
  - intros [Ha|Hb] Hk.
    + by destruct (IHa _ _ _ _ k Ha Hk) as [r ->].
    + destruct (run a st cs k); [done|]. by eapply IHb.
  - intros [Ha|[-> ->]] Hk.
    + by destruct (IHa _ _ _ _ k Ha Hk) as [r ->].
    + by destruct (run a st cs k).
  - intros (w & Hw & Hs & Hpos & Hprev & ->) Hk.
    eapply many_complete; [exact Hs|exact Hw|].
    rewrite <-Hprev, <-Hpos. by destruct st'.
  - intros (cs1 & Ha & ->) Hk. by eapply IHa.
  - by intros (-> & -> & ->).
  - intros (-> & -> & ->). done.
  - by intros (-> & -> & ->).
Qed.

Lemma matchAt_complete r st st' cs' :
  span r st [] st' cs' → is_Some (matchAt r st).
Proof. intros H. unfold matchAt. by eapply run_complete. Qed.

Lemma searchFrom_complete r line j i :
  j ≤ i → i ≤ length line →
  is_Some (matchAt r (stateAt line i)) →
  is_Some (searchFrom r (prev (stateAt line j)) (rest (stateAt line j)) j).
Proof.
  intros Hji Hi Hm. remember (i - j) as n eqn:Hn.
  revert j Hji Hn. induction n as [|n IH]; intros j Hji Hn;
    rewrite searchFrom_eq, stateAt_eta.
  - replace j with i by lia. by destruct Hm as [m ->].
  - destruct (matchAt r (stateAt line j)); [done|].
    destruct (rest (stateAt line j)) as [|c s'] eqn:Hs.
    + cbn in Hs. apply (f_equal length) in Hs. rewrite length_drop in Hs.
      cbn in Hs. lia.
    + cbn in Hs. pose proof (stateAt_next line j c s' Hs) as Hnext.
      specialize (IH (S j)). rewrite Hnext in IH. apply IH; lia.
Qed.

Lemma searchFrom_index r pv s i m :
  searchFrom r pv s i = Some m → index m ≤ i + length s.
Proof.
  revert pv i. induction s as [|c s IH]; intros pv i; rewrite searchFrom_eq;
    (destruct (matchAt r (MState pv _ i)) as [m'|] eqn:Hm;
     [intros [= ->]; destruct (matchAt_sound _ _ _ Hm) as [-> _]; cbn; lia|]).
  - done.
  - intros H%IH. cbn. lia.
Qed.

(** [re.exec] succeeds exactly when the expression has a run from some
    index of the text. *)
Lemma exec_is_Some r line :
  is_Some (exec r line)
  ↔ ∃ i st' cs', i ≤ length line ∧ span r (stateAt line i) [] st' cs'.
Proof.
  split.
  - intros [m Hm]. pose proof (exec_sound _ _ _ Hm) as Hat.
    destruct (matchAt_sound _ _ _ Hat) as (Hi & st' & Hend & Hspan).
    exists (index m), st', (groups m). split; [|done].
    by apply searchFrom_index in Hm.
  - intros (i & st' & cs' & Hi & Hspan). unfold exec.
    apply (searchFrom_complete r line 0 i); [lia|done|].
    by eapply matchAt_complete.
Qed.

End Completeness.

(** ** Reading a run off an expression *)

Ltac span_inv H :=
  lazymatch type of H with
  | span ?r ?a ?b ?c ?d =>
      let r' := eval hnf in r in
      change (span r' a b c d) in H;
      lazymatch r' with
      | Seq _ _ =>
          let H1 := fresh "H" in
          let H2 := fresh "H" in
          destruct H as (? & ? & H1 & H2); span_inv H1; span_inv H2
      | Alt _ _ => destruct H as [H|H]; span_inv H
      | Opt _ => destruct H as [H|[? ?]]; [span_inv H|]
      | Eps => destruct H as [? ?]
      | Cls _ =>
          let Hp := fresh "Hp" in
          destruct H as (? & ? & ? & Hp & ? & ?); try apply N.eqb_eq in Hp
      | Bol => destruct H as (? & ? & ?)
      | Eol => destruct H as (? & ? & ?)
      | Grp _ _ => destruct H as (? & H & ?); span_inv H
      | Many _ => destruct H as (? & ? & ? & ? & ? & ?)
      | WordB => destruct H as (? & ? & ?)
      end
  end.

Section Units.

Lemma test_true r s : test r s = true ↔ is_Some (exec r s).
Proof. unfold test. destruct (exec r s); split; by first [done|intros [? ?]]. Qed.

Lemma test_span r s :
  test r s = true →
  ∃ i st' cs', i ≤ length s ∧ span r (stateAt s i) [] st' cs'.
Proof. rewrite test_true. apply exec_is_Some. Qed.

Lemma minutes_tokens tok :
  test minutesRe tok = true → tok ∈ unitTokens Moment.Minutes.
Proof.
  intros (i & st' & cs' & _ & H)%test_span. span_inv H; simplify_eq/=.
  all: rewrite drop_0 in *; subst tok; by apply (bool_decide_unpack _).
Qed.

Lemma hours_tokens tok :
  test hoursRe tok = true → tok ∈ unitTokens Moment.Hours.
Proof.
  intros (i & st' & cs' & _ & H)%test_span. span_inv H; simplify_eq/=.
  all: rewrite drop_0 in *; subst tok; by apply (bool_decide_unpack _).
Qed.

Lemma days_tokens tok :
  test daysRe tok = true → tok ∈ unitTokens Moment.Days.
Proof.
  intros (i & st' & cs' & _ & H)%test_span. span_inv H; simplify_eq/=.
  all: rewrite drop_0 in *; subst tok; by apply (bool_decide_unpack _).
Qed.

Lemma weeks_tokens tok :
  test weeksRe tok = true → tok ∈ unitTokens Moment.Weeks.
Proof.
  intros (i & st' & cs' & _ & H)%test_span. span_inv H; simplify_eq/=.
  all: rewrite drop_0 in *; subst tok; by apply (bool_decide_unpack _).
Qed.

(** X1. [normalizeUnit] maps a token to a unit exactly when the token is
    one of the spellings of that unit (m, min, mins, minute, minutes; h,
    hour, hours, hr, hrs; d, day, days; w, week, weeks), in lower case and
    with nothing before or after it; every other token gives no unit. *)
Theorem normalizeUnit_tokens tok u :
  normalizeUnit tok = Some u ↔ tok ∈ unitTokens u.
Proof.
  split.
  - unfold normalizeUnit.
    destruct (test minutesRe tok) eqn:Hm; [intros [= <-]; by apply minutes_tokens|].
    destruct (test hoursRe tok) eqn:Hh; [intros [= <-]; by apply hours_tokens|].
    destruct (test daysRe tok) eqn:Hd; [intros [= <-]; by apply days_tokens|].
    destruct (test weeksRe tok) eqn:Hw; [intros [= <-]; by apply weeks_tokens|].
    done.
  - intros Hin. destruct u; cbn in Hin;
      repeat (apply elem_of_cons in Hin as [->|Hin]; [by vm_compute|]);
      by apply elem_of_nil in Hin.
Qed.


End Units.

(** ** The order of the occurrences of a line *)

Section Order.

Lemma parseMatches_sorted line lo ms :
  chained lo ms →
  StronglySorted lt (offset <$> parseMatches line ms)
  ∧ Forall (fun o => lo ≤ offset o) (parseMatches line ms).
Proof.
  revert lo. induction ms as [|m ms IH]; intros lo; cbn.
  - intros _. split; constructor.
  - intros [Hlo Hc]. destruct (IH _ Hc) as [Hs Hf].
    assert (Forall (fun o => lo ≤ offset o) (parseMatches line ms)) as Hf'.
    { eapply Forall_impl; [exact Hf|]. cbn. intros o Ho. lia. }
    destruct (parseStamp line m (nextStartOf line ms)) as [o|] eqn:Hp; [|done].
    apply parseStamp_fields in Hp as (_ & Hoff & _). cbn. split.
    + constructor; [done|]. apply Forall_fmap.
      eapply Forall_impl; [exact Hf|]. cbn. intros o' Ho'. lia.
    + constructor; [lia|done].
Qed.

Lemma parse_offsets_clock line :
  Forall (fun o => line !! offset o = Some clock) (parseClockEmojiAll line).
Proof.
  apply Forall_forall. intros o (m & next & Hm & Hp & Hat & _)%occurrence_origin.
  apply parseStamp_fields in Hp as (_ & -> & _).
  by apply stamp_match_shape in Hat as (_ & ? & _).
Qed.

Lemma parse_no_clock line : clock ∉ line → parseClockEmojiAll line = [].
Proof.
  intros Hno. pose proof (parse_offsets_clock line) as Hf.
  destruct (parseClockEmojiAll line) as [|o os]; [done|].
  apply Forall_cons in Hf as [Ho _]. destruct Hno.
  by eapply list_elem_of_lookup_2.
Qed.

(** X4. The occurrences of a line come in the order of the text: their
    offsets are strictly increasing, and each offset is an index of the
    line that holds the clock glyph. Hence no two occurrences of a line
    share an offset, and a line has at most as many occurrences as
    glyphs. *)
Theorem parse_in_text_order line :
  StronglySorted lt (offset <$> parseClockEmojiAll line)
  ∧ Forall (fun o => line !! offset o = Some clock) (parseClockEmojiAll line).
Proof.
  destruct (matchAll_sound tsRe line) as [Hchain Hforall]. split.
  - by apply (parseMatches_sorted line 0).
  - apply parse_offsets_clock.
Qed.

End Order.

(** ** Task status and dismissal *)

Section Dismissal.

Lemma span_seq a b st cs st1 cs1 st' cs' :
  span a st cs st1 cs1 → span b st1 cs1 st' cs' → span (Seq a b) st cs st' cs'.
Proof. intros Ha Hb. by exists st1, cs1. Qed.

Lemma span_many p pv w s i cs :
  Forall (fun c => p c = true) w →
  span (Many p) (MState pv (w ++ s) i) cs
       (MState (from_option Some pv (last w)) s (i + length w)) cs.
Proof. intros Hw. by exists w. Qed.

Lemma span_cls (p : N → bool) pv c s i cs :
  p c = true →
  span (Cls p) (MState pv (c :: s) i) cs (MState (Some c) s (S i)) cs.
Proof. intros Hp. by exists c, s. Qed.

Lemma space_split (ws ws' : list N) x x' t t' :
  Forall (fun c => isSpace c = true) ws →
  Forall (fun c => isSpace c = true) ws' →
  isSpace x = false → isSpace x' = false →
  ws ++ x :: t = ws' ++ x' :: t' → ws = ws' ∧ x = x' ∧ t = t'.
Proof.
  intros Hws. revert ws'. induction Hws as [|c ws Hc Hws IH];
    intros ws' Hws' Hx Hx' Heq.
  - destruct Hws' as [|c' ws' Hc' Hws']; cbn in Heq.
    + by simplify_eq.
    + simplify_eq. congruence.
  - destruct Hws' as [|c' ws' Hc' Hws']; cbn in Heq.
    + simplify_eq. congruence.
    + injection Heq as -> Heq.
      destruct (IH ws' Hws' Hx Hx' Heq) as (-> & -> & ->). done.
Qed.

Lemma taskLine_unique line c c' : taskLine line c → taskLine line c' → c = c'.
Proof.
  intros (ws1 & b & ws2 & more & -> & H1 & H2 & Hb & Hc)
         (ws1' & b' & ws2' & more' & Heq & H1' & H2' & Hb' & Hc').
  cbn in Heq.
  apply space_split in Heq as (_ & _ & Heq); try done;
    [|by destruct Hb as [-> | ->]|by destruct Hb' as [-> | ->]].
  apply space_split in Heq as (_ & _ & Heq); try done.
  by simplify_eq.
Qed.

Lemma getTaskStatusChar_sound line s :
  getTaskStatusChar line = Some s → ∃ c, s = [c] ∧ taskLine line c.
Proof.
  unfold getTaskStatusChar. destruct (exec statusRe line) as [m|] eqn:Hm; [|done].
  apply exec_sound, matchAt_sound in Hm as (Hi & st' & Hend & H).
  intros Hg. span_inv H. subst. cbn in *.
  match goal with H : index m = 0 |- _ => rewrite H in * end.
  rewrite drop_0 in *.
  repeat match goal with
         | H : rest ?x = _, H' : context [rest ?x] |- _ => rewrite H in H'
         end.
  match goal with H : groups m = _ |- _ => rewrite H in Hg end.
  replace (S (pos x8) - pos x8) with 1 in Hg by lia.
  subst. cbn in Hg. injection Hg as <-.
  exists x20. split; [done|]. exists x3, x6, x10, x27.
  split_and!; [done|done|done| |].
  - apply orb_true_iff in Hp as [->%N.eqb_eq | ->%N.eqb_eq]; auto.
  - apply negb_true_iff, N.eqb_neq in Hp1. done.
Qed.

Lemma getTaskStatusChar_complete line c :
  taskLine line c → getTaskStatusChar line = Some [c].
Proof.
  intros Htask.
  assert (is_Some (exec statusRe line)) as [m Hm].
  { destruct Htask as (ws1 & b & ws2 & more & -> & H1 & H2 & Hb & Hc).
    apply exec_is_Some. exists 0. eexists _, _. split; [lia|].
    unfold stateAt. rewrite drop_0. cbn [take last].
    eapply span_seq; [done|].
    eapply span_seq; [by apply span_many|].
    eapply span_seq.
    { apply span_cls. by destruct Hb as [-> | ->]. }
    eapply span_seq; [by apply span_many|].
    eapply span_seq.
    { eapply span_seq; [by apply span_cls|done]. }
    eapply span_seq.
    { eexists. split; [|done]. apply span_cls.
      by apply negb_true_iff, N.eqb_neq. }
    eapply span_seq; [|done].
    eapply span_seq; [by apply span_cls|done]. }
  destruct (getTaskStatusChar line) as [s|] eqn:Hs.
  - apply getTaskStatusChar_sound in Hs as (c' & -> & Htask').
    by rewrite (taskLine_unique _ _ _ Htask Htask').
  - unfold getTaskStatusChar in Hs. rewrite Hm in Hs.
    apply exec_sound, matchAt_sound in Hm as (Hi & st' & Hend & H).
    span_inv H. subst.
    match goal with H : groups m = _ |- _ => rewrite H in Hs end. done.
Qed.

(** X2. [getTaskStatusChar] returns a status exactly for a task line
    (optional white space, a list marker that is a hyphen or an asterisk,
    optional white space, and a checkbox of one unit that is not a closing
    bracket, at the start of the line); the status is the unit inside the
    checkbox. *)
Theorem getTaskStatusChar_spec line s :
  getTaskStatusChar line = Some s ↔ ∃ c, s = [c] ∧ taskLine line c.
Proof.
  split; [apply getTaskStatusChar_sound|].
  intros (c & -> & H). by apply getTaskStatusChar_complete.
Qed.




(** X5. A line without the clock glyph holds no occurrence, and a rescan
    passes over it without touching the registry or the armed timeouts:
    timers registered earlier for that line index are not cancelled by the
    loop over the lines. *)
Theorem line_without_stamp_untouched now dismiss p hint st flag i line :
  clock ∉ line →
  parseClockEmojiAll line = []
  ∧ timerHandles (scheduleLine now dismiss p hint (st, flag) (i, line)).1
    = timerHandles st
  ∧ fileTimers (scheduleLine now dismiss p hint (st, flag) (i, line)).1
    = fileTimers st
  ∧ armed (scheduleLine now dismiss p hint (st, flag) (i, line)).1 = armed st
  ∧ (scheduleLine now dismiss p hint (st, flag) (i, line)).2 = flag.
Proof.
  intros Hno. pose proof (parse_no_clock line Hno) as Hp.
  split; [done|]. unfold scheduleLine. rewrite Hp.
  by destruct (match getTaskStatusChar line with
               | Some status => shouldDismissStatus status dismiss
               | None => false
               end).
Qed.

Lemma line_without_stamp_untouched_witness :
  parseClockEmojiAll (lit "- [ ] buy milk") = []
  ∧ timerHandles
      (scheduleLine 0 (lit "x") (lit "a.md") None (initial true, false)
         (0, lit "- [ ] buy milk")).1 = ∅.
Proof.
  destruct (line_without_stamp_untouched 0 (lit "x") (lit "a.md") None
              (initial true) false 0 (lit "- [ ] buy milk"))
    as (H1 & H2 & _).
  - vm_compute. intros H. by repeat (inversion_clear H as [|? ? ? H0]; rename H0 into H).
  - by split.
Defined.

End Dismissal.

(** ** Timer ids are unambiguous *)

Section Keys.

Lemma digitsValue_rev (l : list N) :
  digitsValue (rev l)
  = fold_right (fun c acc => 10 * acc + (Z.of_N c - 48))%Z 0%Z l.
Proof.
  unfold digitsValue. rewrite <-(rev_involutive l) at 2.
  by rewrite fold_left_rev_right.
Qed.

Lemma digitsRev_value fuel n :
  (n < 10 ^ N.of_nat fuel)%N →
  fold_right (fun c acc => 10 * acc + (Z.of_N c - 48))%Z 0%Z (digitsRev fuel n)
  = Z.of_N n.
Proof.
  revert n. induction fuel as [|f IH]; intros n Hn.
  - cbn in Hn. assert (n = 0%N) as -> by lia. done.
  - cbn [digitsRev fold_right].
    assert (n / 10 < 10 ^ N.of_nat f)%N as Hq.
    { apply N.Div0.div_lt_upper_bound.
      rewrite Nat2N.inj_succ, N.pow_succ_r' in Hn. lia. }
    assert (Z.of_N n = 10 * Z.of_N (n / 10) + Z.of_N (n mod 10))%Z as Hdiv.
    { rewrite <-(N2Z.inj_mul 10), <-N2Z.inj_add. f_equal.
      apply N.div_mod. done. }
    destruct (N.eqb_spec (n / 10) 0) as [H0|H0].
    + cbn [fold_right]. rewrite H0 in Hdiv. lia.
    + rewrite (IH _ Hq). lia.
Qed.

Lemma showN_value n : digitsValue (showN n) = Z.of_N n.
Proof.
  unfold showN. rewrite digitsValue_rev. apply digitsRev_value.
  destruct (N.eq_dec n 0) as [->|Hn]; [done|].
  rewrite Nat2N.inj_succ, N2Nat.id.
  destruct (N.log2_spec n) as [_ Hlt]; [lia|].
  eapply N.lt_le_trans; [exact Hlt|].
  apply N.pow_le_mono_l. lia.
Qed.

Lemma showN_inj n m : showN n = showN m → n = m.
Proof.
  intros H. apply (f_equal digitsValue) in H. rewrite !showN_value in H. lia.
Qed.

Lemma showN_head n : ∃ c s, showN n = c :: s ∧ c ≠ 45%N.
Proof.
  unfold showN. cbn [digitsRev].
  set (d := (48 + n mod 10)%N).
  set (tl := if N.eqb (n / 10) 0 then [] else digitsRev _ _).
  assert (∀ x, x ∈ d :: tl → x ≠ 45%N) as Hall.
  { intros x Hx ->. subst d tl.
    apply elem_of_cons in Hx as [Hx|Hx].
    - pose proof (N.le_add_r 48 (n mod 10)). lia.
    - destruct (N.eqb (n / 10) 0); [by apply elem_of_nil in Hx|].
      revert Hx. generalize (N.to_nat (N.log2 n)) (n / 10)%N.
      intros f. induction f as [|f IH]; intros k; cbn [digitsRev];
        [by intros ?%elem_of_nil|].
      intros [Hx|Hx]%elem_of_cons.
      + pose proof (N.le_add_r 48 (k mod 10)). lia.
      + destruct (N.eqb (k / 10) 0); [by apply elem_of_nil in Hx|]. by eapply IH. }
  destruct (rev (d :: tl)) as [|c s] eqn:Hr.
  - apply (f_equal length) in Hr. rewrite length_rev in Hr. done.
  - exists c, s. split; [done|]. apply Hall.
    rewrite list_elem_of_In, in_rev, <-list_elem_of_In, Hr. apply list_elem_of_here.
Qed.

Lemma showZ_inj z z' : showZ z = showZ z' → z = z'.
Proof.
  assert (∀ p q, showN (Npos p) = showN (Npos q) → p = q) as Hpos.
  { intros p q H%showN_inj. congruence. }
  assert (∀ n p, showN n ≠ 45%N :: showN p) as Hneg.
  { intros n p H. destruct (showN_head n) as (c & s & Hc & Hne). congruence. }
  destruct z as [|p|p], z' as [|q|q]; cbn [showZ]; intros H; try done;
    first [ by apply showN_inj in H
          | by rewrite (Hpos _ _ H)
          | by destruct (Hneg _ _ H)
          | by destruct (Hneg _ _ (eq_sym H))
          | injection H as H; by rewrite (Hpos _ _ H) ].
Qed.

Lemma timerId_parts p l w o p' l' w' o' :
  timerId p l w o = timerId p' l' w' o' →
  p = p' ∧ l = l' ∧ Moment.unix w = Moment.unix w' ∧ o = o'.
Proof.
  unfold timerId. intros Heq.
  assert ((p ++ [35%N] ++ showN (N.of_nat l) ++ [35%N]
             ++ showZ (Moment.unix w)) ++ 35%N :: showN (N.of_nat o)
          = (p' ++ [35%N] ++ showN (N.of_nat l') ++ [35%N]
               ++ showZ (Moment.unix w')) ++ 35%N :: showN (N.of_nat o'))
    as H1 by (by rewrite <-!app_assoc).
  apply split_hash in H1 as [H1 Ho]; [|apply showN_no_hash..].
  assert ((p ++ [35%N] ++ showN (N.of_nat l)) ++ 35%N :: showZ (Moment.unix w)
          = (p' ++ [35%N] ++ showN (N.of_nat l'))
              ++ 35%N :: showZ (Moment.unix w'))
    as H2 by (by rewrite <-!app_assoc).
  apply split_hash in H2 as [H2 Hw]; [|apply showZ_no_hash..].
  apply split_hash in H2 as [H2 Hl]; [|apply showN_no_hash..].
  apply showN_inj in Ho, Hl. apply showZ_inj in Hw.
  split_and!; [done|lia|done|lia].
Qed.

(** X6. A timer id determines its four components: two ids are equal
    exactly when they have the same path, the same line index, the same
    instant in whole seconds and the same offset, even for a path that
    itself contains the separator. *)
Theorem timerId_inj p l w o p' l' w' o' :
  timerId p l w o = timerId p' l' w' o'
  ↔ p = p' ∧ l = l' ∧ Moment.unix w = Moment.unix w' ∧ o = o'.
Proof.
  split; [apply timerId_parts|].
  intros (-> & -> & Hw & ->). unfold timerId. by rewrite Hw.
Qed.

Lemma first_hash (a b x y : list N) :
  a ++ 35%N :: x = b ++ 35%N :: y → 35%N ∉ a → 35%N ∉ b → a = b ∧ x = y.
Proof.
  revert b. induction a as [|c a IH]; intros [|c' b] Heq Ha Hb; simplify_eq/=.
  - done.
  - exfalso. apply Hb. apply list_elem_of_here.
  - exfalso. apply Ha. apply list_elem_of_here.
  - destruct (IH b) as [H1 H2]; [done| | |by subst].
    + intros ?. apply Ha. by apply list_elem_of_further.
    + intros ?. apply Hb. by apply list_elem_of_further.
Qed.

(** The prefix test of [clearTimersForLine] singles out the ids of the
    line. *)
Lemma linePrefix_match p i l w o :
  startsWith (timerId p l w o) (linePrefix p i) = true ↔ l = i.
Proof.
  rewrite startsWith_spec. unfold timerId, linePrefix. split.
  - intros [t Heq]. rewrite <-!app_assoc in Heq.
    apply app_inv_head in Heq. cbn in Heq. injection Heq as Heq.
    apply first_hash in Heq as [Heq _]; [|apply showN_no_hash..].
    apply showN_inj in Heq. lia.
  - intros ->. eexists. by rewrite <-!app_assoc.
Qed.

(** What the cancelling loop leaves armed. *)
Lemma cancel_fold_armed (X : gset (list N)) (st : plugin) h :
  (∀ id, id ∈ X → timerHandles st !! id ≠ Some h) →
  armed (set_fold cancelId st X) !! h = armed st !! h.
Proof.
  revert X.
  apply (set_fold_ind_L
    (fun (r : plugin) (Y : gset (list N)) =>
       (∀ id, id ∈ Y → timerHandles st !! id ≠ Some h) →
       (∀ id, id ∉ Y → timerHandles r !! id = timerHandles st !! id)
       ∧ armed r !! h = armed st !! h)).
  - done.
  - intros x Y r Hx IH Hall.
    destruct IH as [HT HA].
    { intros id Hid. apply Hall, elem_of_union. by right. }
    unfold cancelId. cbn. split.
    + intros id Hid. rewrite elem_of_union, elem_of_singleton in Hid.
      rewrite lookup_delete_ne by (intros ->; apply Hid; by left).
      apply HT. intros ?. apply Hid. by right.
    + rewrite (HT x Hx).
      destruct (timerHandles st !! x) as [hx|] eqn:Hhx; [|done].
      rewrite lookup_delete_ne; [done|]. intros ->.
      apply (Hall x); [|done]. apply elem_of_union. left.
      by apply elem_of_singleton.
Qed.

End Keys.

(** ** The registry and the window stay in step *)

Section Sync.
Local Open Scope Z_scope.

Lemma synced_same st st' :
  timerHandles st' = timerHandles st → armed st' = armed st →
  synced st → synced st'.
Proof. intros HT HA. unfold synced. by rewrite HT, HA. Qed.

Lemma inv_same st st' :
  timerHandles st' = timerHandles st → fileTimers st' = fileTimers st →
  armed st' = armed st → nextHandle st' = nextHandle st →
  inStep st → inStep st'.
Proof.
  intros HT HF HA HN [Hwf Hs]. split.
  - by eapply wellFormed_same.
  - by eapply synced_same.
Qed.

Lemma inv_initial b : inStep (initial b).
Proof.
  split; [apply wellFormed_initial|].
  split; cbn; intros *; by rewrite lookup_empty.
Qed.

(** A registered handle belongs to one id only. *)
Lemma synced_handle_inj st id id' h :
  synced st → timerHandles st !! id = Some h →
  timerHandles st !! id' = Some h → id = id'.
Proof.
  intros [H1 _] (c & Hc & <-)%H1 (c' & Hc' & <-)%H1. congruence.
Qed.

Lemma inv_schedule now p l w prio ctx o r st :
  inStep st → inStep (scheduleOneReminder now p l w prio ctx o r st).
Proof.
  intros [Hwf Hs]. split; [by apply wellFormed_schedule|].
  unfold scheduleOneReminder. case_bool_decide as Hin; [done|].
  destruct (w - now <=? 0); [done|].
  destruct (MAX_TIMEOUT_MS <? w - now); [done|].
  eapply (synced_same (register _ _ _ st)).
  { unfold noteScheduled. destruct (recentInsert _); [|done]. by case_match. }
  { unfold noteScheduled. destruct (recentInsert _); [|done]. by case_match. }
  destruct Hwf as (_ & _ & HL1 & HL2). destruct Hs as [H1 H2].
  set (id := timerId p l w o) in *. split; cbn.
  - intros id' h [[<- <-]|[Hne Hh]]%lookup_insert_Some.
    + eexists. by rewrite lookup_insert_eq.
    + destruct (H1 _ _ Hh) as (c & Hc & Hid). exists c. split; [|done].
      rewrite lookup_insert_ne; [done|]. intros <-.
      specialize (HL1 _ _ Hh). lia.
  - intros h c [[<- <-]|[Hne Hh]]%lookup_insert_Some.
    + cbn. apply lookup_insert_eq.
    + rewrite lookup_insert_ne; [by apply H2|]. intros Heq.
      apply Hin. exists h. rewrite Heq. by apply H2.
Qed.

(** The cancelling loop of the clearing operations, exactly. *)
Lemma cancel_exact (X : gset (list N)) st :
  synced st →
  (∀ h c, armed (set_fold cancelId st X) !! h = Some c
          ↔ armed st !! h = Some c ∧ closureId c ∉ X)
  ∧ synced (set_fold cancelId st X).
Proof.
  intros [H1 H2].
  destruct (cancel_fold X st) as (HT & _ & _ & _ & _ & _ & _ & HA & HC).
  cbv zeta in HT, HA, HC.
  assert (∀ h c, armed (set_fold cancelId st X) !! h = Some c
                 ↔ armed st !! h = Some c ∧ closureId c ∉ X) as Harmed.
  { intros h c. split.
    - intros Hh. split; [by apply HA|]. intros Hin.
      rewrite (HC _ _ Hin (H2 _ _ (HA _ _ Hh))) in Hh. done.
    - intros [Hh Hnot]. rewrite cancel_fold_armed; [done|].
      intros id Hid Hidh. destruct (H1 _ _ Hidh) as (c' & Hc' & <-).
      congruence. }
  split; [done|]. split.
  - intros id h. rewrite HT. destruct (decide (id ∈ X)) as [|Hnot]; [done|].
    intros (c & Hc & <-)%H1. exists c. split; [|done]. by apply Harmed.
  - intros h c [Hh Hnot]%Harmed. rewrite HT, decide_False by done.
    by apply H2.
Qed.

Lemma inv_clearLine p l st : inStep st → inStep (clearTimersForLine p l st).
Proof.
  intros [Hwf Hs]. split; [by apply wellFormed_clearLine|].
  unfold clearTimersForLine. destruct (fileTimers st !! p); [|done].
  eapply synced_same; [..|by apply cancel_exact]; done.
Qed.

Lemma inv_clearFile p st : inStep st → inStep (clearTimersForFile p st).
Proof.
  intros [Hwf Hs]. split; [by apply wellFormed_clearFile|].
  unfold clearTimersForFile. destruct (fileTimers st !! p); [|done].
  eapply synced_same; [..|by apply cancel_exact]; done.
Qed.

(** Cancelling every registered handle leaves nothing armed when the
    registry and the window agree. *)
Lemma clearAll_removed (th : gmap (list N) positive)
    (a : gmap positive closure) h :
  (∃ id, th !! id = Some h) →
  map_fold (fun _ h a => delete h a) a th !! h = None.
Proof.
  revert th. apply (map_fold_weak_ind
    (fun (r : gmap positive closure) (m : gmap (list N) positive) =>
       (∃ id, m !! id = Some h) → r !! h = None)).
  - intros [id Hid]. by rewrite lookup_empty in Hid.
  - intros id hx m r Hid IH [id' Hid'].
    apply lookup_insert_Some in Hid' as [[_ ->]|[_ Hid']].
    + apply lookup_delete_eq.
    + apply lookup_delete_None. right. apply IH. by exists id'.
Qed.

Lemma clearAll_empty st :
  synced st →
  map_fold (fun _ h a => delete h a) (armed st) (timerHandles st) = ∅.
Proof.
  intros [_ H2]. apply map_eq. intros h. rewrite lookup_empty.
  destruct (map_fold _ _ _ !! h) as [c|] eqn:Hh; [|done].
  pose proof (clearAll_armed _ _ _ _ Hh) as Hc. apply H2 in Hc.
  rewrite clearAll_removed in Hh; [done|]. by eexists.
Qed.

Lemma inv_clearAll st : inStep st → inStep (clearAllTimers st).
Proof.
  intros [Hwf Hs]. split; [by apply wellFormed_clearAll|].
  unfold clearAllTimers. split; cbn.
  - intros *. by rewrite lookup_empty.
  - intros h c. by rewrite clearAll_empty, lookup_empty.
Qed.

Lemma inv_fire now h st : inStep st → inStep (fire now h st).
Proof.
  intros [Hwf Hs]. unfold fire.
  destruct (armed st !! h) as [c|] eqn:Hc; [|done].
  unfold fireEnd, fireFinally.
  set (st1 := Plugin _ _ _ _ _ _ _ _).
  assert (inStep (afterRemoval c st1)) as Hinv.
  { split.
    - apply wellFormed_afterRemoval. subst st1.
      eapply wellFormed_same; [..|apply (wellFormed_fireBegin h), Hwf]; done.
    - destruct Hs as [H1 H2]. pose proof (H2 _ _ Hc) as Hid.
      assert (timerHandles (fireBegin h st) = timerHandles st) as HT.
      { unfold fireBegin. rewrite Hc. by case_match. }
      assert (armed (fireBegin h st) = delete h (armed st)) as HA.
      { unfold fireBegin. rewrite Hc. by case_match. }
      split; cbn; rewrite ?HT, ?HA.
      + intros id h' [Hne Hh']%lookup_delete_Some.
        destruct (H1 _ _ Hh') as (c' & Hc' & <-). exists c'. split; [|done].
        rewrite lookup_delete_ne; [done|]. intros <-. congruence.
      + intros h' c' [Hne Hh']%lookup_delete_Some.
        rewrite lookup_delete_ne; [by apply H2|]. intros Heq.
        apply H2 in Hh'. rewrite <-Heq in Hh'. congruence. }
  destruct (c_recur c); [|done].
  destruct (isSender _); [|done].
  destruct (chainNext _ _ _); [|done].
  by apply inv_schedule.
Qed.

(** What the operations of a rescan preserve, the rescan preserves. *)
Lemma rescanBody_preserves (P : plugin → Prop) p now :
  (∀ e st, P st → P (emit e st)) →
  (∀ l w prio ctx o r st,
     P st → P (scheduleOneReminder now p l w prio ctx o r st)) →
  (∀ l st, P st → P (clearTimersForLine p l st)) →
  ∀ dismiss text hint st,
    P st → P (scheduleFromFileNoClear now dismiss p text hint st).
Proof.
  intros Hemit Hsched Hclear dismiss text hint st HP.
  assert (∀ line i prio os acc, P acc.1 →
            P (fold_left (scheduleMatch now p line i prio hint) os acc).1)
    as Hmatches.
  { intros line i prio os. induction os as [|o os IH]; intros [s f] Hs;
      cbn; [done|]. apply IH. cbn.
    destruct (firstWhen now o); cbn; [by apply Hsched|done|by apply Hemit]. }
  assert (∀ ls acc, P acc.1 →
            P (fold_left (scheduleLine now dismiss p hint) ls acc).1)
    as Hlines.
  { intros ls. induction ls as [|[i line] ls IH]; intros [s f] Hs;
      cbn [fold_left]; [done|]. apply IH. unfold scheduleLine.
    case_match; [by apply Hemit|].
    destruct (parseClockEmojiAll line) as [|o os]; [done|].
    apply Hmatches. cbn. by apply Hclear. }
  unfold scheduleFromFileNoClear. destruct (isSender st); [|done]. cbn.
  specialize (Hlines (imap pair (splitLines text)) (st, false) HP).
  destruct (fold_left _ _ _) as [st' flag]. cbn in Hlines.
  destruct hint; [|done]. destruct flag; [|done].
  destruct (recentInsert st'); [done|]. by apply Hemit.
Qed.

Lemma inv_rescanBody now dismiss p text hint st :
  inStep st → inStep (scheduleFromFileNoClear now dismiss p text hint st).
Proof.
  apply (rescanBody_preserves (fun st => inStep st)).
  - intros e st0 H. by eapply inv_same; [..|exact H].
  - intros *. apply inv_schedule.
  - intros *. apply inv_clearLine.
Qed.

Lemma inv_rescan now dismiss p text hint st :
  inStep st → inStep (scheduleFileFresh now dismiss p text hint st).
Proof.
  intros Hinv. unfold scheduleFileFresh. destruct (isSender st); cbn.
  - by apply inv_rescanBody, inv_clearFile.
  - by apply inv_clearFile.
Qed.

Lemma inv_scanVault dismiss files st :
  inStep st → inStep (scanVault dismiss files st).1.
Proof.
  intros Hinv. unfold scanVault. destruct (isSender st); cbn.
  - revert st Hinv. induction files as [|f files IH]; intros st Hinv;
      cbn; [done|]. by apply IH, inv_rescan.
  - by apply inv_clearAll.
Qed.

Lemma inv_recompute s idn files st :
  inStep st → inStep (recomputeSenderRole s idn files st).
Proof.
  intros Hinv. unfold recomputeSenderRole.
  assert (inStep (setSender (computeIsSender s idn) st)) as H1
    by (by eapply inv_same; [..|exact Hinv]).
  destruct (_ && _)%bool; [by apply inv_clearAll|].
  destruct (_ && _)%bool; [by apply inv_scanVault|done].
Qed.

Lemma inv_turn st st' : turn st st' → inStep st → inStep st'.
Proof.
  intros Hturn Hinv. destruct Hturn.
  - by apply inv_schedule.
  - by apply inv_clearLine.
  - by apply inv_clearFile.
  - by apply inv_clearAll.
  - by apply inv_fire.
  - by apply inv_rescanBody.
  - by apply inv_rescan.
  - by apply inv_scanVault.
  - by apply inv_recompute.
  - by eapply inv_same; [..|exact Hinv].
  - by eapply inv_same; [..|exact Hinv].
Qed.

Lemma inv_attainable st : attainable st → inStep st.
Proof.
  intros [b Hrtc]. revert st Hrtc.
  apply (rtc_ind_r (fun st => inStep st) (initial b)).
  - apply inv_initial.
  - intros y z _ Hturn IH. by eapply inv_turn.
Qed.

(** X7. Whatever the plugin does (registrations, clears, fire callbacks
    that run without interleaving, rescans, vault scans and role changes,
    in any order and at any clock readings), the registry and the window
    agree: every registered id has exactly its own timeout armed under the
    registered handle, and every armed timeout is the one registered for
    its id. So no timeout leaks out of reach of the clearing operations,
    and no id has two timeouts. *)
Theorem no_leaked_timers st :
  attainable st →
  synced st
  ∧ ∀ id id' h, timerHandles st !! id = Some h →
                timerHandles st !! id' = Some h → id = id'.
Proof.
  intros [_ Hs]%inv_attainable. split; [done|].
  intros id id' h. by apply synced_handle_inj.
Qed.

End Sync.

(** ** What the clearing operations cancel, and what they leave *)

Section Frames.

Lemma registered_filed st p l w o :
  wellFormed st → is_Some (timerHandles st !! timerId p l w o) →
  ∃ ids, fileTimers st !! p = Some ids ∧ timerId p l w o ∈ ids.
Proof.
  intros (HK & HC & _) (q & ids & Hq & Hin)%HC.
  destruct (HK _ _ _ Hq Hin) as [_ (l' & w' & o' & Heq)].
  apply timerId_parts in Heq as (-> & _). by exists ids.
Qed.

(** Cancelling the registered ids that [Q] selects. *)
Lemma cancel_frame (X : gset (list N)) (Q : list N → nat → Prop) st :
  synced st →
  (∀ q l w o, timerId q l w o ∈ X
              ↔ Q q l ∧ is_Some (timerHandles st !! timerId q l w o)) →
  (∀ q l w o, Q q l →
     timerHandles (set_fold cancelId st X) !! timerId q l w o = None)
  ∧ (∀ q l w o, ¬ Q q l →
       timerHandles (set_fold cancelId st X) !! timerId q l w o
       = timerHandles st !! timerId q l w o)
  ∧ (∀ h c, armed (set_fold cancelId st X) !! h = Some c
            ↔ armed st !! h = Some c ∧ ¬ Q (c_filePath c) (c_lineIndex c)).
Proof.
  intros Hs HX.
  destruct (cancel_fold X st) as (HT & _). cbv zeta in HT.
  destruct (cancel_exact X st Hs) as [HA _]. split_and!.
  - intros q l w o HQ. rewrite HT. destruct (decide _) as [|Hnot]; [done|].
    destruct (timerHandles st !! _) as [h|] eqn:Hh; [|done].
    destruct Hnot. apply HX. split; [done|]. by rewrite Hh.
  - intros q l w o HQ. rewrite HT. destruct (decide _) as [Hin|]; [|done].
    apply HX in Hin as [? _]. done.
  - intros h c. rewrite HA. split; intros [Hh Hnot]; (split; [done|]).
    + intros HQ. apply Hnot. unfold closureId. apply HX. split; [done|].
      destruct Hs as [_ H2]. pose proof (H2 _ _ Hh) as Hreg.
      unfold closureId in Hreg. by rewrite Hreg.
    + intros Hin. unfold closureId in Hin. apply HX in Hin as [? _]. done.
Qed.

(** The ids that [clearTimersForLine] cancels are the registered ids of
    the line. *)
Lemma clearLine_cancels p i st :
  wellFormed st →
  ∃ X : gset (list N),
    timerHandles (clearTimersForLine p i st)
    = timerHandles (set_fold cancelId st X)
    ∧ armed (clearTimersForLine p i st) = armed (set_fold cancelId st X)
    ∧ ∀ q l w o, timerId q l w o ∈ X
                 ↔ (q = p ∧ l = i)
                   ∧ is_Some (timerHandles st !! timerId q l w o).
Proof.
  intros Hwf.
  exists (match fileTimers st !! p with
          | Some ids =>
              filter (fun id => startsWith id (linePrefix p i) = true) ids
          | None => ∅
          end).
  split_and!.
  - unfold clearTimersForLine.
    destruct (fileTimers st !! p); [done|]. by rewrite set_fold_empty.
  - unfold clearTimersForLine.
    destruct (fileTimers st !! p); [done|]. by rewrite set_fold_empty.
  - intros q l w o. split.
    + destruct (fileTimers st !! p) as [ids|] eqn:Hp;
        [|by intros ?%not_elem_of_empty].
      intros [Hpre Hin]%elem_of_filter.
      destruct Hwf as (HK & _).
      destruct (HK _ _ _ Hp Hin) as [Hreg (l' & w' & o' & Heq)].
      split; [|done]. pose proof Heq as (-> & -> & _)%timerId_parts.
      split; [done|]. by apply linePrefix_match in Hpre.
    + intros [[-> ->] Hreg].
      destruct (registered_filed _ _ _ _ _ Hwf Hreg) as (ids & -> & Hin).
      apply elem_of_filter. split; [|done]. by apply linePrefix_match.
Qed.

(** X8. [clearTimersForLine] cancels the timers of one line and nothing
    else: afterwards no id of that line of that path is registered, every
    other id has the entry it had, and a timeout stays armed exactly when
    it was armed and belongs to another line or another path. *)
Theorem clearTimersForLine_exact p i st :
  inStep st →
  (∀ w o, timerHandles (clearTimersForLine p i st) !! timerId p i w o = None)
  ∧ (∀ q l w o, ¬ (q = p ∧ l = i) →
       timerHandles (clearTimersForLine p i st) !! timerId q l w o
       = timerHandles st !! timerId q l w o)
  ∧ (∀ h c, armed (clearTimersForLine p i st) !! h = Some c
            ↔ armed st !! h = Some c
              ∧ ¬ (c_filePath c = p ∧ c_lineIndex c = i)).
Proof.
  intros [Hwf Hs].
  destruct (clearLine_cancels p i st Hwf) as (X & -> & -> & HX).
  destruct (cancel_frame X (fun q l => q = p ∧ l = i) st Hs HX)
    as (H1 & H2 & H3).
  split_and!; [|done|done]. intros w o. by apply H1.
Qed.

(** X9. [clearTimersForFile] cancels the timers of one path and nothing
    else: the path has no entry in [fileTimers] afterwards and none of its
    ids is registered, the entries of the other paths and their ids are
    untouched, and a timeout stays armed exactly when it was armed and
    belongs to another path. *)
Theorem clearTimersForFile_exact p st :
  inStep st →
  fileTimers (clearTimersForFile p st) = delete p (fileTimers st)
  ∧ (∀ l w o, timerHandles (clearTimersForFile p st) !! timerId p l w o = None)
  ∧ (∀ q l w o, q ≠ p →
       timerHandles (clearTimersForFile p st) !! timerId q l w o
       = timerHandles st !! timerId q l w o)
  ∧ (∀ h c, armed (clearTimersForFile p st) !! h = Some c
            ↔ armed st !! h = Some c ∧ c_filePath c ≠ p).
Proof.
  intros [Hwf Hs].
  set (X := default ∅ (fileTimers st !! p)).
  assert (timerHandles (clearTimersForFile p st)
          = timerHandles (set_fold cancelId st X)
          ∧ armed (clearTimersForFile p st)
            = armed (set_fold cancelId st X)) as [-> ->].
  { unfold clearTimersForFile. subst X.
    destruct (fileTimers st !! p); cbn [from_option]; [done|].
    by rewrite set_fold_empty. }
  split.
  { unfold clearTimersForFile. destruct (fileTimers st !! p) eqn:Hp; cbn.
    - done.
    - by rewrite delete_id. }
  destruct (cancel_frame X (fun q _ => q = p) st Hs) as (H1 & H2 & H3).
  - intros q l w o. subst X. split.
    + destruct (fileTimers st !! p) as [ids|] eqn:Hp;
        [|by intros ?%not_elem_of_empty].
      cbn. intros Hin. destruct Hwf as (HK & _).
      destruct (HK _ _ _ Hp Hin) as [Hreg (l' & w' & o' & Heq)].
      split; [|done]. by apply timerId_parts in Heq as (-> & _).
    + intros [-> Hreg].
      by destruct (registered_filed _ _ _ _ _ Hwf Hreg) as (ids & -> & Hin).
  - split_and!; [|done|done]. intros l w o. by apply (H1 p l).
Qed.

(** X10. When the role turns silent or the plugin is unloaded, every
    reminder timeout is cancelled: after [clearAllTimers], after
    [onunload], and after [recomputeSenderRole] when a sender finds itself
    no longer authorised, both indices are empty and no reminder timeout
    is left armed, so nothing can fire any more. *)
Theorem clearAll_leaves_nothing st s idn files :
  synced st →
  (timerHandles (clearAllTimers st) = ∅ ∧ fileTimers (clearAllTimers st) = ∅
   ∧ armed (clearAllTimers st) = ∅)
  ∧ (timerHandles (onunload st) = ∅ ∧ fileTimers (onunload st) = ∅
     ∧ armed (onunload st) = ∅)
  ∧ (isSender st = true → computeIsSender s idn = false →
     isSender (recomputeSenderRole s idn files st) = false
     ∧ timerHandles (recomputeSenderRole s idn files st) = ∅
     ∧ fileTimers (recomputeSenderRole s idn files st) = ∅
     ∧ armed (recomputeSenderRole s idn files st) = ∅).
Proof.
  intros Hs. pose proof (clearAll_empty st Hs) as Hempty. split_and!; try done.
  intros Hprev Hnew. unfold recomputeSenderRole. rewrite Hprev, Hnew. cbn.
  by rewrite Hempty.
Qed.

End Frames.

(** ** A rescan depends on the text only *)

Section Idempotence.
Local Open Scope Z_scope.

Lemma sameTimers_same p st1 st2 st1' st2' :
  timerHandles st1' = timerHandles st1 → fileTimers st1' = fileTimers st1 →
  timerHandles st2' = timerHandles st2 → fileTimers st2' = fileTimers st2 →
  sameTimers p st1 st2 → sameTimers p st1' st2'.
Proof. intros H1 H2 H3 H4. unfold sameTimers. by rewrite H1, H2, H3, H4. Qed.

Lemma noteScheduled_indices now p l st :
  timerHandles (noteScheduled now p l st) = timerHandles st
  ∧ fileTimers (noteScheduled now p l st) = fileTimers st.
Proof.
  unfold noteScheduled. destruct (recentInsert st); [|done]. by case_match.
Qed.

Lemma sameTimers_schedule now p l w prio ctx o r st1 st2 :
  sameTimers p st1 st2 →
  sameTimers p (scheduleOneReminder now p l w prio ctx o r st1)
               (scheduleOneReminder now p l w prio ctx o r st2).
Proof.
  intros [HF HT]. unfold scheduleOneReminder.
  rewrite (bool_decide_ext _ _ (HT l w o)).
  case_bool_decide; [done|].
  destruct (w - now <=? 0); [done|].
  destruct (MAX_TIMEOUT_MS <? w - now); [done|].
  destruct (noteScheduled_indices now p l
              (register (timerId p l w o) (Closure p l w prio ctx o r)
                 (w - now) st1)) as [E1 E2].
  destruct (noteScheduled_indices now p l
              (register (timerId p l w o) (Closure p l w prio ctx o r)
                 (w - now) st2)) as [E3 E4].
  unfold sameTimers. rewrite E1, E2, E3, E4. cbn. split.
  - by rewrite !lookup_insert_eq, HF.
  - intros l' w' o'.
    destruct (decide (timerId p l w o = timerId p l' w' o')) as [<-|Hne].
    + by rewrite !lookup_insert_eq.
    + rewrite !lookup_insert_ne by done. apply HT.
Qed.

Lemma shrinkEntry_lookup (p : list N) (ids : gset (list N))
    (ft : gmap (list N) (gset (list N))) :
  shrinkEntry p ids ft !! p
  = if bool_decide (size ids = 0%nat) then None else Some ids.
Proof.
  unfold shrinkEntry. case_bool_decide.
  - apply lookup_delete_eq.
  - apply lookup_insert_eq.
Qed.

Lemma sameTimers_clearLine p i st1 st2 :
  sameTimers p st1 st2 →
  sameTimers p (clearTimersForLine p i st1) (clearTimersForLine p i st2).
Proof.
  intros Hs. pose proof Hs as [HF HT]. unfold clearTimersForLine. rewrite <-HF.
  destruct (fileTimers st1 !! p) as [ids|]; [|exact Hs].
  set (hit := filter _ ids).
  destruct (cancel_fold hit st1) as (HT1 & _).
  destruct (cancel_fold hit st2) as (HT2 & _).
  cbv zeta in HT1, HT2. split; cbn.
  - by rewrite !shrinkEntry_lookup.
  - intros l w o. rewrite HT1, HT2. by destruct (decide _).
Qed.

Lemma sameTimers_scheduleMatches now p line i prio h1 h2 os acc1 acc2 :
  sameTimers p acc1.1 acc2.1 →
  sameTimers p (fold_left (scheduleMatch now p line i prio h1) os acc1).1
               (fold_left (scheduleMatch now p line i prio h2) os acc2).1.
Proof.
  revert acc1 acc2. induction os as [|o os IH]; intros [s1 f1] [s2 f2] Hs;
    cbn [fold_left]; [done|].
  apply IH. cbn in *. destruct (firstWhen now o); cbn.
  - by apply sameTimers_schedule.
  - done.
  - by eapply sameTimers_same; [..|exact Hs].
Qed.

Lemma sameTimers_scheduleLines now dismiss p h1 h2 ls acc1 acc2 :
  sameTimers p acc1.1 acc2.1 →
  sameTimers p (fold_left (scheduleLine now dismiss p h1) ls acc1).1
               (fold_left (scheduleLine now dismiss p h2) ls acc2).1.
Proof.
  revert acc1 acc2. induction ls as [|[i line] ls IH];
    intros [s1 f1] [s2 f2] Hs; cbn [fold_left]; [done|].
  apply IH. unfold scheduleLine. cbn in Hs.
  case_match; [by eapply sameTimers_same; [..|exact Hs]|].
  destruct (parseClockEmojiAll line) as [|o os]; [done|].
  apply sameTimers_scheduleMatches. cbn. by apply sameTimers_clearLine.
Qed.

Lemma rescanBody_indices now dismiss p text h st :
  ∃ flag,
    isSender st = true →
    timerHandles (scheduleFromFileNoClear now dismiss p text h st)
    = timerHandles
        (fold_left (scheduleLine now dismiss p h)
           (imap pair (splitLines text)) (st, flag)).1
    ∧ fileTimers (scheduleFromFileNoClear now dismiss p text h st)
      = fileTimers
          (fold_left (scheduleLine now dismiss p h)
             (imap pair (splitLines text)) (st, flag)).1.
Proof.
  exists false. intros Hs. unfold scheduleFromFileNoClear. rewrite Hs. cbn.
  destruct (fold_left _ _ _) as [st' flag]. cbn.
  destruct h; [|done]. destruct flag; [|done].
  by destruct (recentInsert st').
Qed.

Lemma sameTimers_rescanBody now dismiss p text h1 h2 st1 st2 :
  isSender st1 = isSender st2 → sameTimers p st1 st2 →
  sameTimers p (scheduleFromFileNoClear now dismiss p text h1 st1)
               (scheduleFromFileNoClear now dismiss p text h2 st2).
Proof.
  intros Hs Hsame.
  destruct (isSender st1) eqn:H1.
  - destruct (rescanBody_indices now dismiss p text h1 st1) as [f1 E1].
    destruct (rescanBody_indices now dismiss p text h2 st2) as [f2 E2].
    destruct (E1 H1) as [E11 E12]. destruct (E2 (eq_sym Hs)) as [E21 E22].
    unfold sameTimers. rewrite E11, E12, E21, E22.
    by apply sameTimers_scheduleLines.
  - unfold scheduleFromFileNoClear. by rewrite <-Hs, H1.
Qed.

Lemma sameTimers_cleared p st1 st2 :
  wellFormed st1 → wellFormed st2 →
  sameTimers p (clearTimersForFile p st1) (clearTimersForFile p st2).
Proof.
  assert (∀ st, wellFormed st →
            fileTimers (clearTimersForFile p st) !! p = None
            ∧ ∀ l w o, timerHandles (clearTimersForFile p st)
                         !! timerId p l w o = None) as Hclear.
  { intros st Hwf. unfold clearTimersForFile.
    destruct (fileTimers st !! p) as [ids|] eqn:Hp; cbn.
    - split; [apply lookup_delete_eq|]. intros l w o.
      destruct (cancel_fold ids st) as (HT & _). cbv zeta in HT. rewrite HT.
      destruct (decide _) as [|Hnot]; [done|].
      destruct (timerHandles st !! _) as [h|] eqn:Hh; [|done].
      destruct (registered_filed st p l w o Hwf) as (ids' & Hp' & Hin).
      { by rewrite Hh. }
      congruence.
    - split; [done|]. intros l w o.
      destruct (timerHandles st !! _) as [h|] eqn:Hh; [|done].
      destruct (registered_filed st p l w o Hwf) as (ids' & Hp' & Hin).
      { by rewrite Hh. }
      congruence. }
  intros [H1 H2]%Hclear [H3 H4]%Hclear. split; [congruence|].
  intros l w o. by rewrite H2, H4.
Qed.

Lemma clearTimersForFile_role p st :
  isSender (clearTimersForFile p st) = isSender st.
Proof.
  unfold clearTimersForFile. destruct (fileTimers st !! p); [|done]. cbn.
  by destruct (cancel_fold g st) as (_ & _ & ? & _).
Qed.

Lemma rescan_role now dismiss p text h st :
  isSender (scheduleFileFresh now dismiss p text h st) = isSender st.
Proof.
  unfold scheduleFileFresh. destruct (isSender st) eqn:Hs; cbn;
    [|by rewrite clearTimersForFile_role].
  rewrite <-Hs, <-(clearTimersForFile_role p st).
  apply (rescanBody_preserves
           (fun s => isSender s = isSender (clearTimersForFile p st))); try done.
  - intros l w prio ctx o r s Hs'. unfold scheduleOneReminder.
    case_bool_decide; [done|]. destruct (_ <=? _); [done|].
    destruct (_ <? _); [done|]. unfold noteScheduled. cbn.
    destruct (recentInsert s); [|done]. by case_match.
  - intros l s Hs'. unfold clearTimersForLine.
    destruct (fileTimers s !! p) as [ids|]; [|done]. cbn.
    by destruct (cancel_fold
                   (filter (fun id => startsWith id (linePrefix p l) = true) ids)
                   s) as (_ & _ & -> & _).
Qed.

Lemma rescan_same now dismiss p text ha hb sa sb :
  wellFormed sa → wellFormed sb → isSender sa = isSender sb →
  fileTimers (scheduleFileFresh now dismiss p text ha sa) !! p
  = fileTimers (scheduleFileFresh now dismiss p text hb sb) !! p.
Proof.
  intros Ha Hb Hs.
  pose proof (sameTimers_cleared p sa sb Ha Hb) as Hc.
  unfold scheduleFileFresh. rewrite <-Hs. destruct (isSender sa) eqn:Hsa; cbn.
  - apply sameTimers_rescanBody; [|done].
    by rewrite !clearTimersForFile_role, <-Hs.
  - apply Hc.
Qed.

(** X11. What a rescan leaves registered for a document depends on the
    text, the clock reading, the dismissal setting and the role only: from
    any two well-formed states with the same role, with any hints, the
    rescan ends with the same set of ids filed under the document. In
    particular a second rescan of the same text at the same clock reading
    files the same ids again, although it cancels and re-arms their
    timeouts. *)
Theorem rescan_depends_on_text now dismiss p text h1 h2 st1 st2 :
  wellFormed st1 → wellFormed st2 → isSender st1 = isSender st2 →
  fileTimers (scheduleFileFresh now dismiss p text h1 st1) !! p
  = fileTimers (scheduleFileFresh now dismiss p text h2 st2) !! p
  ∧ fileTimers (scheduleFileFresh now dismiss p text h2
                  (scheduleFileFresh now dismiss p text h1 st1)) !! p
    = fileTimers (scheduleFileFresh now dismiss p text h1 st1) !! p.
Proof.
  intros Hwf1 Hwf2 Hs. split; [by apply rescan_same|].
  apply rescan_same; [by apply wellFormed_rescan|done|apply rescan_role].
Qed.

(** *** The timers of the other documents *)

Lemma sameTimers_trans p st1 st2 st3 :
  sameTimers p st1 st2 → sameTimers p st2 st3 → sameTimers p st1 st3.
Proof.
  intros [H1 H2] [H3 H4]. split; [congruence|].
  intros l w o. by rewrite H2.
Qed.

Lemma sameTimers_refl p st : sameTimers p st st.
Proof. by split. Qed.

Lemma shrinkEntry_lookup_ne (p q : list N) (ids : gset (list N))
    (ft : gmap (list N) (gset (list N))) :
  p ≠ q → shrinkEntry q ids ft !! p = ft !! p.
Proof.
  intros Hne. unfold shrinkEntry. case_bool_decide.
  - by apply lookup_delete_ne.
  - by apply lookup_insert_ne.
Qed.

(** Cancelling ids of [q] leaves the timers of [p]. *)
Lemma sameTimers_cancel (p q : list N) (X ids : gset (list N)) (st : plugin)
    (ft : gmap (list N) (gset (list N))) :
  p ≠ q → wellFormed st → fileTimers st !! q = Some ids → X ⊆ ids →
  ft !! p = fileTimers st !! p →
  sameTimers p st (setFileTimers ft (set_fold cancelId st X)).
Proof.
  intros Hne (HK & _) Hq HX Hft. split; cbn; [done|].
  destruct (cancel_fold X st) as (HT & _). cbv zeta in HT.
  intros l w o. rewrite HT. destruct (decide _) as [Hin|]; [|done].
  destruct (HK _ _ _ Hq (HX _ Hin)) as [_ (l' & w' & o' & Heq)].
  by apply timerId_parts in Heq as (-> & _).
Qed.

Lemma rescan_other now dismiss p q text h st :
  p ≠ q → wellFormed st →
  sameTimers p st (scheduleFileFresh now dismiss q text h st).
Proof.
  intros Hne Hwf.
  assert (sameTimers p st (clearTimersForFile q st)) as Hclear.
  { unfold clearTimersForFile.
    destruct (fileTimers st !! q) as [ids|] eqn:Hq; [|apply sameTimers_refl].
    eapply sameTimers_same;
      [..|apply (sameTimers_cancel p q ids ids st (delete q (fileTimers st)))];
      try done.
    by apply lookup_delete_ne. }
  unfold scheduleFileFresh. destruct (isSender st); cbn; [|done].
  assert (wellFormed (clearTimersForFile q st)
          ∧ sameTimers p st (clearTimersForFile q st)) as Hstart
    by (split; [by apply wellFormed_clearFile|done]).
  revert Hstart. generalize (clearTimersForFile q st). intros s Hs.
  apply (rescanBody_preserves
           (fun s => wellFormed s ∧ sameTimers p st s) q now); [| | |exact Hs].
  - intros e s0 [H1 H2]. split; [by apply wellFormed_emit|].
    by eapply sameTimers_same; [..|exact H2].
  - intros l w prio ctx o r s0 [H1 H2].
    split; [by apply wellFormed_schedule|].
    eapply sameTimers_trans; [exact H2|].
    unfold scheduleOneReminder. case_bool_decide; [apply sameTimers_refl|].
    destruct (_ <=? _)%Z; [apply sameTimers_refl|].
    destruct (_ <? _)%Z; [by split|].
    match goal with
    | |- sameTimers _ _ (noteScheduled ?a ?b ?c ?d) =>
        destruct (noteScheduled_indices a b c d) as [E1 E2]
    end.
    unfold sameTimers. rewrite E1, E2. cbn. split.
    + by rewrite lookup_insert_ne.
    + intros l' w' o'. rewrite lookup_insert_ne; [done|].
      by intros (-> & _)%timerId_parts.
  - intros l s0 [H1 H2]. split; [by apply wellFormed_clearLine|].
    eapply sameTimers_trans; [exact H2|].
    unfold clearTimersForLine.
    destruct (fileTimers s0 !! q) as [ids|] eqn:Hq; [|apply sameTimers_refl].
    apply (sameTimers_cancel p q _ ids); try done.
    + intros id [_ ?]%elem_of_filter. done.
    + by apply shrinkEntry_lookup_ne.
Qed.

Lemma scan_other dismiss p files st :
  p ∉ (fun f : Z * list N * list N => f.1.2) <$> files → wellFormed st →
  sameTimers p st
    (fold_left (fun s f => scheduleFileFresh f.1.1 dismiss f.1.2 f.2 None s)
       files st).
Proof.
  revert st. induction files as [|f files IH]; intros st Hnot Hwf;
    cbn [fold_left]; [apply sameTimers_refl|].
  rewrite fmap_cons, not_elem_of_cons in Hnot. destruct Hnot as [Hne Hnot].
  eapply sameTimers_trans; [by apply rescan_other|].
  apply IH; [done|]. by apply wellFormed_rescan.
Qed.

(** X12. A vault scan by a sender leaves for each document the timers
    that a rescan of that document alone leaves: when the paths of the
    scanned files are pairwise different, the ids filed under a path
    after the scan are those a first rescan of that file, at the clock
    reading of its turn, files in a plugin that has no timers. *)
Theorem scanVault_per_file dismiss files st now p text :
  wellFormed st → isSender st = true →
  NoDup ((fun f : Z * list N * list N => f.1.2) <$> files) →
  (now, p, text) ∈ files →
  (scanVault dismiss files st).2 = NoticeScanned
  ∧ fileTimers (scanVault dismiss files st).1 !! p
    = fileTimers (scheduleFileFresh now dismiss p text None (initial true)) !! p.
Proof.
  intros Hwf Hs Hnd Hin. unfold scanVault. rewrite Hs. cbn [negb fst snd].
  split; [done|].
  revert st Hwf Hs. induction files as [|f files IH]; intros st Hwf Hs;
    [by apply elem_of_nil in Hin|].
  rewrite fmap_cons in Hnd. apply NoDup_cons in Hnd as [Hnot Hnd].
  cbn [fold_left].
  apply elem_of_cons in Hin as [<-|Hin].
  - cbn [fst snd] in *.
    destruct (scan_other dismiss p files
                (scheduleFileFresh now dismiss p text None st) Hnot)
      as [<- _]; [by apply wellFormed_rescan|].
    apply rescan_same; [done|apply wellFormed_initial|done].
  - apply IH; [done|done|by apply wellFormed_rescan|].
    by rewrite rescan_role.
Qed.

End Idempotence.

(** ** Instances of the properties of the registry *)

Section RegistryInstances.
Import Examples.
Local Open Scope Z_scope.

Lemma exScanned_attainable : attainable exScanned.
Proof.
  exists true. eapply rtc_l; [|apply rtc_refl].
  apply (TurnRescan exNow exDismiss exPath exText None).
Defined.

Lemma exScanned_inStep : inStep exScanned.
Proof. apply inv_attainable, exScanned_attainable. Defined.

Lemma no_leaked_timers_witness : synced exScanned.
Proof. by destruct (no_leaked_timers exScanned exScanned_attainable). Defined.

Lemma clearTimersForLine_exact_witness :
  timerHandles (clearTimersForLine exPath 0 exScanned)
    !! timerId exPath 1 (Moment.epochMs 2025 9 1 10 0) 2
  = timerHandles exScanned !! timerId exPath 1 (Moment.epochMs 2025 9 1 10 0) 2.
Proof.
  destruct (clearTimersForLine_exact exPath 0 exScanned exScanned_inStep)
    as (_ & Hother & _).
  apply Hother. intros [_ Heq]. discriminate Heq.
Defined.

Lemma clearTimersForFile_exact_witness :
  fileTimers (clearTimersForFile exPath exScanned)
  = delete exPath (fileTimers exScanned).
Proof.
  by destruct (clearTimersForFile_exact exPath exScanned exScanned_inStep).
Defined.

Lemma clearAll_leaves_nothing_witness : armed (clearAllTimers exScanned) = ∅.
Proof.
  destruct exScanned_inStep as [_ Hs].
  by destruct (clearAll_leaves_nothing exScanned
                 (Settings [] [] []) (Identity [] []) [] Hs)
    as ((_ & _ & H) & _).
Defined.

Lemma rescan_depends_on_text_witness :
  fileTimers (scheduleFileFresh exNow exDismiss exPath exText (Some 0%nat)
                exScanned) !! exPath
  = fileTimers exScanned !! exPath.
Proof.
  destruct (rescan_depends_on_text exNow exDismiss exPath exText None
              (Some 0%nat) (initial true) (initial true)) as [_ H].
  - apply wellFormed_initial.
  - apply wellFormed_initial.
  - reflexivity.
  - exact H.
Defined.

Lemma scanVault_per_file_witness :
  fileTimers (scanVault exDismiss [(exNow, exPath, exText)] (initial true)).1
    !! exPath
  = fileTimers exScanned !! exPath.
Proof.
  destruct (scanVault_per_file exDismiss [(exNow, exPath, exText)]
              (initial true) exNow exPath exText) as [_ H].
  - apply wellFormed_initial.
  - reflexivity.
  - apply NoDup_singleton.
  - apply list_elem_of_here.
  - exact H.
Defined.

End RegistryInstances.

(** ** Helpers of the date picker *)

Section Picker.
Local Open Scope Z_scope.

Lemma digitSubsequence_nil hay : digitSubsequence hay [] = true.
Proof. by destruct hay. Qed.

Lemma digitSubsequence_weaken hay :
  (∀ b needle, digitSubsequence hay (b :: needle) = true →
               digitSubsequence hay needle = true)
  ∧ (∀ a needle, digitSubsequence hay needle = true →
                 digitSubsequence (a :: hay) needle = true).
Proof.
  induction hay as [|x hay [IHt IHc]].
  - split; [done|]. intros a [|c needle]; [done|]. cbn. by destruct (N.eqb a c).
  - assert (∀ b needle, digitSubsequence (x :: hay) (b :: needle) = true →
                        digitSubsequence (x :: hay) needle = true) as Ht.
    { intros b needle. cbn [digitSubsequence].
      destruct (N.eqb x b); intros H; [by apply IHc|].
      apply IHc. by apply (IHt b). }
    split; [done|]. intros a [|c needle] H; [done|].
    cbn [digitSubsequence]. destruct (N.eqb a c); [|done]. by apply Ht in H.
Qed.

(** X13. [digitSubsequence hay needle] holds exactly when [needle] can be
    obtained from [hay] by deleting units: the greedy left-to-right scan
    misses no embedding. *)
Theorem digitSubsequence_sublist hay needle :
  digitSubsequence hay needle = true ↔ needle `sublist_of` hay.
Proof.
  split.
  - revert needle. induction hay as [|a hay IH]; intros [|b needle]; cbn;
      try done.
    + intros _. apply sublist_nil_l.
    + destruct (N.eqb_spec a b) as [->|Hne]; intros H.
      * by apply sublist_skip, IH.
      * by apply sublist_cons, IH.
  - intros H. induction H as [|x l1 l2 H IH|x l1 l2 H IH].
    + done.
    + cbn. by rewrite N.eqb_refl.
    + by apply digitSubsequence_weaken.
Qed.

Lemma dayMs_minutes t : (t - t mod 60000) / dayMs = t / dayMs.
Proof.
  unfold dayMs.
  pose proof (Z.mod_pos_bound t 60000 ltac:(lia)).
  pose proof (Z.div_mod t 86400000 ltac:(lia)) as Hd.
  pose proof (Z.mod_pos_bound t 86400000 ltac:(lia)).
  assert (t mod 60000 = (t mod 86400000) mod 60000) as Hm.
  { rewrite Hd at 1. replace (86400000 * (t / 86400000))
      with ((t / 86400000 * 1440) * 60000) by lia.
    rewrite Z.add_comm, Z.mod_add by lia. done. }
  pose proof (Z.mod_le (t mod 86400000) 60000 ltac:(lia) ltac:(lia)).
  symmetry. apply (Z.div_unique _ _ _ (t mod 86400000 - t mod 60000)); lia.
Qed.

(** X14. [nextWeekday]: for a weekday number from 1 (Monday) to 7
    (Sunday), the result falls on that weekday, at the time of day of
    [base] cut to the minute, between 1 and 7 days later, or between 8 and
    13 days later when [forceNext] is set and the weekday is still to come
    in the week of [base]. *)
Theorem nextWeekday_spec base isoWd forceNext :
  1 ≤ isoWd ≤ 7 →
  ∃ delta,
    nextWeekday base isoWd forceNext = startOfMinute base + delta * dayMs
    ∧ isoWeekday (nextWeekday base isoWd forceNext) = isoWd
    ∧ 1 ≤ delta ≤ 13
    ∧ (forceNext = false → delta ≤ 7)
    ∧ (7 < delta ↔ forceNext = true ∧ isoWeekday base < isoWd).
Proof.
  intros Hwd. unfold nextWeekday, Moment.add. cbn [Moment.unitMs].
  set (today := isoWeekday base).
  assert (1 ≤ today ≤ 7) as Htoday.
  { subst today. unfold isoWeekday.
    pose proof (Z.mod_pos_bound (base / dayMs + 3) 7 ltac:(lia)). lia. }
  set (delta := if (_ || _ || _)%bool then _ else _).
  exists delta. change 86400000 with dayMs.
  assert (delta = isoWd - today
          ∨ delta = isoWd - today + 7) as Hcases.
  { subst delta. destruct (_ || _ || _)%bool; auto. }
  assert (1 ≤ delta ≤ 13
          ∧ (forceNext = false → delta ≤ 7)
          ∧ (7 < delta ↔ forceNext = true ∧ today < isoWd)) as (H1 & H2 & H3).
  { subst delta.
    destruct (Z.ltb_spec (isoWd - today) 0), forceNext,
      (Z.eqb_spec (isoWd - today) 0); cbn; split_and!; try lia;
      try (split; [lia|intros [? ?]; first [done|lia]]);
      try (intros; lia); try done. }
  split_and!; try done; try lia.
  unfold isoWeekday. unfold startOfMinute.
  replace ((base - base mod 60000 + delta * dayMs) / dayMs)
    with (base / dayMs + delta).
  - fold today in Htoday. unfold isoWeekday in today.
    destruct Hcases as [-> | ->]; subst today.
    + pose proof (Z.div_mod (base / dayMs + 3) 7 ltac:(lia)).
      set (m := (base / dayMs + 3) mod 7) in *.
      replace (base / dayMs + (isoWd - (m + 1)) + 3)
        with ((isoWd - 1) + ((base / dayMs + 3) / 7) * 7) by lia.
      rewrite Z.mod_add by lia. rewrite Z.mod_small by lia. lia.
    + pose proof (Z.div_mod (base / dayMs + 3) 7 ltac:(lia)).
      set (m := (base / dayMs + 3) mod 7) in *.
      replace (base / dayMs + (isoWd - (m + 1) + 7) + 3)
        with ((isoWd - 1) + ((base / dayMs + 3) / 7 + 1) * 7) by lia.
      rewrite Z.mod_add by lia. rewrite Z.mod_small by lia. lia.
  - rewrite Z.div_add by (unfold dayMs; lia). by rewrite dayMs_minutes.
Qed.

(** X15. [todayAt]: for an hour from 0 to 23 and a minute from 0 to 59 the
    result is the next instant at that time of day that is not before
    [base]: it is not before [base], less than a day after it, and its
    time of day is the one asked for. *)
Theorem todayAt_spec base hh mm :
  0 ≤ hh ≤ 23 → 0 ≤ mm ≤ 59 →
  base ≤ todayAt base hh mm < base + dayMs
  ∧ todayAt base hh mm mod dayMs = hh * 3600000 + mm * 60000.
Proof.
  intros Hh Hm. unfold todayAt, Moment.add. cbn [Moment.unitMs].
  change 86400000 with dayMs.
  pose proof (Z.mod_pos_bound base dayMs ltac:(unfold dayMs; lia)) as Hb.
  pose proof (Z.div_mod base dayMs ltac:(unfold dayMs; lia)) as Hd.
  assert (0 ≤ hh * 3600000 + mm * 60000 < dayMs) as Ht
    by (unfold dayMs; lia).
  set (tod := hh * 3600000 + mm * 60000) in *.
  replace (base - base mod dayMs + hh * 3600000 + mm * 60000)
    with (tod + base / dayMs * dayMs) by lia.
  destruct (Z.ltb_spec (tod + base / dayMs * dayMs) base); split; try lia.
  - replace (tod + base / dayMs * dayMs + 1 * dayMs)
      with (tod + (base / dayMs + 1) * dayMs) by lia.
    rewrite Z.mod_add by (unfold dayMs; lia). by apply Z.mod_small.
  - rewrite Z.mod_add by (unfold dayMs; lia). by apply Z.mod_small.
Qed.

End Picker.

(** ** The cadence of a recurring reminder *)

Section Cadence.
Local Open Scope Z_scope.






End Cadence.

(** ** The trigger of the suggestions *)

Section Trigger.

Lemma onTrigger_sound line ch s e q :
  onTrigger line ch = Some (s, e, q) →
  e = ch ∧ s + S (length q) = ch ∧ (64%N ∉ q)
  ∧ ∃ pre, take ch line = pre ++ 64%N :: q ∧ (ch ≤ length line → length pre = s).
Proof.
  unfold onTrigger. destruct (exec atRe (take ch line)) as [m|] eqn:Hm; [|done].
  pose proof (searchFrom_index _ _ _ _ _ Hm) as Hidx. cbn in Hidx.
  apply exec_sound, matchAt_sound in Hm as (Hi & st' & Hend & H).
  intros [= <- <- <-]. span_inv H. subst. cbn in *.
  repeat match goal with
         | H : rest ?x = _, H' : context [rest ?x] |- _ => rewrite H in H'
         end.
  match goal with H : groups m = _ |- _ => rewrite H end.
  match goal with H : drop _ _ = _ |- _ => rename H into Hdrop end.
  match goal with H : Forall _ _ |- _ => rename H into Hw end.
  match goal with H : pos _ = S _ |- _ => rename H into Hpos end.
  rewrite app_nil_r in *. subst x2.
  replace (pos x3 - S (index m)) with (length x6) by lia.
  cbn. rewrite firstn_all.
  assert (length (take ch line) = index m + S (length x6)) as Hlen.
  { rewrite <-(take_drop (index m) (take ch line)) at 1.
    rewrite length_app, Hdrop, length_take. cbn. lia. }
  pose proof (length_take_le line ch) as Hch.
  rewrite length_take in Hlen.
  split_and!; [done|lia| |].
  - intros Hin. rewrite Forall_forall in Hw. apply Hw in Hin. done.
  - exists (take (index m) (take ch line)). split.
    + by rewrite <-Hdrop, take_drop.
    + intros Hle. rewrite !length_take. lia.
Qed.

Lemma onTrigger_complete line ch :
  64%N ∈ take ch line → is_Some (onTrigger line ch).
Proof.
  intros (pre & q & Heq & Hq)%list_elem_of_split_r.
  assert (is_Some (exec atRe (take ch line))) as [m Hm].
  { apply exec_is_Some. exists (length pre). eexists _, _.
    split; [rewrite Heq, length_app; lia|].
    unfold stateAt. rewrite Heq, drop_app_length.
    eapply span_seq; [by apply span_cls|].
    eapply span_seq.
    { eexists. split; [|done].
      rewrite <-(app_nil_r q) at 1. apply span_many.
      apply Forall_forall. intros c Hc. apply negb_true_iff, N.eqb_neq.
      by intros ->. }
    eapply span_seq; [|done]. done. }
  unfold onTrigger. by rewrite Hm.
Qed.

(** X19. [onTrigger] opens the suggestions exactly when the text before
    the cursor holds an at sign. The query is then the text between the
    last at sign before the cursor and the cursor (so it holds no at
    sign), and the span to replace runs from that at sign to the
    cursor. *)
Theorem onTrigger_spec line ch :
  (onTrigger line ch = None ↔ 64%N ∉ take ch line)
  ∧ ∀ s e q, onTrigger line ch = Some (s, e, q) →
      e = ch ∧ s + S (length q) = ch ∧ (64%N ∉ q)
      ∧ ∃ pre, take ch line = pre ++ 64%N :: q
               ∧ (ch ≤ length line → length pre = s).
Proof.
  split; [|intros s e q; apply onTrigger_sound].
  split.
  - intros Hnone Hin. apply onTrigger_complete in Hin as [? Hsome]. congruence.
  - intros Hnot. destruct (onTrigger line ch) as [[[s e] q]|] eqn:Ht; [|done].
    apply onTrigger_sound in Ht as (_ & _ & _ & pre & Heq & _).
    destruct Hnot. rewrite Heq. apply elem_of_app. right. apply list_elem_of_here.
Qed.

End Trigger.

(** ** The debounce of rescans *)

Section Debouncing.

(** Handles in use were handed out before [nextRescan]. *)
Lemma debounce_invariant ops :
  let d := fold_left applyOp ops noRescans in
  paired d
  ∧ ∀ h x, armedRescans d !! h = Some x → (h < nextRescan d)%positive.
Proof.
  cbv zeta. induction ops as [|o ops IH] using rev_ind.
  - unfold paired, noRescans. split; cbn.
    + intros h path hint. by rewrite !lookup_empty.
    + intros h x. by rewrite lookup_empty.
  - rewrite fold_left_app. cbn [fold_left].
    set (d := fold_left applyOp ops noRescans) in *.
    destruct IH as [Hp Hfresh]. destruct o as [b path hint|h]; cbn [applyOp].
    + unfold queueReschedule. destruct b; cbn [negb]; [|done].
      set (armed1 := match pendingRescans d !! path with
                     | Some prev => delete (p_handle prev) (armedRescans d)
                     | None => armedRescans d
                     end).
      assert (∀ h q x, armed1 !! h = Some (q, x)
                       ↔ armedRescans d !! h = Some (q, x) ∧ q ≠ path)
        as Harmed1.
      { intros h q x. subst armed1.
        destruct (pendingRescans d !! path) as [[hp xp]|] eqn:Hpath; cbn.
        - apply Hp in Hpath. rewrite lookup_delete_Some. split.
          + intros [Hne Hh]. split; [done|]. intros ->.
            apply Hp in Hh. apply Hp in Hpath. rewrite Hh in Hpath.
            by simplify_eq.
          + intros [Hh Hne]. split; [|done]. intros <-. congruence.
        - split; [|by intros [? _]]. intros Hh. split; [done|]. intros ->.
          apply Hp in Hh. congruence. }
      unfold paired. split; cbn.
      * intros h q x. rewrite !lookup_insert_Some. split.
        -- intros [[<- [= <- <-]]|[Hne Hh]]; [by left|].
           apply Harmed1 in Hh as [Hh Hq]. right. split; [done|].
           by apply Hp.
        -- intros [[<- [= <- <-]]|[Hne Hq]]; [by left|].
           right. apply Hp in Hq. split.
           ++ intros <-. apply Hfresh in Hq. lia.
           ++ by apply Harmed1.
      * intros h x [[<- _]|[_ Hh]]%lookup_insert_Some; [lia|].
        destruct x as [q x]. apply Harmed1 in Hh as [Hh _].
        apply Hfresh in Hh. lia.
    + unfold rescanDue.
      destruct (armedRescans d !! h) as [[path hint]|] eqn:Hh; cbn; [|done].
      unfold paired. split; cbn.
      * intros h' q x. rewrite !lookup_delete_Some. split.
        -- intros [Hne Hh']. split; [|by apply Hp]. intros <-.
           apply Hp in Hh, Hh'. rewrite Hh in Hh'. by simplify_eq.
        -- intros [Hne Hq]. split; [|by apply Hp]. intros <-.
           apply Hp in Hq. congruence.
      * intros h' x [_ Hh']%lookup_delete_Some. by eapply Hfresh.
Qed.

(** X20. However edits and expiries of the debounce timeouts interleave,
    a document has at most one rescan pending: the timeouts armed are
    exactly the entries of [pendingRescans]. An edit by a sender replaces
    the pending rescan of its document by a new one that carries the hint
    of this edit, and leaves the pending rescans of the other documents
    as they are. *)
Theorem debounce_single ops path hint :
  let d := fold_left applyOp ops noRescans in
  let d' := queueReschedule true path hint d in
  paired d'
  ∧ (∀ h x, armedRescans d' !! h = Some (path, x)
            ↔ h = nextRescan d ∧ x = hint)
  ∧ (∀ h q x, q ≠ path →
       armedRescans d' !! h = Some (q, x) ↔ armedRescans d !! h = Some (q, x)).
Proof.
  cbv zeta.
  destruct (debounce_invariant (ops ++ [Edit true path hint])) as [Hp' _].
  rewrite fold_left_app in Hp'. cbn [fold_left applyOp] in Hp'.
  destruct (debounce_invariant ops) as [Hp Hfresh]. cbv zeta in Hp, Hfresh.
  set (d := fold_left applyOp ops noRescans) in *.
  split; [done|]. split.
  - intros h x. rewrite (Hp' h path x). unfold queueReschedule. cbn.
    rewrite lookup_insert_eq. split; [by intros [= <- <-]|by intros [-> ->]].
  - intros h q x Hne. rewrite (Hp' h q x), (Hp h q x).
    unfold queueReschedule. cbn. by rewrite lookup_insert_ne.
Qed.

End Debouncing.

(** ** The allow-lists *)

Section Lists.
Local Open Scope Z_scope.

Lemma splitOn_cons sep s : ∃ w ws, splitOn sep s = w :: ws.
Proof.
  induction s as [|c s (w & ws & IH)]; cbn; [by eexists _, _|].
  destruct (N.eqb c sep); [by eexists _, _|]. rewrite IH. by eexists _, _.
Qed.

Lemma splitOn_app sep (a s : list N) :
  sep ∉ a → splitOn sep (a ++ sep :: s) = a :: splitOn sep s.
Proof.
  induction a as [|c a IH]; intros Hnot; cbn.
  - by rewrite N.eqb_refl.
  - apply not_elem_of_cons in Hnot as [Hne Hnot].
    destruct (N.eqb_spec c sep) as [->|_]; [done|]. by rewrite IH.
Qed.

Lemma splitOn_whole sep (a : list N) : sep ∉ a → splitOn sep a = [a].
Proof.
  induction a as [|c a IH]; intros Hnot; cbn; [done|].
  apply not_elem_of_cons in Hnot as [Hne Hnot].
  destruct (N.eqb_spec c sep) as [->|_]; [done|]. by rewrite IH.
Qed.

Lemma splitOn_no_sep sep s w : w ∈ splitOn sep s → sep ∉ w.
Proof.
  revert w. induction s as [|c s IH]; intros w; cbn.
  - intros ->%list_elem_of_singleton. apply not_elem_of_nil.
  - destruct (N.eqb_spec c sep) as [->|Hne].
    + intros [->|Hin]%elem_of_cons; [apply not_elem_of_nil|by apply IH].
    + destruct (splitOn_cons sep s) as (w0 & ws & Heq). rewrite Heq in *.
      intros [->|Hin]%elem_of_cons.
      * apply not_elem_of_cons. split; [done|]. apply IH, list_elem_of_here.
      * by apply IH, list_elem_of_further.
Qed.

Lemma trimStart_subset c s : c ∈ trimStart s → c ∈ s.
Proof.
  induction s as [|x s IH]; cbn; [done|].
  destruct (isSpace x); [|done]. intros H. by apply list_elem_of_further, IH.
Qed.

Lemma trim_subset c s : c ∈ trim s → c ∈ s.
Proof.
  unfold trim, trimEnd. rewrite list_elem_of_In, <-in_rev, <-list_elem_of_In.
  intros H%trimStart_subset.
  apply trimStart_subset. by rewrite list_elem_of_In, in_rev, <-list_elem_of_In.
Qed.

(** X21. [parseList] reads a comma-separated list piece by piece: a piece
    contributes its trimmed text when that is not empty, and nothing
    otherwise. So every entry is non-empty, begins and ends with a unit
    that is no white space, and holds no comma. *)
Theorem parseList_spec e s :
  44%N ∉ e →
  parseList (e ++ 44%N :: s)
  = (if nonEmpty (trim e) then [trim e] else []) ++ parseList s
  ∧ parseList e = (if nonEmpty (trim e) then [trim e] else [])
  ∧ ∀ x, x ∈ parseList s →
      (44%N ∉ x) ∧ trim x = x
      ∧ ∃ c r d, x = c :: r ∧ isSpace c = false
                 ∧ last x = Some d ∧ isSpace d = false.
Proof.
  intros Hnot. unfold parseList. split_and!.
  - rewrite splitOn_app by done. cbn. by destruct (nonEmpty (trim e)).
  - rewrite splitOn_whole by done. cbn. by destruct (nonEmpty (trim e)).
  - intros x. rewrite list_elem_of_In, filter_In, <-list_elem_of_In.
    intros [(w & -> & Hw)%list_elem_of_fmap Hne]. split_and!.
    + intros Hin%trim_subset. by apply splitOn_no_sep in Hw.
    + apply trim_idemp.
    + destruct (trim_shape w) as [Hnil|(c & r & d & Heq & Hc & Hl & Hd)].
      * by rewrite Hnil in Hne.
      * by exists c, r, d.
Qed.

Lemma parseList_spec_witness :
  parseList (lit " alpha , ,beta")
  = [lit "alpha"] ++ parseList (lit " ,beta").
Proof.
  destruct (parseList_spec (lit " alpha ") (lit " ,beta")) as [H _].
  - by apply (bool_decide_unpack _).
  - exact H.
Defined.

End Lists.

(** ** Dotted quads *)

Section Quads.
Local Open Scope Z_scope.

Lemma take_run (c : N) (w r : list N) k :
  k = S (length w) → take k (c :: w ++ r) = c :: w.
Proof. intros ->. cbn. by rewrite take_app_length. Qed.

Lemma first_unit (u : N) (a b x y : list N) :
  a ++ u :: x = b ++ u :: y → u ∉ a → u ∉ b → a = b ∧ x = y.
Proof.
  revert b. induction a as [|c a IH]; intros [|c' b] Heq Ha Hb; simplify_eq/=.
  - done.
  - exfalso. apply Hb. apply list_elem_of_here.
  - exfalso. apply Ha. apply list_elem_of_here.
  - destruct (IH b) as [H1 H2]; [done| | |by subst].
    + intros ?. apply Ha. by apply list_elem_of_further.
    + intros ?. apply Hb. by apply list_elem_of_further.
Qed.

Lemma digits_no_unit (u : N) (s : list N) :
  isDigit u = false → Forall (fun c => isDigit c = true) s → u ∉ s.
Proof.
  intros Hu Hs Hin. rewrite Forall_forall in Hs. apply Hs in Hin. congruence.
Qed.

(** What a match of the quad expression captures. *)
Lemma quad_groups ip m :
  exec quadRe ip = Some m →
  ∃ s0 s1 s2 s3,
    (group 1 (groups m) = Some s0 ∧ group 2 (groups m) = Some s1
     ∧ group 3 (groups m) = Some s2 ∧ group 4 (groups m) = Some s3)
    ∧ ip = s0 ++ [46%N] ++ s1 ++ [46%N] ++ s2 ++ [46%N] ++ s3
    ∧ Forall (fun s => s ≠ [] ∧ Forall (fun c => isDigit c = true) s)
        [s0; s1; s2; s3].
Proof.
  intros Hm.
  apply exec_sound, matchAt_sound in Hm as (Hi & st' & Hend & H).
  span_inv H. subst. cbn in *.
  match goal with H : index m = 0%nat |- _ => rewrite H in * end.
  rewrite drop_0 in *.
  repeat match goal with
         | H : rest ?x = _, H' : context [rest ?x] |- _ => rewrite H in H'
         end.
  match goal with H : groups m = _ |- _ => rewrite H end.
  subst. cbn [group Nat.eqb].
  repeat match goal with
         | |- context [take ?k (?c :: ?w ++ ?r)] =>
             rewrite (take_run c w r k) by lia
         end.
  eexists _, _, _, _. split; [done|]. split.
  - by rewrite app_nil_r.
  - repeat (constructor; [split; [done|by constructor]|]). constructor.
Qed.

Lemma quad_unique s0 s1 s2 s3 t0 t1 t2 t3 :
  s0 ++ [46%N] ++ s1 ++ [46%N] ++ s2 ++ [46%N] ++ s3
  = t0 ++ [46%N] ++ t1 ++ [46%N] ++ t2 ++ [46%N] ++ t3 →
  Forall (fun s => s ≠ [] ∧ Forall (fun c => isDigit c = true) s)
    [s0; s1; s2; s3] →
  Forall (fun s => s ≠ [] ∧ Forall (fun c => isDigit c = true) s)
    [t0; t1; t2; t3] →
  s0 = t0 ∧ s1 = t1 ∧ s2 = t2 ∧ s3 = t3.
Proof.
  intros Heq Hs Ht.
  apply Forall_cons in Hs as [[_ H0] Hs]. apply Forall_cons in Hs as [[_ H1] Hs].
  apply Forall_cons in Hs as [[_ H2] Hs]. apply Forall_cons in Hs as [[_ H3] _].
  apply Forall_cons in Ht as [[_ G0] Ht]. apply Forall_cons in Ht as [[_ G1] Ht].
  apply Forall_cons in Ht as [[_ G2] Ht]. apply Forall_cons in Ht as [[_ G3] _].
  cbn in Heq.
  apply first_unit in Heq as [-> Heq]; [|by apply digits_no_unit..].
  apply first_unit in Heq as [-> Heq]; [|by apply digits_no_unit..].
  apply first_unit in Heq as [-> ->]; [|by apply digits_no_unit..].
  done.
Qed.

Lemma quad_value v0 v1 v2 v3 :
  (forallb (fun n => negb ((n <? 0) || (255 <? n))) [v0; v1; v2; v3] = true
   ↔ (0 ≤ v0 ≤ 255 ∧ 0 ≤ v1 ≤ 255 ∧ 0 ≤ v2 ≤ 255 ∧ 0 ≤ v3 ≤ 255))
  ∧ (0 ≤ v0 ≤ 255 → 0 ≤ v1 ≤ 255 → 0 ≤ v2 ≤ 255 →
     ushr (shl v0 24) 0 + shl v1 16 + shl v2 8 + v3
     = v0 * 2 ^ 24 + v1 * 2 ^ 16 + v2 * 2 ^ 8 + v3).
Proof.
  split.
  - cbn. rewrite !andb_true_iff, !negb_true_iff, !orb_false_iff, !Z.ltb_ge. lia.
  - intros H0 H1 H2.
    destruct (octet_shifts v0 H0) as (-> & _).
    destruct (octet_shifts v1 H1) as (_ & -> & _).
    by destruct (octet_shifts v2 H2) as (_ & _ & ->).
Qed.

Lemma digitsValue_nonneg s :
  Forall (fun c => isDigit c = true) s → 0 ≤ digitsValue s.
Proof.
  intros Hs. unfold digitsValue.
  assert (∀ a, 0 ≤ a →
            0 ≤ fold_left (fun acc c => 10 * acc + (Z.of_N c - 48)) s a) as H;
    [|by apply H].
  induction Hs as [|c s Hc Hs IH]; intros a Ha; cbn; [done|].
  apply IH. unfold isDigit, inRange in Hc.
  apply andb_true_iff in Hc as [Hc _]. apply N.leb_le in Hc. lia.
Qed.

Lemma ipv4ToInt_quad ip n : ipv4ToInt ip = Some n ↔ dottedQuad ip n.
Proof.
  split.
  - unfold ipv4ToInt. destruct (exec quadRe ip) as [m|] eqn:Hm; [|done].
    destruct (quad_groups ip m Hm)
      as (s0 & s1 & s2 & s3 & (-> & -> & -> & ->) & Hip & Hs).
    destruct (quad_value (digitsValue s0) (digitsValue s1) (digitsValue s2)
                (digitsValue s3)) as [Hall Hval].
    destruct (forallb _ _); [|done]. intros [= <-].
    destruct Hall as [Hall _]. specialize (Hall eq_refl).
    exists s0, s1, s2, s3, (digitsValue s0), (digitsValue s1),
      (digitsValue s2), (digitsValue s3).
    apply Forall_cons in Hs as [[? ?] Hs]. apply Forall_cons in Hs as [[? ?] Hs].
    apply Forall_cons in Hs as [[? ?] Hs]. apply Forall_cons in Hs as [[? ?] _].
    split_and!; try done; try (unfold octet; split_and!; try done; lia).
    apply Hval; lia.
  - intros (s0 & s1 & s2 & s3 & v0 & v1 & v2 & v3 & Hip
            & (N0 & D0 & <- & L0) & (N1 & D1 & <- & L1)
            & (N2 & D2 & <- & L2) & (N3 & D3 & <- & L3) & ->).
    assert (is_Some (exec quadRe ip)) as [m Hm].
    { destruct s0 as [|c0 s0]; [done|]. destruct s1 as [|c1 s1]; [done|].
      destruct s2 as [|c2 s2]; [done|]. destruct s3 as [|c3 s3]; [done|].
      apply Forall_cons in D0 as [? ?]. apply Forall_cons in D1 as [? ?].
      apply Forall_cons in D2 as [? ?]. apply Forall_cons in D3 as [? ?].
      apply exec_is_Some. exists 0%nat. eexists _, _. split; [lia|].
      unfold stateAt. rewrite drop_0, Hip. cbn [take last].
      eapply span_seq; [hnf; split; [reflexivity|split; reflexivity]|].
      eapply span_seq.
      { eexists. split; [|done].
        eapply span_seq; [by apply span_cls|by apply span_many]. }
      eapply span_seq; [eapply span_seq; [by apply span_cls|by split]|].
      eapply span_seq.
      { eexists. split; [|done].
        eapply span_seq; [by apply span_cls|by apply span_many]. }
      eapply span_seq; [eapply span_seq; [by apply span_cls|by split]|].
      eapply span_seq.
      { eexists. split; [|done].
        eapply span_seq; [by apply span_cls|by apply span_many]. }
      eapply span_seq; [eapply span_seq; [by apply span_cls|by split]|].
      eapply span_seq.
      { eexists. split; [|done].
        eapply span_seq; [by apply span_cls|].
        rewrite <-(app_nil_r s3) at 1. by apply span_many. }
      eapply span_seq; [|by split]. hnf. split; [reflexivity|split; reflexivity]. }
    unfold ipv4ToInt. rewrite Hm.
    destruct (quad_groups ip m Hm)
      as (t0 & t1 & t2 & t3 & (-> & -> & -> & ->) & Hip' & Ht).
    rewrite Hip in Hip'.
    apply quad_unique in Hip' as (<- & <- & <- & <-); [|
      by repeat (constructor; [done|])|done].
    pose proof (digitsValue_nonneg s0 D0). pose proof (digitsValue_nonneg s1 D1).
    pose proof (digitsValue_nonneg s2 D2). pose proof (digitsValue_nonneg s3 D3).
    destruct (quad_value (digitsValue s0) (digitsValue s1) (digitsValue s2)
                (digitsValue s3)) as [Hall Hval].
    destruct Hall as [_ Hall]. rewrite Hall by lia. f_equal. apply Hval; lia.
Qed.

(** X22. [ipv4ToInt] accepts exactly the dotted quads: four non-empty runs
    of decimal digits separated by dots, each of a value up to 255 (leading
    zeros are read as decimal), with nothing before or after; the result is
    the value of the quad as a number below two to the 32. Any other text,
    and any quad with an octet above 255, gives null. *)
Theorem ipv4ToInt_spec ip n :
  (ipv4ToInt ip = Some n ↔ dottedQuad ip n)
  ∧ (ipv4ToInt ip = None ↔ ∀ k, ¬ dottedQuad ip k).
Proof.
  split; [apply ipv4ToInt_quad|]. split.
  - intros Hnone k Hk%ipv4ToInt_quad. congruence.
  - intros Hno. destruct (ipv4ToInt ip) as [k|] eqn:Hk; [|done].
    apply ipv4ToInt_quad in Hk. by destruct (Hno k).
Qed.

(** *** How an entry of the address list is read *)

Lemma span_digits1 pv c w r i cs :
  isDigit c = true → Forall (fun c => isDigit c = true) w →
  span digits1 (MState pv (c :: w ++ r) i) cs
       (MState (from_option Some (Some c) (last w)) r (S i + length w)) cs.
Proof.
  intros Hc Hw. eapply span_seq; [by apply span_cls|by apply span_many].
Qed.

Lemma span_unit u pv r i cs :
  span (Regex.unit u) (MState pv (u :: r) i) cs (MState (Some u) r (S i)) cs.
Proof. apply span_cls. apply N.eqb_refl. Qed.

Lemma span_dot pv r i cs :
  span dot (MState pv (46%N :: r) i) cs (MState (Some 46%N) r (S i)) cs.
Proof. eapply span_seq; [apply span_unit|by split]. Qed.

Lemma span_slash pv r i cs :
  span (str "/") (MState pv (47%N :: r) i) cs (MState (Some 47%N) r (S i)) cs.
Proof. eapply span_seq; [apply span_unit|by split]. Qed.

Lemma quad_units q v c :
  dottedQuad q v → c ∈ q → isDigit c = true ∨ c = 46%N.
Proof.
  intros (s0 & s1 & s2 & s3 & v0 & v1 & v2 & v3 & -> & (_ & D0 & _)
          & (_ & D1 & _) & (_ & D2 & _) & (_ & D3 & _) & _).
  rewrite Forall_forall in D0, D1, D2, D3.
  rewrite !elem_of_app, !list_elem_of_singleton.
  intros [?|[?|[?|[?|[?|[?|?]]]]]]; auto.
Qed.

Lemma quad_no_slash q v : dottedQuad q v → 47%N ∉ q.
Proof. intros Hq Hin. by destruct (quad_units q v _ Hq Hin). Qed.

Lemma quad_not_cidr q v : dottedQuad q v → test cidrRe q = false.
Proof.
  intros Hq. destruct (test cidrRe q) eqn:Ht; [|done]. exfalso.
  apply test_span in Ht as (i & st' & cs' & _ & H).
  span_inv H. subst. cbn in *.
  repeat match goal with
         | H : rest ?x = _, H' : context [rest ?x] |- _ => rewrite H in H'
         end.
  subst. apply (quad_no_slash q v Hq).
  match goal with
  | H : drop ?j q = _ |- _ => rewrite <-(take_drop j q), H
  end.
  apply elem_of_app. right.
  repeat first [ apply list_elem_of_here
               | apply list_elem_of_further
               | apply elem_of_app; right ].
Qed.

Lemma quad_exact q v : dottedQuad q v → test exactRe q = true.
Proof.
  intros (s0 & s1 & s2 & s3 & v0 & v1 & v2 & v3 & -> & (N0 & D0 & _)
          & (N1 & D1 & _) & (N2 & D2 & _) & (N3 & D3 & _) & _).
  destruct s0 as [|c0 s0]; [done|]. destruct s1 as [|c1 s1]; [done|].
  destruct s2 as [|c2 s2]; [done|]. destruct s3 as [|c3 s3]; [done|].
  apply Forall_cons in D0 as [? ?]. apply Forall_cons in D1 as [? ?].
  apply Forall_cons in D2 as [? ?]. apply Forall_cons in D3 as [? ?].
  rewrite <-(app_nil_r s3).
  apply test_true, exec_is_Some. exists 0%nat. eexists _, _. split; [lia|].
  unfold stateAt. rewrite drop_0. cbn [take last app].
  eapply span_seq; [hnf; split; [reflexivity|split; reflexivity]|].
  eapply span_seq; [by apply span_digits1|].
  eapply span_seq; [apply span_dot|].
  eapply span_seq; [by apply span_digits1|].
  eapply span_seq; [apply span_dot|].
  eapply span_seq; [by apply span_digits1|].
  eapply span_seq; [apply span_dot|].
  eapply span_seq; [by apply span_digits1|].
  eapply span_seq; [|by split]. hnf. split; [reflexivity|split; reflexivity].
Qed.

Lemma quad_cidr q v c ds :
  dottedQuad q v → isDigit c = true → Forall (fun c => isDigit c = true) ds →
  test cidrRe (q ++ 47%N :: c :: ds) = true.
Proof.
  intros (s0 & s1 & s2 & s3 & v0 & v1 & v2 & v3 & -> & (N0 & D0 & _)
          & (N1 & D1 & _) & (N2 & D2 & _) & (N3 & D3 & _) & _) Hc Hds.
  destruct s0 as [|c0 s0]; [done|]. destruct s1 as [|c1 s1]; [done|].
  destruct s2 as [|c2 s2]; [done|]. destruct s3 as [|c3 s3]; [done|].
  apply Forall_cons in D0 as [? ?]. apply Forall_cons in D1 as [? ?].
  apply Forall_cons in D2 as [? ?]. apply Forall_cons in D3 as [? ?].
  rewrite <-(app_nil_r ds).
  apply test_true, exec_is_Some. exists 0%nat. eexists _, _. split; [lia|].
  unfold stateAt. rewrite drop_0. rewrite <-?app_assoc. cbn [take last app].
  rewrite <-?app_assoc. cbn [app].
  eapply span_seq; [hnf; split; [reflexivity|split; reflexivity]|].
  eapply span_seq; [by apply span_digits1|].
  eapply span_seq; [apply span_dot|].
  eapply span_seq; [by apply span_digits1|].
  eapply span_seq; [apply span_dot|].
  eapply span_seq; [by apply span_digits1|].
  eapply span_seq; [apply span_dot|].
  eapply span_seq; [by apply span_digits1|].
  eapply span_seq; [apply span_slash|].
  eapply span_seq; [by apply span_digits1|].
  eapply span_seq; [|by split]. hnf. split; [reflexivity|split; reflexivity].
Qed.

(** X23. How [parseIPRules] reads an entry that is a dotted quad: the quad
    alone gives the exact rule of its value, and the quad followed by a
    slash and a run of digits gives the CIDR rule of its value whose prefix
    length is the number written, or 32 when the number is larger. *)
Theorem parseIPRule_quad q v c ds :
  dottedQuad q v → isDigit c = true → Forall (fun c => isDigit c = true) ds →
  parseIPRule q = [Exact v q]
  ∧ parseIPRule (q ++ 47%N :: c :: ds)
    = [Cidr v (maskOf (Z.min 32 (digitsValue (c :: ds))))
         (Z.min 32 (digitsValue (c :: ds)))].
Proof.
  intros Hq Hc Hds. pose proof Hq as Hv%ipv4ToInt_quad. split.
  - unfold parseIPRule.
    by rewrite (quad_not_cidr q v Hq), (quad_exact q v Hq), Hv.
  - unfold parseIPRule. rewrite (quad_cidr q v c ds Hq Hc Hds).
    rewrite splitOn_app by (by eapply quad_no_slash).
    rewrite splitOn_whole.
    + rewrite Hv. unfold clampInt. rewrite parseInt_digits by done.
      pose proof (digitsValue_nonneg (c :: ds) ltac:(by constructor)).
      by rewrite Z.max_r by lia.
    + apply digits_no_unit; [done|by constructor].
Qed.

End Quads.

(** ** Instances of the properties of the helpers *)

Section HelperInstances.
Import Examples.
Local Open Scope Z_scope.

Lemma nextWeekday_spec_witness :
  isoWeekday (nextWeekday (Moment.epochMs 2025 9 1 8 0) 5 true) = 5.
Proof.
  destruct (nextWeekday_spec (Moment.epochMs 2025 9 1 8 0) 5 true ltac:(lia))
    as (delta & _ & H & _).
  exact H.
Defined.

Lemma todayAt_spec_witness :
  todayAt (Moment.epochMs 2025 9 1 18 30) 17 0 mod dayMs
  = 17 * 3600000 + 0 * 60000.
Proof.
  destruct (todayAt_spec (Moment.epochMs 2025 9 1 18 30) 17 0
              ltac:(lia) ltac:(lia)) as [_ H].
  exact H.
Defined.



Lemma parseIPRule_quad_witness :
  parseIPRule (lit "10.0.0.0/24") = [Cidr 167772160 (maskOf 24) 24].
Proof.
  destruct (parseIPRule_quad (lit "10.0.0.0") 167772160 50%N [52%N])
    as [_ H].
  - apply ipv4ToInt_quad. vm_compute. reflexivity.
  - reflexivity.
  - by repeat constructor.
  - exact H.
Defined.

End HelperInstances.

(** ** A stamp needs a time *)

Section Placeholder.

Lemma stamp_prefix line m :
  matchAt tsRe (stateAt line (index m)) = Some m →
  ∃ ws d ws' h tl,
    drop (index m) line = clock :: ws ++ d ++ ws' ++ h :: tl
    ∧ Forall (fun c => isSpace c = true) ws ∧ dateShaped d
    ∧ ws' ≠ [] ∧ Forall (fun c => isSpace c = true) ws'
    ∧ isDigit h = true.
Proof.
  intros (_ & st' & _ & H)%matchAt_sound.
  change tsRe with
    (seqs ([ Regex.unit clock; spaces;
             Grp 1 (seqs [digit; digit; digit; digit; str "-";
                          digit; digit; str "-"; digit; digit]);
             spaces1 ]
           ++ [ Grp 2 (Seq digit (Opt digit));
                Opt (Seq (str ":")
                       (Grp 3 (Seq (Cls (Js.inRange 48 53)) digit)));
                spaces;
                Opt (Grp 4 (Alt (strI "am") (strI "pm")));
                WordB ])) in H.
  apply span_seqs_app in H as (st1 & cs1 & Hpre & Hpost).
  destruct Hpost as (st2 & cs2 & (cs3 & (st3 & cs4 & Hd & _) & _) & _).
  span_inv Hd. span_inv Hpre. subst. cbn in *.
  match goal with H : drop _ _ = _ |- _ => rewrite H end.
  exists x7, [x13; x17; x21; x25; 45%N; x35; x39; 45%N; x49; x53],
    (x59 :: x61), x, x0.
  split_and!; try done.
  - subst. repeat match goal with H : rest _ = _ |- _ => rewrite H end.
    subst. repeat match goal with H : rest _ = _ |- _ => rewrite H end.
    done.
  - eexists _, _, _, _, _, _, _, _. split; [done|]. by repeat constructor.
  - by constructor.
Qed.

Lemma digit_not_space c : isDigit c = true → isSpace c = false.
Proof.
  intros Hc%isDigit_cases.
  by destruct Hc as [->|[->|[->|[->|[->|[->|[->|[->|[->| ->]]]]]]]]].
Qed.

Lemma clock_once (A B : list N) i :
  clock ∉ A → clock ∉ B → (A ++ clock :: B) !! i = Some clock → i = length A.
Proof.
  intros HA HB Hi. destruct (lt_eq_lt_dec i (length A)) as [[Hlt|Heq]|Hgt].
  - rewrite lookup_app_l in Hi by done. destruct HA.
    by eapply list_elem_of_lookup_2.
  - done.
  - rewrite lookup_app_r in Hi by lia.
    destruct (i - length A) as [|k] eqn:Hk; [lia|]. cbn in Hi.
    destruct HB. by eapply list_elem_of_lookup_2.
Qed.

(** X24. A stamp needs a time: the text that the picker and the
    suggestions insert, a clock glyph, the date and the placeholder
    [hh:mm AM], is no reminder. A line that holds no other clock glyph
    yields no occurrence as long as the placeholder stands, so that the
    check after the insert finds the line inactive. *)
Theorem placeholder_not_parsed pre post needsSpace d now :
  clock ∉ pre → clock ∉ post → dateShaped d →
  parseClockEmojiAll (pre ++ insertText needsSpace d ++ post) = []
  ∧ lineActive now (pre ++ insertText needsSpace d ++ post) = false.
Proof.
  intros Hpre Hpost Hd.
  set (line := pre ++ insertText needsSpace d ++ post).
  assert (parseClockEmojiAll line = []) as Hnone;
    [|split; [done|]; unfold lineActive; by rewrite Hnone].
  destruct (parseClockEmojiAll line) as [|o os] eqn:Hp; [done|]. exfalso.
  assert (o ∈ parseClockEmojiAll line) as Hin
    by (rewrite Hp; apply list_elem_of_here).
  apply occurrence_origin in Hin as (m & next & _ & _ & Hat & _).
  destruct (stamp_match_shape line m Hat) as (_ & Hclock & _).
  destruct (stamp_prefix line m Hat)
    as (ws & d' & ws' & h & tl & Hdrop & Hws & Hd' & Hne & Hws' & Hh).
  set (A := pre ++ (if needsSpace then [32%N] else [])).
  set (B := [32%N] ++ d ++ [32%N] ++ lit "hh:mm AM" ++ post).
  assert (line = A ++ clock :: B) as Hline.
  { subst line A B. unfold insertText, formatDateInsert.
    rewrite <-!app_assoc. done. }
  assert (clock ∉ d) as Hcd.
  { destruct Hd as (a & b & c & e & f & g & x & y & -> & Hall).
    rewrite Forall_forall in Hall. intros Hin.
    repeat (apply elem_of_cons in Hin as [Hin|Hin];
            [first [discriminate Hin
                   | (assert (isDigit clock = true) as Hbad
                        by (apply Hall; rewrite Hin;
                            repeat first [apply list_elem_of_here
                                         |apply list_elem_of_further]);
                      discriminate Hbad)]|]).
    by apply elem_of_nil in Hin. }
  rewrite Hline in Hclock. apply clock_once in Hclock.
  - rewrite Hline, Hclock, drop_app_length in Hdrop.
    injection Hdrop as Hdrop. subst B.
    destruct Hd as (a & b & c & e & f & g & x & y & -> & Hall).
    destruct Hd' as (a' & b' & c' & e' & f' & g' & x' & y' & -> & Hall').
    apply Forall_cons in Hall as [Ha _]. apply Forall_cons in Hall' as [Ha' _].
    change ([32%N] ++ ?l) with (([32%N] : list N) ++ l) in Hdrop.
    cbn [app] in Hdrop.
    change (32%N :: a :: ?l) with ([32%N] ++ a :: l) in Hdrop.
    apply space_split in Hdrop as (_ & _ & Hdrop);
      [|by repeat constructor|done|by apply digit_not_space..].
    injection Hdrop as _ _ _ _ _ _ _ Hdrop.
    destruct ws' as [|s ws']; [done|].
    apply Forall_cons in Hws' as [Hs Hws'].
    injection Hdrop as _ Hdrop.
    destruct ws' as [|s' ws'].
    + injection Hdrop as <- _. discriminate Hh.
    + injection Hdrop as <- _. apply Forall_cons in Hws' as [Hbad _].
      discriminate Hbad.
  - subst A. intros [?|Hin]%elem_of_app; [done|].
    destruct needsSpace; [|by apply elem_of_nil in Hin].
    apply list_elem_of_singleton in Hin. discriminate Hin.
  - subst B. rewrite !elem_of_app.
    intros [Hin|[Hin|[Hin|[Hin|Hin]]]]; try done.
    + apply list_elem_of_singleton in Hin. discriminate Hin.
    + apply list_elem_of_singleton in Hin. discriminate Hin.
    + vm_compute in Hin.
      repeat (apply elem_of_cons in Hin as [Hin|Hin]; [discriminate Hin|]).
      by apply elem_of_nil in Hin.
Qed.

End Placeholder.

(** ** What a fire and a rescan leave behind *)

Section Aftermath.
Local Open Scope Z_scope.

(** A registration only adds. *)
Lemma schedule_adds now p l w prio ctx o r st :
  allocated st →
  (∀ id h, timerHandles st !! id = Some h →
     timerHandles (scheduleOneReminder now p l w prio ctx o r st) !! id
     = Some h)
  ∧ (∀ h, (h < nextHandle st)%positive →
       armed (scheduleOneReminder now p l w prio ctx o r st) !! h
       = armed st !! h).
Proof.
  intros [HL1 HL2]. unfold scheduleOneReminder.
  case_bool_decide as Hin; [done|].
  destruct (w - now <=? 0); [done|].
  destruct (MAX_TIMEOUT_MS <? w - now); [done|].
  match goal with
  | |- context [noteScheduled ?a ?b ?c ?d] =>
      destruct (noteScheduled_registry a b c d) as (-> & _ & -> & _)
  end.
  cbn. split.
  - intros id h Hh. rewrite lookup_insert_ne; [done|]. intros <-.
    apply Hin. by rewrite Hh.
  - intros h Hlt. rewrite lookup_insert_ne; [done|]. lia.
Qed.

(** X25. A timeout fires once and takes nothing with it: after the
    callback of the timeout [h] has run, [h] is no longer armed, every
    other armed timeout is still armed with what it closed over, and
    every id but the fired one keeps its entry. For a one-shot timer the
    registry is exactly what it was without the fired id. *)
Theorem fire_frame now h c st :
  inStep st → armed st !! h = Some c →
  armed (fire now h st) !! h = None
  ∧ (∀ h' c', h' ≠ h → armed st !! h' = Some c' →
       armed (fire now h st) !! h' = Some c')
  ∧ (∀ id h', id ≠ closureId c → timerHandles st !! id = Some h' →
       timerHandles (fire now h st) !! id = Some h')
  ∧ (c_recur c = None →
     timerHandles (fire now h st) = delete (closureId c) (timerHandles st)
     ∧ armed (fire now h st) = delete h (armed st)).
Proof.
  intros [Hwf Hs] Hc. pose proof Hwf as (_ & _ & HL1 & HL2).
  unfold fire. rewrite Hc. unfold fireEnd, fireFinally.
  set (st1 := Plugin _ _ _ _ _ _ _ _).
  assert (timerHandles (fireBegin h st) = timerHandles st
          ∧ armed (fireBegin h st) = delete h (armed st)
          ∧ nextHandle (fireBegin h st) = nextHandle st) as (HT & HA & HN).
  { unfold fireBegin. rewrite Hc. by case_match. }
  assert (timerHandles (afterRemoval c st1) = delete (closureId c) (timerHandles st)
          ∧ armed (afterRemoval c st1) = delete h (armed st)
          ∧ nextHandle (afterRemoval c st1) = nextHandle st) as (HT1 & HA1 & HN1).
  { subst st1. cbn. by rewrite HT, HA, HN. }
  assert (allocated (afterRemoval c st1)) as Halloc.
  { split; rewrite ?HT1, ?HA1, HN1.
    - intros id h' [_ Hh']%lookup_delete_Some. by eapply HL1.
    - intros h' c' [_ Hh']%lookup_delete_Some. by eapply HL2. }
  assert (∀ s, (s = afterRemoval c st1
                ∨ ∃ w prio ctx r,
                    s = scheduleOneReminder now (c_filePath c) (c_lineIndex c)
                          w prio ctx (c_offset c) r (afterRemoval c st1)) →
            armed s !! h = None
            ∧ (∀ h' c', h' ≠ h → armed st !! h' = Some c' →
                 armed s !! h' = Some c')
            ∧ (∀ id h', id ≠ closureId c → timerHandles st !! id = Some h' →
                 timerHandles s !! id = Some h')) as Hboth.
  { intros s [->|(w & prio & ctx & r & ->)].
    - rewrite HT1, HA1. split_and!.
      + apply lookup_delete_eq.
      + intros h' c' Hne Hh'. by rewrite lookup_delete_ne.
      + intros id h' Hne Hh'. by rewrite lookup_delete_ne.
    - destruct (schedule_adds now (c_filePath c) (c_lineIndex c) w prio ctx
                  (c_offset c) r _ Halloc) as [Hth Harm].
      split_and!.
      + rewrite Harm, HA1; [apply lookup_delete_eq|].
        rewrite HN1. by eapply HL2.
      + intros h' c' Hne Hh'. rewrite Harm, HA1.
        * by rewrite lookup_delete_ne.
        * rewrite HN1. by eapply HL2.
      + intros id h' Hne Hh'. apply Hth. rewrite HT1.
        by rewrite lookup_delete_ne. }
  destruct (c_recur c) as [r|] eqn:Hr.
  - destruct (isSender (afterRemoval c st1)).
    + destruct (chainNext (c_when c) r now) as [next|].
      * destruct (Hboth (scheduleOneReminder now (c_filePath c) (c_lineIndex c)
                           next (c_prio c) (c_context c) (c_offset c) (Some r)
                           (afterRemoval c st1))) as (H1 & H2 & H3).
        { right. by eexists _, _, _, _. }
        by split_and!.
      * destruct (Hboth (afterRemoval c st1)) as (H1 & H2 & H3); [by left|].
        by split_and!.
    + destruct (Hboth (afterRemoval c st1)) as (H1 & H2 & H3); [by left|].
      by split_and!.
  - destruct (Hboth (afterRemoval c st1)) as (H1 & H2 & H3); [by left|].
    by split_and!.
Qed.

(** X26. A rescan registers timers for the future only: every id filed
    under the document after [scheduleFileFresh] was built from an instant
    that is after the clock reading of the rescan and at most
    [MAX_TIMEOUT_MS] after it. A one-shot stamp whose instant has passed
    is therefore not registered again. *)
Theorem rescan_registers_future_only now dismiss p text hint st ids id :
  fileTimers (scheduleFileFresh now dismiss p text hint st) !! p = Some ids →
  id ∈ ids →
  ∃ l w o, id = timerId p l w o ∧ now < w ≤ now + MAX_TIMEOUT_MS.
Proof.
  set (P := fun s : plugin =>
              ∀ ids id, fileTimers s !! p = Some ids → id ∈ ids →
                ∃ l w o, id = timerId p l w o
                         ∧ now < w ≤ now + MAX_TIMEOUT_MS).
  assert (P (clearTimersForFile p st)) as Hstart.
  { intros ids' id'. unfold clearTimersForFile.
    destruct (fileTimers st !! p) as [x|] eqn:Hp; cbn.
    - by rewrite lookup_delete_eq.
    - by rewrite Hp. }
  assert (∀ s, P s → P (scheduleFromFileNoClear now dismiss p text hint s))
    as Hbody.
  { apply (rescanBody_preserves P p now).
    - intros e s Hs. exact Hs.
    - intros l w prio ctx o r s Hs ids' id'. unfold scheduleOneReminder.
      case_bool_decide; [apply Hs|].
      destruct (Z.leb_spec (w - now) 0); [apply Hs|].
      destruct (Z.ltb_spec MAX_TIMEOUT_MS (w - now)); [apply Hs|].
      match goal with
      | |- context [noteScheduled ?a ?b ?c ?d] =>
          destruct (noteScheduled_registry a b c d) as (_ & -> & _)
      end.
      cbn. rewrite lookup_insert_eq. intros [= <-].
      intros [->%elem_of_singleton|Hin]%elem_of_union.
      + exists l, w, o. split; [done|lia].
      + destruct (fileTimers s !! p) as [x|] eqn:Hp; cbn in Hin.
        * by apply (Hs x).
        * by apply not_elem_of_empty in Hin.
    - intros l s Hs ids' id'. unfold clearTimersForLine.
      destruct (fileTimers s !! p) as [x|] eqn:Hp; [|by rewrite Hp].
      cbn. rewrite shrinkEntry_lookup. case_bool_decide; [done|].
      intros [= <-] [Hin _]%elem_of_difference. by apply (Hs x). }
  intros Hids Hid. unfold scheduleFileFresh in Hids.
  destruct (isSender st); cbn in Hids.
  - by apply (Hbody _ Hstart ids).
  - by apply (Hstart ids).
Qed.

End Aftermath.

(** ** Instances of the properties of the placeholder, of a fire and of a
    rescan *)

Section AftermathInstances.
Import Examples.
Local Open Scope Z_scope.

Lemma placeholder_not_parsed_witness :
  parseClockEmojiAll
    (lit "call mom" ++ insertText true (lit "2025-09-01") ++ []) = [].
Proof.
  destruct (placeholder_not_parsed (lit "call mom") [] true (lit "2025-09-01")
              exNow) as [H _].
  - by apply (bool_decide_unpack _).
  - apply not_elem_of_nil.
  - exists 50%N, 48%N, 50%N, 53%N, 48%N, 57%N, 48%N, 49%N.
    split; [reflexivity|]. by repeat constructor.
  - exact H.
Defined.

Lemma fire_frame_witness :
  armed (fire (Moment.epochMs 2025 9 1 10 0) 2%positive exScanned)
    !! 2%positive = None.
Proof.
  destruct (fire_frame (Moment.epochMs 2025 9 1 10 0) 2%positive exClosure
              exScanned exScanned_inStep) as [H _].
  - vm_compute. reflexivity.
  - exact H.
Defined.

Lemma rescan_registers_future_only_witness :
  ∃ l w o, exIdLine1 = timerId exPath l w o
           ∧ exNow < w ≤ exNow + MAX_TIMEOUT_MS.
Proof.
  apply (rescan_registers_future_only exNow exDismiss exPath exText None
           (initial true) {[ exIdLine1; lit "n.md#0#1756717200#2" ]}
           exIdLine1).
  - vm_compute. reflexivity.
  - set_solver.
Defined.

End AftermathInstances.

(** ** The toast of a rescan *)

Section Toasts.
Local Open Scope Z_scope.

Lemma toasts_app tr tr' : toasts (tr ++ tr') = (toasts tr + toasts tr')%nat.
Proof. unfold toasts. by rewrite List.filter_app, length_app. Qed.

(** What the loop over the lines preserves when the operations of a rescan
    and its log entries preserve it. *)
Lemma rescanLines_preserves (P : plugin → Prop) p now dismiss hint :
  (∀ e st, e ≠ NoticeReminderSet → P st → P (emit e st)) →
  (∀ l w prio ctx o r st,
     P st → P (scheduleOneReminder now p l w prio ctx o r st)) →
  (∀ l st, P st → P (clearTimersForLine p l st)) →
  ∀ ls acc,
    P acc.1 → P (fold_left (scheduleLine now dismiss p hint) ls acc).1.
Proof.
  intros Hemit Hsched Hclear.
  assert (∀ line i prio os acc, P acc.1 →
            P (fold_left (scheduleMatch now p line i prio hint) os acc).1)
    as Hmatches.
  { intros line i prio os. induction os as [|o os IH]; intros [s f] Hs;
      cbn; [done|]. apply IH. cbn.
    destruct (firstWhen now o); cbn; [by apply Hsched|done|by apply Hemit]. }
  intros ls. induction ls as [|[i line] ls IH]; intros [s f] Hs;
    cbn [fold_left]; [done|]. apply IH. unfold scheduleLine.
  case_match; [by apply Hemit|].
  destruct (parseClockEmojiAll line) as [|o os]; [done|].
  apply Hmatches. cbn. by apply Hclear.
Qed.

(** X27. The toast "Reminder set" of a rescan: a rescan shows it at most
    twice, once when a registration falls on the line of a fresh insert
    (which forgets the insert) and once at its end. It shows it at most
    once when no insert is pending at its start, and at most once when it
    has no edited-line hint. *)
Theorem reminder_set_toasts now dismiss p text hint st :
  (toasts (trace (scheduleFileFresh now dismiss p text hint st))
   ≤ toasts (trace st) + 2)%nat
  ∧ (recentInsert st = None ∨ hint = None →
     (toasts (trace (scheduleFileFresh now dismiss p text hint st))
      ≤ toasts (trace st) + 1)%nat)
  ∧ (toasts (trace st)
     ≤ toasts (trace (scheduleFileFresh now dismiss p text hint st)))%nat.
Proof.
  set (s0 := clearTimersForFile p st).
  assert (recentInsert s0 = recentInsert st
          ∧ toasts (trace s0) = toasts (trace st)) as [Hri0 Ht0].
  { subst s0. unfold clearTimersForFile.
    destruct (fileTimers st !! p) as [ids|]; [|done]. cbn -[toasts].
    destruct (cancel_fold ids st) as (_ & _ & _ & -> & _ & _ & -> & _).
    rewrite toasts_app. cbn. split; [done|lia]. }
  set (P := fun s : plugin =>
              (recentInsert s = recentInsert s0
               ∧ toasts (trace s) = toasts (trace s0))
              ∨ (recentInsert s0 ≠ None ∧ recentInsert s = None
                 ∧ toasts (trace s) = S (toasts (trace s0)))).
  assert (∀ ls acc, P acc.1 →
            P (fold_left (scheduleLine now dismiss p hint) ls acc).1) as Hfold.
  { apply rescanLines_preserves.
    - intros e s He HP. unfold P in *. cbn -[toasts]. rewrite toasts_app.
      assert (toasts [e] = 0%nat) as -> by (by destruct e).
      rewrite Nat.add_0_r. done.
    - intros l w prio ctx o r s HP. unfold scheduleOneReminder.
      case_bool_decide; [done|]. destruct (_ <=? _); [done|].
      destruct (_ <? _).
      { unfold P in *. cbn -[toasts]. rewrite toasts_app. cbn.
        by rewrite Nat.add_0_r. }
      match goal with
      | |- P (noteScheduled _ _ _ ?x) =>
          assert (recentInsert x = recentInsert s
                  ∧ toasts (trace x) = toasts (trace s)) as [Hr1 Ht1];
          [cbn -[toasts]; rewrite toasts_app; cbn; split; [done|lia]|];
          generalize dependent x; intros s1 Hr1 Ht1
      end.
      unfold noteScheduled. rewrite Hr1.
      destruct (recentInsert s) as [ri|] eqn:Hri.
      + case_match.
        * right. cbn -[toasts]. rewrite toasts_app, Ht1. cbn.
          destruct HP as [[Hs1 Hs2]|(_ & Hs1 & _)]; [|congruence].
          split_and!; [congruence|done|lia].
        * unfold P in *. rewrite Hr1, Ht1. by rewrite Hri in HP.
      + unfold P in *. rewrite Hr1, Ht1. by rewrite Hri in HP.
    - intros l s HP. unfold clearTimersForLine.
      destruct (fileTimers s !! p) as [ids|]; [|done]. unfold P in *.
      cbn -[toasts].
      by destruct (cancel_fold
                     (filter (fun id => startsWith id (linePrefix p l) = true)
                        ids) s) as (_ & _ & _ & -> & _ & _ & -> & _). }
  assert (P s0) as HP0 by (by left).
  unfold scheduleFileFresh. fold s0.
  destruct (isSender st) eqn:Hs; cbn [negb];
    [|rewrite Ht0; split_and!; intros; lia].
  unfold scheduleFromFileNoClear.
  assert (isSender s0 = true) as ->.
  { subst s0. by rewrite clearTimersForFile_role. }
  cbn [negb].
  specialize (Hfold (imap pair (splitLines text)) (s0, false) HP0).
  destruct (fold_left _ _ _) as [s' flag]. cbn [fst] in Hfold.
  unfold P in Hfold. rewrite Ht0, Hri0 in Hfold.
  destruct hint as [i|].
  - destruct flag.
    + destruct (recentInsert s') eqn:Hr'.
      * destruct Hfold as [[H1 H2]|(H1 & H2 & H3)];
          [|congruence]. rewrite H2.
        split_and!; [lia|intros; lia|lia].
      * cbn -[toasts]. rewrite toasts_app. cbn.
        destruct Hfold as [[H1 H2]|(H1 & H2 & H3)].
        -- rewrite H2. split_and!; [lia|intros; lia|lia].
        -- rewrite H3. split_and!; [lia| |lia].
           intros [?|?]; [congruence|done].
    + destruct Hfold as [[H1 H2]|(H1 & H2 & H3)].
      * rewrite H2. split_and!; [lia|intros; lia|lia].
      * rewrite H3. split_and!; [lia|intros; lia|lia].
  - destruct Hfold as [[H1 H2]|(H1 & H2 & H3)].
    + rewrite H2. split_and!; [lia|intros; lia|lia].
    + rewrite H3. split_and!; [lia|intros; lia|lia].
Qed.

End Toasts.

(** ** Every due occurrence gets its timer *)

Section Coverage.
Local Open Scope Z_scope.












End Coverage.

(** ** Instances of the properties of the rescan *)

Section CoverageInstances.
Import Examples.
Local Open Scope Z_scope.


(** The bound of two toasts is reached: a rescan with the hint of a line
    on which a fresh insert is pending shows the toast at the registration
    and again at its end. *)
Example reminder_set_twice :
  toasts (trace (scheduleFileFresh (exNow + 1000) exDismiss exPath exText
                   (Some 0%nat)
                   (setRecentInsert (Some (Recent exNow exPath 0))
                      (initial true))))
  = 2%nat.
Proof. vm_compute. reflexivity. Qed.

End CoverageInstances.

(** ** What a due occurrence is armed with *)

Section Armed.
Local Open Scope Z_scope.










End Armed.

(** ** An instance of what a due occurrence is armed with *)

Section ArmedInstances.
Import Examples.
Local Open Scope Z_scope.


End ArmedInstances.
